(** * Egg: a shallow embedding of the parser and the evaluator

    The interpreter under study is the "Egg" language of the repository:
    [skipSpace], [parseExpression], [parseApply], [parse], [evaluate],
    the [specialForms] table, [topScope] and [run].

    Conventions of the embedding.
    - A JavaScript string is the list of its UTF-16 code units, each a
      number in [N].  The regular expressions of the parser carry no flag,
      so every character class works on single code units.
    - A function that recurses through the program text or through the
      program being run takes a [fuel] argument; the parser is then shown
      to be total, and evaluation results are stated for every amount of
      fuel that lets the evaluation finish.
    - A JavaScript number is modelled by the integer it denotes.  Integers
      of magnitude at most 2^53 are exactly the integers on which double
      arithmetic is exact; an operation that would leave that range, or
      produce a fraction, an infinity, a NaN or a negative zero, yields
      the outcome [Unmodelled] instead of a value.  The same outcome
      stands for the host coercions between values of different types.
      The parser itself is modelled on every text: [Number] rounds a run
      of digits to the nearest double, as the host does.
    - The outcome [Unmodelled] also marks the place where a program
      reaches an object of the host: [element] with a key that is not a
      number reads a host property (of a function, its constructor), and
      what the program does with it is decided by host code and not by
      the interpreter.  A statement about whole runs therefore says
      explicitly that the run has not ended [Unmodelled].
    - No built-in changes an array, so an array value is the list of its
      elements; a scope, which [define] and calls do change and closures
      share, is an object on a heap and is named by its index there. *)

From stdpp Require Import gmap list strings.
From Stdlib Require Import ZArith NArith Lia.

#[local] Set Warnings "-register-all".

Open Scope Z_scope.
Open Scope N_scope.
Open Scope nat_scope.
Open Scope list_scope.

(** ** Strings as code units *)

Abbreviation char := N.
Abbreviation jsstring := (list N).

Definition js (s : string) : jsstring :=
  (fun a => Ascii.N_of_ascii a) <$> String.list_ascii_of_string s.

Definition QUOTE : char := 34%N.
Definition HASH : char := 35%N.
Definition LPAREN : char := 40%N.
Definition RPAREN : char := 41%N.
Definition COMMA : char := 44%N.

Definition between (lo hi c : N) : bool := (lo <=? c)%N && (c <=? hi)%N.

(** [\d] without the unicode flag: the ten ASCII digits. *)
Definition isDigit (c : char) : bool := between 48 57 c.

(** [\w], the class [\b] is defined from: ASCII letters, digits, underscore. *)
Definition isWord (c : char) : bool :=
  isDigit c || between 65 90 c || between 97 122 c || (c =? 95)%N.

(** [\s]: the WhiteSpace and LineTerminator code points of ECMAScript. *)
Definition isSpace (c : char) : bool :=
  between 9 13 c || (c =? 32)%N || (c =? 160)%N || (c =? 5760)%N
  || between 8192 8202 c || (c =? 8232)%N || (c =? 8233)%N
  || (c =? 8239)%N || (c =? 8287)%N || (c =? 12288)%N || (c =? 65279)%N.

(** The negated class of the identifier pattern: anything but whitespace,
    the two parentheses, the comma, the hash sign and the double quote. *)
Definition isIdentChar (c : char) : bool :=
  negb (isSpace c || (c =? LPAREN)%N || (c =? RPAREN)%N || (c =? COMMA)%N
        || (c =? HASH)%N || (c =? QUOTE)%N).

(** The negated class of the string pattern: anything but a double quote. *)
Definition notQuote (c : char) : bool := negb (c =? QUOTE)%N.

(** Greedy match of [[class]*] at the start of [s]: the matched prefix and
    what follows it. *)
Fixpoint span (p : char -> bool) (s : jsstring) : jsstring * jsstring :=
  match s with
  | [] => ([], [])
  | c :: t => if p c then let '(a, b) := span p t in (c :: a, b) else ([], s)
  end.

(** [program[0] == c]; false on the empty string, whose [program[0]] is
    [undefined]. *)
Definition startsWith (c : char) (s : jsstring) : bool :=
  match s with
  | c' :: _ => (c' =? c)%N
  | [] => false
  end.

(** ** Syntax trees *)

(** The value of a value expression: a string, or a number, which the
    parser makes from a run of digits only, so a non-negative integer that
    is a double, or the infinity that too long a run of digits gives. *)
Inductive literal :=
| LNum (n : Z)
| LStr (s : jsstring)
| LInfinity.

(** The three expression objects, by their type property: value,
    valid identifier, apply. *)
Inductive expr :=
| Value (value : literal)
| ValidIdentifier (name : jsstring)
| Apply (operator : expr) (args : list expr).

Inductive error :=
| SyntaxError (message : jsstring)
| ReferenceError (message : jsstring)
| TypeError (message : jsstring)
| HostTypeError.

Inductive outcome (A : Type) :=
| Ok (a : A)
| Throw (e : error)
| Unmodelled
| OutOfFuel.
Arguments Ok {A} a.
Arguments Throw {A} e.
Arguments Unmodelled {A}.
Arguments OutOfFuel {A}.

(** ** The parser *)

(** [string.search(/\S/)] then [slice]: drop the leading whitespace. *)
Fixpoint skipSpace (s : jsstring) : jsstring :=
  match s with
  | [] => []
  | c :: t => if isSpace c then skipSpace t else s
  end.

(** The integer that a run of digits denotes in base ten. *)
Definition digitValue (c : char) : Z := Z.of_N (c - 48)%N.

Definition decimalValue (ds : jsstring) : Z :=
  foldl (fun acc d => (10 * acc + digitValue d)%Z) 0%Z ds.

(** The double nearest to a non-negative integer [n].  Up to 2^53 every
    integer is a double.  Above, with [e] the exponent of the last place
    of the 53-bit significand, the doubles around [n] are the multiples
    of [2^e]: [n] goes to the nearer of the two next to it, and half way
    to the one with the even significand.  What rounds to 2^1024 or more
    is the infinity. *)
Definition roundToDouble (n : Z) : literal :=
  if (n <=? 2 ^ 53)%Z then LNum n
  else
    let e := (Z.log2 n - 52)%Z in
    let q := (n / 2 ^ e)%Z in
    let r := (n mod 2 ^ e)%Z in
    let half := (2 ^ (e - 1))%Z in
    let q' := if (r <? half)%Z then q
              else if (half <? r)%Z then (q + 1)%Z
              else if Z.even q then q else (q + 1)%Z in
    if (q' * 2 ^ e <? 2 ^ 1024)%Z then LNum (q' * 2 ^ e) else LInfinity.

(** [Number(match[0])] on a run of digits: the decimal value, rounded to
    a double.  ECMAScript prescribes this value for runs of up to 20
    significant digits, and engines give it for longer runs too. *)
Definition Number (ds : jsstring) : literal := roundToDouble (decimalValue ds).

(** The string pattern (a double quote, any run of code units other than
    the double quote, a double quote): the captured group and the remainder
    after the closing quote. *)
Definition matchString (program : jsstring) : option (jsstring * jsstring) :=
  if startsWith QUOTE program then
    let '(body, rest) := span notQuote (drop 1 program) in
    if startsWith QUOTE rest then Some (body, drop 1 rest) else None
  else None.

(** [/^\d+\b/]: the run of digits is maximal, so the only position where
    [\b] can hold is its end, and it holds there exactly when the next code
    unit is not a word character (or there is none). *)
Definition matchNumber (program : jsstring) : option (jsstring * jsstring) :=
  let '(digits, rest) := span isDigit program in
  match digits with
  | [] => None
  | _ :: _ =>
      match rest with
      | [] => Some (digits, rest)
      | c :: _ => if isWord c then None else Some (digits, rest)
      end
  end.

(** The identifier pattern: a nonempty greedy run of [isIdentChar]. *)
Definition matchIdentifier (program : jsstring) : option (jsstring * jsstring) :=
  let '(name, rest) := span isIdentChar program in
  match name with
  | [] => None
  | _ :: _ => Some (name, rest)
  end.

(** The three-way test at the head of [parseExpression]: the expression
    object built and [program.slice(match[0].length)]. *)
Definition matchAtom (program : jsstring) : option (expr * jsstring) :=
  match matchString program with
  | Some (s, rest) => Some (Value (LStr s), rest)
  | None =>
      match matchNumber program with
      | Some (ds, rest) => Some (Value (Number ds), rest)
      | None =>
          match matchIdentifier program with
          | Some (name, rest) => Some (ValidIdentifier name, rest)
          | None => None
          end
      end
  end.

Definition unexpectedSyntax (program : jsstring) : error :=
  SyntaxError (js "Unexpected syntax: " ++
               match program with
               | [] => js "you typed nothing"
               | _ :: _ => program
               end).

Definition expectedCommaOrParen : error := SyntaxError (js "Expected ',' or ')'").

(** [parseExpression], [parseApply] and the [while] loop of [parseApply]
    ([parseArgs], entered with the program already stripped of leading
    space and the arguments pushed so far). *)
Fixpoint parseExpression (fuel : nat) (program : jsstring)
  : outcome (expr * jsstring) :=
  match fuel with
  | O => OutOfFuel
  | S n =>
      let program := skipSpace program in
      match matchAtom program with
      | Some (e, rest) => parseApply n e rest
      | None => Throw (unexpectedSyntax program)
      end
  end
with parseApply (fuel : nat) (e : expr) (program : jsstring)
  : outcome (expr * jsstring) :=
  match fuel with
  | O => OutOfFuel
  | S n =>
      let program := skipSpace program in
      if negb (startsWith LPAREN program) then Ok (e, program)
      else
        match parseArgs n (skipSpace (drop 1 program)) [] with
        | Ok (args, program) => parseApply n (Apply e args) (drop 1 program)
        | Throw err => Throw err
        | Unmodelled => Unmodelled
        | OutOfFuel => OutOfFuel
        end
  end
with parseArgs (fuel : nat) (program : jsstring) (args : list expr)
  : outcome (list expr * jsstring) :=
  match fuel with
  | O => OutOfFuel
  | S n =>
      if startsWith RPAREN program then Ok (args, program)
      else
        match parseExpression n program with
        | Ok (arg, rest) =>
            let args := args ++ [arg] in
            let program := skipSpace rest in
            if startsWith COMMA program then
              parseArgs n (skipSpace (drop 1 program)) args
            else if negb (startsWith RPAREN program) then
              Throw expectedCommaOrParen
            else parseArgs n program args
        | Throw err => Throw err
        | Unmodelled => Unmodelled
        | OutOfFuel => OutOfFuel
        end
  end.

(** Fuel that always suffices for a text of the given length. *)
Definition parseFuel (program : jsstring) : nat := 3 * length program + 3.

Definition parseExpr (program : jsstring) : outcome (expr * jsstring) :=
  parseExpression (parseFuel program) program.

Definition parseApp (e : expr) (program : jsstring) : outcome (expr * jsstring) :=
  parseApply (parseFuel program) e program.

Definition parseArguments (program : jsstring) (args : list expr)
  : outcome (list expr * jsstring) :=
  parseArgs (parseFuel program) program args.

Definition unexpectedText (rest : jsstring) : error :=
  SyntaxError (js "Unexpected text after program: " ++ rest).

Definition parse (program : jsstring) : outcome expr :=
  match parseExpr program with
  | Ok (e, rest) =>
      if (0 <? length (skipSpace rest))%nat then Throw (unexpectedText rest)
      else Ok e
  | Throw err => Throw err
  | Unmodelled => Unmodelled
  | OutOfFuel => OutOfFuel
  end.


(** ** The lexical rules as the specification words them

    These two definitions follow the wording of the specification, to be
    compared with [matchAtom]. *)

(** A run of digits followed by a non-digit, or by the end of the input,
    is a number literal. *)
Definition numberRuleAsSpecified (program : jsstring) : Prop :=
  forall digits rest,
    skipSpace program = digits ++ rest ->
    digits <> [] ->
    forallb isDigit digits = true ->
    match rest with [] => True | c :: _ => isDigit c = false end ->
    matchAtom (skipSpace program) = Some (Value (Number digits), rest).

(** The excluded set of the identifier rule as specified: whitespace, the
    two parentheses, the comma and the hash sign. *)
Definition isIdentCharAsSpecified (c : char) : bool :=
  negb (isSpace c || (c =? LPAREN)%N || (c =? RPAREN)%N || (c =? COMMA)%N
        || (c =? HASH)%N).

Definition identifierRuleAsSpecified (program : jsstring) : Prop :=
  matchString (skipSpace program) = None ->
  matchNumber (skipSpace program) = None ->
  forall name rest,
    span isIdentCharAsSpecified (skipSpace program) = (name, rest) ->
    name <> [] ->
    matchAtom (skipSpace program) = Some (ValidIdentifier name, rest).

(** An outcome other than running out of fuel. *)
Definition finished {A} (r : outcome A) : Prop := r <> OutOfFuel.

(** ** One code unit of lookahead

    The comma and the closing parenthesis end every token and are neither
    whitespace nor an opening parenthesis. *)
Definition isDelimiter (c : char) : bool := (c =? COMMA)%N || (c =? RPAREN)%N.

(** Two continuations of a text that a token matcher cannot tell apart:
    they start with the same code unit, or the second starts with a
    delimiter. *)
Definition sameLookahead (rest rest' : jsstring) : Prop :=
  (exists c t t', rest = c :: t /\ rest' = c :: t') \/
  (exists c' t', rest' = c' :: t' /\ isDelimiter c' = true).

(** ** Runtime values, scopes and the interpreter state *)

(** A scope is a JavaScript object; the interpreter state holds those
    objects in allocation order, and a scope is named by its index. *)
Abbreviation loc := nat.

(** The functions stored in [topScope]. *)
Inductive builtin :=
| Plus | Minus | Times | Divide | Equals | Less | Greater
| Print | ArrayOf | Length | Element.

Inductive value :=
| VNum (n : Z)
| VStr (s : jsstring)
| VBool (b : bool)
| VUndefined
| VBuiltin (f : builtin)
| VClosure (params : list jsstring) (body : expr) (scope : loc)
| VArray (values : list value).

(** An object made by [Object.create]: its own properties and its
    prototype ([None] for [Object.create(null)]). *)
Record scopeObject := {
  bindings : gmap jsstring value;
  proto : option loc
}.

(** [output] is what [console.log] has been given so far, oldest first. *)
Record state := {
  heap : list scopeObject;
  output : list value
}.

(** ** A state and error monad for the evaluator *)

Definition M (A : Type) : Type := state -> outcome A * state.

Definition ret {A} (a : A) : M A := fun st => (Ok a, st).
Definition throw {A} (e : error) : M A := fun st => (Throw e, st).
Definition outOfFuel {A} : M A := fun st => (OutOfFuel, st).
Definition lift {A} (r : outcome A) : M A := fun st => (r, st).

Definition bind {A B} (m : M A) (k : A -> M B) : M B :=
  fun st =>
    match m st with
    | (Ok a, st') => k a st'
    | (Throw e, st') => (Throw e, st')
    | (Unmodelled, st') => (Unmodelled, st')
    | (OutOfFuel, st') => (OutOfFuel, st')
    end.

Notation "'let*' x ':=' m 'in' k" := (bind m (fun x => k))
  (at level 10, x name, m at level 100, k at level 200).

(** ** Property access on scope objects *)

(** [name in scope] and [scope[name]]: the own properties, then the
    prototype chain.  A prototype is always an older object, so at most
    [l + 1] objects are visited from scope [l]. *)
Fixpoint getProperty (fuel : nat) (h : list scopeObject) (l : loc)
  (name : jsstring) : option value :=
  match fuel with
  | O => None
  | S n =>
      match h !! l with
      | None => None
      | Some o =>
          match bindings o !! name with
          | Some v => Some v
          | None =>
              match proto o with
              | Some p => getProperty n h p name
              | None => None
              end
          end
      end
  end.

Definition resolve (h : list scopeObject) (l : loc) (name : jsstring)
  : option value :=
  getProperty (S l) h l name.

Definition setOwn (name : jsstring) (v : value) (o : scopeObject) : scopeObject :=
  {| bindings := <[name := v]> (bindings o); proto := proto o |}.

(** [scope[name] = value]: every property on the chain is a plain data
    property, so the assignment creates or overwrites an own property. *)
Definition setProperty (l : loc) (name : jsstring) (v : value) (st : state)
  : state :=
  {| heap := alter (setOwn name v) l (heap st); output := output st |}.

(** [Object.create(parent)]. *)
Definition objectCreate (parent : loc) (st : state) : loc * state :=
  (length (heap st),
   {| heap := heap st ++ [ {| bindings := ∅; proto := Some parent |} ];
      output := output st |}).

(** ** The root scope *)

Definition TOP : loc := 0.

Definition topScope : scopeObject :=
  {| bindings :=
       list_to_map
         [ (js "true", VBool true); (js "false", VBool false);
           (js "+", VBuiltin Plus); (js "-", VBuiltin Minus);
           (js "*", VBuiltin Times); (js "/", VBuiltin Divide);
           (js "==", VBuiltin Equals); (js "<", VBuiltin Less);
           (js ">", VBuiltin Greater);
           (js "print", VBuiltin Print); (js "array", VBuiltin ArrayOf);
           (js "length", VBuiltin Length); (js "element", VBuiltin Element) ];
     proto := None |}.

Definition initialState : state := {| heap := [topScope]; output := [] |}.

(** ** Built-in functions *)

(** The i-th actual argument; a missing one is [undefined]. *)
Definition argument (i : nat) (args : list value) : value :=
  default VUndefined (args !! i).

Definition number (z : Z) : outcome value :=
  if (Z.abs z <=? 2 ^ 53)%Z then Ok (VNum z) else Unmodelled.

(** [a < b] on strings: code unit by code unit. *)
Fixpoint stringLess (a b : jsstring) : bool :=
  match a, b with
  | _, [] => false
  | [], _ :: _ => true
  | x :: a', y :: b' => (x <? y)%N || ((x =? y)%N && stringLess a' b')
  end.

(** The seven operator functions synthesized with [Function]: two
    parameters [a] and [b], and the operator applied to them. *)
Definition binaryOperator (f : builtin) (a b : value) : outcome value :=
  match f, a, b with
  | Plus, VNum x, VNum y => number (x + y)
  | Plus, VStr x, VStr y => Ok (VStr (x ++ y))
  | Minus, VNum x, VNum y => number (x - y)
  | Times, VNum x, VNum y =>
      if ((x * y =? 0) && ((x <? 0) || (y <? 0)))%Z then Unmodelled
      else number (x * y)
  | Divide, VNum x, VNum y =>
      if ((y =? 0) || negb (x mod y =? 0) || ((x =? 0) && (y <? 0)))%Z
      then Unmodelled
      else Ok (VNum (x / y))
  | Equals, VNum x, VNum y => Ok (VBool (x =? y)%Z)
  | Equals, VStr x, VStr y => Ok (VBool (bool_decide (x = y)))
  | Equals, VBool x, VBool y => Ok (VBool (eqb x y))
  | Equals, VUndefined, VUndefined => Ok (VBool true)
  | Less, VNum x, VNum y => Ok (VBool (x <? y)%Z)
  | Less, VStr x, VStr y => Ok (VBool (stringLess x y))
  | Greater, VNum x, VNum y => Ok (VBool (y <? x)%Z)
  | Greater, VStr x, VStr y => Ok (VBool (stringLess y x))
  | _, _, _ => Unmodelled
  end.

(** The [length] property of a function value: its declared parameters
    before any rest parameter. *)
Definition functionLength (f : builtin) : Z :=
  match f with
  | Print | Length => 1
  | ArrayOf => 0
  | _ => 2
  end.

(** [array.length]. *)
Definition lengthOf (a : value) : outcome value :=
  match a with
  | VArray values => Ok (VNum (Z.of_nat (length values)))
  | VStr s => Ok (VNum (Z.of_nat (length s)))
  | VNum _ | VBool _ => Ok VUndefined
  | VUndefined => Throw HostTypeError
  | VBuiltin f => Ok (VNum (functionLength f))
  | VClosure _ _ _ => Ok (VNum 0)
  end.

(** [array[n]] with a number for [n]; a key of another type names a
    property of the host object and is not modelled. *)
Definition elementOf (a n : value) : outcome value :=
  match a, n with
  | VUndefined, _ => Throw HostTypeError
  | VArray values, VNum i =>
      Ok (if (0 <=? i)%Z then default VUndefined (values !! Z.to_nat i)
          else VUndefined)
  | VStr s, VNum i =>
      Ok (if (0 <=? i)%Z then
            match s !! Z.to_nat i with
            | Some c => VStr [c]
            | None => VUndefined
            end
          else VUndefined)
  | _, VNum _ => Ok VUndefined
  | _, _ => Unmodelled
  end.

Definition consoleLog (v : value) : M unit :=
  fun st => (Ok tt, {| heap := heap st; output := output st ++ [v] |}).

Definition callBuiltin (f : builtin) (args : list value) : M value :=
  match f with
  | Print =>
      let v := argument 0 args in
      let* _ := consoleLog v in ret v
  | ArrayOf => ret (VArray args)
  | Length => lift (lengthOf (argument 0 args))
  | Element => lift (elementOf (argument 0 args) (argument 1 args))
  | _ => lift (binaryOperator f (argument 0 args) (argument 1 args))
  end.

(** ** The evaluator *)

Inductive form := If | While | Do | Define | Fun.

(** [operator.name in specialForms]: the table has no prototype and
    exactly these five keys. *)
Definition specialFormNamed (name : jsstring) : option form :=
  if decide (name = js "if") then Some If
  else if decide (name = js "while") then Some While
  else if decide (name = js "do") then Some Do
  else if decide (name = js "define") then Some Define
  else if decide (name = js "fun") then Some Fun
  else None.

(** The operator is a valid identifier and its name is in [specialForms]. *)
Definition specialFormOf (operator : expr) : option form :=
  match operator with
  | ValidIdentifier name => specialFormNamed name
  | _ => None
  end.

(** [typeof op] is the function type. *)
Definition isFunction (v : value) : bool :=
  match v with
  | VBuiltin _ | VClosure _ _ _ => true
  | _ => false
  end.

(** [v !== false]. *)
Definition isNotFalse (v : value) : bool :=
  match v with
  | VBool false => false
  | _ => true
  end.

Definition literalValue (l : literal) : outcome value :=
  match l with
  | LNum n => number n
  | LStr s => Ok (VStr s)
  | LInfinity => Unmodelled
  end.

Definition undefinedBinding (name : jsstring) : error :=
  ReferenceError (js "Undefined binding: " ++ name).

Definition notAFunction : error := TypeError (js "Applying a non-function.").
Definition wrongArity : error := TypeError (js "Wrong number of arguments").
Definition ifArity : error := SyntaxError (js "Wrong number of arguments to if").
Definition whileArity : error := SyntaxError (js "Wrong number of args to while").
Definition badDefine : error := SyntaxError (js "Incorrect use of define").
Definition noBody : error := SyntaxError (js "Functions need a body").
Definition badParameter : error :=
  SyntaxError (js "Parameter names must be valid identifiers").

Section Evaluator.

(** The evaluator at the recursive calls, and the bound on the number
    of iterations a [while] may take. *)
Variable ev : expr -> loc -> M value.
Variable loopFuel : nat.

(** [args.map((arg) => evaluate(arg, scope))]. *)
Fixpoint evaluateArgs (args : list expr) (scope : loc) : M (list value) :=
  match args with
  | [] => ret []
  | arg :: rest =>
      let* v := ev arg scope in
      let* vs := evaluateArgs rest scope in
      ret (v :: vs)
  end.

Definition specialFormIf (args : list expr) (scope : loc) : M value :=
  match args with
  | [arg0; arg1; arg2] =>
      let* c := ev arg0 scope in
      if isNotFalse c then ev arg1 scope else ev arg2 scope
  | _ => throw ifArity
  end.

Fixpoint whileLoop (fuel : nat) (cond body : expr) (scope : loc) : M value :=
  match fuel with
  | O => outOfFuel
  | S n =>
      let* c := ev cond scope in
      if isNotFalse c then
        let* _ := ev body scope in whileLoop n cond body scope
      else ret (VBool false)
  end.

Definition specialFormWhile (args : list expr) (scope : loc) : M value :=
  match args with
  | [arg0; arg1] => whileLoop loopFuel arg0 arg1 scope
  | _ => throw whileArity
  end.

Fixpoint doLoop (args : list expr) (scope : loc) (val : value) : M value :=
  match args with
  | [] => ret val
  | arg :: rest => let* v := ev arg scope in doLoop rest scope v
  end.

Definition specialFormDo (args : list expr) (scope : loc) : M value :=
  doLoop args scope (VBool false).

Definition specialFormDefine (args : list expr) (scope : loc) : M value :=
  match args with
  | [ValidIdentifier name; arg1] =>
      let* v := ev arg1 scope in
      fun st => (Ok v, setProperty scope name v st)
  | _ => throw badDefine
  end.

(** The [map] over the parameter expressions; [None] when the callback
    throws. *)
Fixpoint parameterNames (es : list expr) : option (list jsstring) :=
  match es with
  | [] => Some []
  | ValidIdentifier name :: rest =>
      match parameterNames rest with
      | Some names => Some (name :: names)
      | None => None
      end
  | _ :: _ => None
  end.

Definition specialFormFun (args : list expr) (scope : loc) : M value :=
  match last args with
  | None => throw noBody
  | Some body =>
      match parameterNames (take (length args - 1) args) with
      | Some params => ret (VClosure params body scope)
      | None => throw badParameter
      end
  end.

Definition specialForms (f : form) : list expr -> loc -> M value :=
  match f with
  | If => specialFormIf
  | While => specialFormWhile
  | Do => specialFormDo
  | Define => specialFormDefine
  | Fun => specialFormFun
  end.

(** The loop [localScope[params[i]] = arguments[i]]. *)
Definition bindParameters (l : loc) (params : list jsstring)
  (args : list value) (st : state) : state :=
  foldl (fun s pa => setProperty l pa.1 pa.2 s) st (zip params args).

(** Calling a function value with the evaluated arguments. *)
Definition callFunction (f : value) (args : list value) : M value :=
  match f with
  | VBuiltin b => callBuiltin b args
  | VClosure params body scope =>
      if negb (length args =? length params) then throw wrongArity
      else
        fun st =>
          let '(localScope, st1) := objectCreate scope st in
          ev body localScope (bindParameters localScope params args st1)
  | _ => throw notAFunction
  end.

Definition evaluateStep (e : expr) (scope : loc) : M value :=
  match e with
  | Value l => lift (literalValue l)
  | ValidIdentifier name =>
      fun st =>
        match resolve (heap st) scope name with
        | Some v => (Ok v, st)
        | None => (Throw (undefinedBinding name), st)
        end
  | Apply operator args =>
      match specialFormOf operator with
      | Some f => specialForms f args scope
      | None =>
          let* op := ev operator scope in
          if isFunction op then
            let* vs := evaluateArgs args scope in
            callFunction op vs
          else throw notAFunction
      end
  end.

End Evaluator.

Fixpoint evaluate (fuel : nat) : expr -> loc -> M value :=
  match fuel with
  | O => fun _ _ => outOfFuel
  | S n => evaluateStep (evaluate n) n
  end.

(** [evaluate(parse(program), Object.create(topScope))]. *)
Definition run (fuel : nat) (program : jsstring) : M value :=
  fun st =>
    match parse program with
    | Ok e =>
        let '(scope, st1) := objectCreate TOP st in
        evaluate fuel e scope st1
    | Throw err => (Throw err, st)
    | Unmodelled => (Unmodelled, st)
    | OutOfFuel => (OutOfFuel, st)
    end.

(** Evaluation that finishes: some amount of fuel gives the result. *)
Definition evaluates (e : expr) (scope : loc) (st : state)
  (r : outcome value) (st' : state) : Prop :=
  exists fuel, evaluate fuel e scope st = (r, st') /\ r <> OutOfFuel.

(** The arguments of a call evaluated from left to right, each one in the
    state its predecessor left. *)
Inductive argumentsEvaluate (scope : loc)
  : list expr -> state -> list value -> state -> Prop :=
| arguments_nil st : argumentsEvaluate scope [] st [] st
| arguments_cons arg rest st v st1 vs st2 :
    evaluates arg scope st (Ok v) st1 ->
    argumentsEvaluate scope rest st1 vs st2 ->
    argumentsEvaluate scope (arg :: rest) st (v :: vs) st2.

(** A call of a function value that finishes. *)
Definition calls (f : value) (args : list value) (st : state)
  (r : outcome value) (st' : state) : Prop :=
  exists fuel, callFunction (evaluate fuel) f args st = (r, st') /\ r <> OutOfFuel.

(** The binding loop of a call seen from the local scope object: the
    assignments of the loop, in order, on one object. *)
Definition bindOwn (pairs : list (jsstring * value)) (o : scopeObject)
  : scopeObject :=
  foldl (fun o pa => setOwn pa.1 pa.2 o) o pairs.

(** ** Where closures point

    [closuresWithin k n v]: every closure in [v], also inside arrays, has
    captured a scope with an index from [k] up to, not including, [n]. *)
Fixpoint closuresWithin (k n : nat) (v : value) : bool :=
  match v with
  | VClosure _ _ scope => (k <=? scope) && (scope <? n)
  | VArray values => forallb (closuresWithin k n) values
  | _ => true
  end.

(** A scope object at index [l] made while a program runs in the child
    scope [k] of the root: its values hold closures of that run only, and
    its prototype is the root for the child itself, and otherwise an older
    scope of the same run. *)
Definition objectWithin (k n l : nat) (o : scopeObject) : Prop :=
  (forall name v, bindings o !! name = Some v -> closuresWithin k n v = true) /\
  (proto o = Some TOP /\ l = k \/ exists p, proto o = Some p /\ k <= p < l).

Definition runInvariant (k : nat) (st : state) : Prop :=
  0 < k <= length (heap st) /\
  heap st !! TOP = Some topScope /\
  forall l o, k <= l -> heap st !! l = Some o ->
    objectWithin k (length (heap st)) l o.

(** What a step may change: the heap only grows, and the objects below
    index [k] stay as they are. *)
Definition frame (k : nat) (st st' : state) : Prop :=
  length (heap st) <= length (heap st') /\
  forall l, l < k -> heap st' !! l = heap st !! l.

(** ** Comparing computations by the fuel they need

    [mle m m']: whatever [m] finishes with, [m'] finishes with too. *)
Definition mle {A} (m m' : M A) : Prop :=
  forall st r st', m st = (r, st') -> r <> OutOfFuel -> m' st = (r, st').

Definition evle (ev ev' : expr -> loc -> M value) : Prop :=
  forall e scope, mle (ev e scope) (ev' e scope).

Definition okValue (k n : nat) (v : value) : Prop :=
  closuresWithin k n v = true.

Definition okValues (k n : nat) (vs : list value) : Prop :=
  forallb (closuresWithin k n) vs = true.

(** A computation started in a state that satisfies the invariant, with
    at least [n0] objects on the heap, ends in a state that satisfies it,
    within the frame, with a result that is fine for the final heap. *)
Definition post {A} (k : nat) (okA : nat -> A -> Prop)
  (st : state) (r : outcome A) (st' : state) : Prop :=
  runInvariant k st' /\ frame k st st' /\
  forall a, r = Ok a -> okA (length (heap st')) a.

Definition sound {A} (k n0 : nat) (okA : nat -> A -> Prop) (m : M A) : Prop :=
  forall st r st',
    runInvariant k st -> n0 <= length (heap st) -> m st = (r, st') ->
    post k okA st r st'.

Definition keeps (k : nat) (ev : expr -> loc -> M value) : Prop :=
  forall e scope n0, k <= scope < n0 -> sound k n0 (okValue k) (ev e scope).

(** ** The frame rule for the root as the specification words it

    For every program, a run leaves the root as it was.  The state a run
    of the embedding ends in is the state the interpreter ends in only
    when the run has not ended [Unmodelled]: there the program has
    reached a host operation, and what follows is decided by the host.
    The rule for every program therefore includes that no run ends so. *)
Definition rootRuleAsSpecified (program : jsstring) : Prop :=
  forall fuel st r st',
    heap st !! TOP = Some topScope ->
    run fuel program st = (r, st') ->
    r <> Unmodelled /\ heap st' !! TOP = Some topScope.

(** A program that reads the property constructor of the function print,
    which is the host's Function, makes with it a host function that
    replaces Object.create by Object.getPrototypeOf, and calls it; the
    closure called next then gets the root itself as its local scope and
    binds its parameter true there. *)
Definition rootEscape : jsstring :=
  js "do(element(print, " ++ QUOTE :: js "constructor" ++ QUOTE :: js ")("
  ++ QUOTE :: js "Object.create = Object.getPrototypeOf" ++ QUOTE
  :: js ")(), fun(true, 0)(5))".


(** ** Shapes of syntax trees and of state changes *)

(** The trees the parser builds: a number literal is not negative, a
    string literal holds no double quote, and a name is a nonempty run of
    identifier code units. *)
Fixpoint wellFormed (e : expr) : bool :=
  match e with
  | Value (LNum n) => (0 <=? n)%Z
  | Value (LStr s) => forallb notQuote s
  | Value LInfinity => true
  | ValidIdentifier name =>
      negb (bool_decide (name = [])) && forallb isIdentChar name
  | Apply operator args => wellFormed operator && forallb wellFormed args
  end.

(** The parser throws nothing but syntax errors. *)
Definition okOrSyntaxError {A} (r : outcome A) : Prop :=
  match r with
  | Ok _ => True
  | Throw (SyntaxError _) => True
  | _ => False
  end.

(** An outcome that is not a value, at another result type. *)
Definition failureOf {A B} (r : outcome A) : outcome B :=
  match r with
  | Ok _ => Unmodelled
  | Throw e => Throw e
  | Unmodelled => Unmodelled
  | OutOfFuel => OutOfFuel
  end.

Definition isFailure {A} (r : outcome A) : Prop :=
  forall a, r <> Ok a.

(** [extends st st']: what is printed is kept and only added to at the
    end, every scope object is still there with its prototype, and every
    name it bound is still bound. *)
Definition extends (st st' : state) : Prop :=
  output st `prefix_of` output st' /\
  length (heap st) <= length (heap st') /\
  forall l o, heap st !! l = Some o ->
    exists o', heap st' !! l = Some o' /\ proto o' = proto o /\
      forall name, is_Some (bindings o !! name) ->
                   is_Some (bindings o' !! name).

Definition grows {A} (m : M A) : Prop :=
  forall st r st', m st = (r, st') -> extends st st'.

(** ** Programs without loops and functions *)

(** The nesting depth of a tree: the fuel its evaluation needs when no
    closure is called and no loop is run. *)
Fixpoint depth (e : expr) : nat :=
  match e with
  | Apply operator args =>
      S (foldr (fun arg d => Nat.max (depth arg) d) (depth operator) args)
  | _ => 1
  end.

(** No application in the tree has the bare name while or fun as its
    operator. *)
Fixpoint loopFree (e : expr) : bool :=
  match e with
  | Apply operator args =>
      match specialFormOf operator with
      | Some While | Some Fun => false
      | _ => loopFree operator && forallb loopFree args
      end
  | _ => true
  end.

(** No closure in the value; [closuresWithin] with an empty range. *)
Definition closureFree (v : value) : Prop := closuresWithin 1 0 v = true.

Definition closureFreeState (st : state) : Prop :=
  forall l o name v,
    heap st !! l = Some o -> bindings o !! name = Some v -> closureFree v.

(** A computation that, from a state without closures, finishes in a
    state without closures with a result that is fine. *)
Definition settles {A} (okA : A -> Prop) (m : M A) : Prop :=
  forall st r st',
    closureFreeState st -> m st = (r, st') ->
    r <> OutOfFuel /\ closureFreeState st' /\ forall a, r = Ok a -> okA a.
(** ** Facts about the lexical helpers *)

Lemma span_spec p s a b :
  span p s = (a, b) ->
  s = a ++ b /\ forallb p a = true /\
  match b with [] => True | c :: _ => p c = false end.
Proof.
  revert a b. induction s as [|c t IH]; intros a b; simpl.
  - intros [= <- <-]. auto.
  - destruct (p c) eqn:Hc.
    + destruct (span p t) as [a' b'] eqn:Ht. intros [= <- <-].
      destruct (IH _ _ eq_refl) as (-> & Ha & Hb).
      simpl. rewrite Hc. auto.
    + intros [= <- <-]. simpl. auto.
Qed.

Lemma span_length p s a b :
  span p s = (a, b) -> length s = length a + length b.
Proof.
  intros H. apply span_spec in H as (-> & _ & _). apply length_app.
Qed.

Lemma skipSpace_length s : length (skipSpace s) <= length s.
Proof.
  induction s as [|c t IH]; simpl; [lia|].
  destruct (isSpace c); simpl; lia.
Qed.

Lemma skipSpace_idem s : skipSpace (skipSpace s) = skipSpace s.
Proof.
  induction s as [|c t IH]; simpl; [done|].
  destruct (isSpace c) eqn:Hc; [done|]. simpl. by rewrite Hc.
Qed.

Lemma startsWith_cons c s :
  startsWith c s = true -> exists t, s = c :: t.
Proof.
  destruct s as [|d t]; simpl; [done|].
  intros H%N.eqb_eq. subst. eauto.
Qed.

Lemma startsWith_same c t : startsWith c (c :: t) = true.
Proof. apply N.eqb_refl. Qed.

Lemma matchString_length p s rest :
  matchString p = Some (s, rest) -> length rest < length p.
Proof.
  unfold matchString. destruct (startsWith QUOTE p) eqn:Hq; [|done].
  apply startsWith_cons in Hq as [t ->]. simpl. rewrite drop_0.
  destruct (span notQuote t) as [a b] eqn:Hs.
  destruct (startsWith QUOTE b) eqn:Hb; [|done].
  intros [= <- <-]. apply span_length in Hs.
  apply startsWith_cons in Hb as [u ->]. simpl in *. rewrite drop_0. lia.
Qed.

Lemma matchNumber_length p ds rest :
  matchNumber p = Some (ds, rest) -> length rest < length p.
Proof.
  unfold matchNumber. destruct (span isDigit p) as [a b] eqn:Hs.
  apply span_length in Hs. destruct a as [|d a]; [done|].
  destruct b as [|c b]; [|destruct (isWord c); [done|]];
    intros [= <- <-]; simpl in *; lia.
Qed.

Lemma matchIdentifier_length p name rest :
  matchIdentifier p = Some (name, rest) -> length rest < length p.
Proof.
  unfold matchIdentifier. destruct (span isIdentChar p) as [a b] eqn:Hs.
  apply span_length in Hs. destruct a as [|d a]; [done|].
  intros [= <- <-]; simpl in *; lia.
Qed.

Lemma matchAtom_length p e rest :
  matchAtom p = Some (e, rest) -> length rest < length p.
Proof.
  unfold matchAtom.
  destruct (matchString p) as [[s r]|] eqn:H1.
  { intros [= <- <-]. eauto using matchString_length. }
  destruct (matchNumber p) as [[ds r]|] eqn:H2.
  { intros [= <- <-]. eauto using matchNumber_length. }
  destruct (matchIdentifier p) as [[nm r]|] eqn:H3; [|done].
  intros [= <- <-]. eauto using matchIdentifier_length.
Qed.

Example parse_sample :
  parse (js "do(define(x, array(1, 2)), print(x))") =
  Ok (Apply (ValidIdentifier (js "do"))
        [Apply (ValidIdentifier (js "define"))
           [ValidIdentifier (js "x");
            Apply (ValidIdentifier (js "array")) [Value (LNum 1); Value (LNum 2)]];
         Apply (ValidIdentifier (js "print")) [ValidIdentifier (js "x")]]).
Proof. vm_compute. reflexivity. Qed.


(** ** Fuel: monotonicity, consumption of the text, and totality *)


Lemma parse_fuel_facts n :
  (forall p r, parseExpression n p = r -> finished r ->
     (forall m, n <= m -> parseExpression m p = r) /\
     (forall e rest, r = Ok (e, rest) -> length rest < length p)) /\
  (forall e p r, parseApply n e p = r -> finished r ->
     (forall m, n <= m -> parseApply m e p = r) /\
     (forall e' rest, r = Ok (e', rest) -> length rest <= length p)) /\
  (forall p args r, parseArgs n p args = r -> finished r ->
     (forall m, n <= m -> parseArgs m p args = r) /\
     (forall args' p', r = Ok (args', p') ->
        length p' <= length p /\ startsWith RPAREN p' = true)).
Proof.
  induction n as [|n (IHe & IHa & IHl)].
  { repeat split; intros; simpl in *; subst; unfold finished in *; congruence. }
  split; [|split].
  - intros p r Hr Hfin. simpl in Hr.
    destruct (matchAtom (skipSpace p)) as [[e rest]|] eqn:Hm.
    + destruct (IHa _ _ _ Hr Hfin) as [Hmono Hlen].
      pose proof (matchAtom_length _ _ _ Hm). pose proof (skipSpace_length p).
      split.
      * intros [|m] Hle; [lia|]. simpl. rewrite Hm. apply Hmono. lia.
      * intros e' rest' ->. specialize (Hlen _ _ eq_refl). lia.
    + subst r. split; [|done].
      intros [|m] Hle; [lia|]. simpl. by rewrite Hm.
  - intros e p r Hr Hfin. simpl in Hr.
    destruct (negb (startsWith LPAREN (skipSpace p))) eqn:Hp.
    + subst r. pose proof (skipSpace_length p). split.
      * intros [|m] Hle; [lia|]. simpl. by rewrite Hp.
      * by intros e' rest' [= <- <-].
    + destruct (parseArgs n (skipSpace (drop 1 (skipSpace p))) [])
        as [[args p2]| | |] eqn:Hargs; try (subst r; by destruct Hfin).
      * destruct (IHl _ _ _ Hargs ltac:(done)) as [Hmono1 Hlen1].
        destruct (IHa _ _ _ Hr Hfin) as [Hmono2 Hlen2].
        destruct (Hlen1 _ _ eq_refl) as [Hl1 _].
        pose proof (skipSpace_length p).
        pose proof (skipSpace_length (drop 1 (skipSpace p))).
        pose proof (length_drop (skipSpace p) 1).
        pose proof (length_drop p2 1).
        split.
        -- intros [|m] Hle; [lia|]. simpl. rewrite Hp.
           rewrite (Hmono1 m) by lia. apply Hmono2. lia.
        -- intros e' rest' ->. specialize (Hlen2 _ _ eq_refl). lia.
      * subst r. destruct (IHl _ _ _ Hargs ltac:(done)) as [Hmono1 _].
        split; [|done].
        intros [|m] Hle; [lia|]. simpl. rewrite Hp.
        by rewrite (Hmono1 m) by lia.
      * subst r. destruct (IHl _ _ _ Hargs ltac:(done)) as [Hmono1 _].
        split; [|done].
        intros [|m] Hle; [lia|]. simpl. rewrite Hp.
        by rewrite (Hmono1 m) by lia.
  - intros p args r Hr Hfin. simpl in Hr.
    destruct (startsWith RPAREN p) eqn:Hp.
    + subst r. split.
      * intros [|m] Hle; [lia|]. simpl. by rewrite Hp.
      * by intros args' p' [= <- <-].
    + destruct (parseExpression n p) as [[arg rest]| | |] eqn:Harg;
        try (subst r; by destruct Hfin).
      * destruct (IHe _ _ Harg ltac:(done)) as [Hmono1 Hlen1].
        specialize (Hlen1 _ _ eq_refl).
        pose proof (skipSpace_length rest).
        destruct (startsWith COMMA (skipSpace rest)) eqn:Hc.
        -- destruct (IHl _ _ _ Hr Hfin) as [Hmono2 Hlen2].
           pose proof (skipSpace_length (drop 1 (skipSpace rest))).
           pose proof (length_drop (skipSpace rest) 1).
           split.
           ++ intros [|m] Hle; [lia|]. simpl. rewrite Hp.
              rewrite (Hmono1 m) by lia. rewrite Hc. apply Hmono2. lia.
           ++ intros args' p' ->. destruct (Hlen2 _ _ eq_refl). split; [lia|done].
        -- destruct (negb (startsWith RPAREN (skipSpace rest))) eqn:Hrp.
           ++ subst r. split; [|done].
              intros [|m] Hle; [lia|]. simpl. rewrite Hp.
              rewrite (Hmono1 m) by lia. by rewrite Hc, Hrp.
           ++ destruct (IHl _ _ _ Hr Hfin) as [Hmono2 Hlen2].
              split.
              ** intros [|m] Hle; [lia|]. simpl. rewrite Hp.
                 rewrite (Hmono1 m) by lia. rewrite Hc, Hrp. apply Hmono2. lia.
              ** intros args' p' ->. destruct (Hlen2 _ _ eq_refl). split; [lia|done].
      * subst r. destruct (IHe _ _ Harg ltac:(done)) as [Hmono1 _].
        split; [|done].
        intros [|m] Hle; [lia|]. simpl. rewrite Hp.
        by rewrite (Hmono1 m) by lia.
      * subst r. destruct (IHe _ _ Harg ltac:(done)) as [Hmono1 _].
        split; [|done].
        intros [|m] Hle; [lia|]. simpl. rewrite Hp.
        by rewrite (Hmono1 m) by lia.
Qed.

Lemma parse_fuel_enough n :
  (forall p, 3 * length p + 2 <= n -> finished (parseExpression n p)) /\
  (forall e p, 3 * length p + 1 <= n -> finished (parseApply n e p)) /\
  (forall p args, 3 * length p + 3 <= n -> finished (parseArgs n p args)).
Proof.
  induction n as [|n (IHe & IHa & IHl)].
  { repeat split; intros; lia. }
  split; [|split].
  - intros p Hn. simpl.
    destruct (matchAtom (skipSpace p)) as [[e rest]|] eqn:Hm; [|done].
    pose proof (matchAtom_length _ _ _ Hm). pose proof (skipSpace_length p).
    apply IHa. lia.
  - intros e p Hn. simpl.
    destruct (negb (startsWith LPAREN (skipSpace p))) eqn:Hp; [done|].
    apply negb_false_iff, startsWith_cons in Hp as [t Ht].
    pose proof (skipSpace_length p) as Hlen. rewrite Ht in *. simpl in *.
    rewrite drop_0.
    pose proof (skipSpace_length t).
    assert (finished (parseArgs n (skipSpace t) [])) as Hfin by (apply IHl; lia).
    destruct (parseArgs n (skipSpace t) []) as [[args p2]| | |] eqn:Hargs;
      try done.
    destruct (parse_fuel_facts n) as (_ & _ & Hl).
    destruct (Hl _ _ _ Hargs Hfin) as [_ Hlen2].
    destruct (Hlen2 _ _ eq_refl) as [Hle _].
    pose proof (length_drop p2 1). apply IHa. lia.
  - intros p args Hn. simpl.
    destruct (startsWith RPAREN p) eqn:Hp; [done|].
    assert (finished (parseExpression n p)) as Hfin by (apply IHe; lia).
    destruct (parseExpression n p) as [[arg rest]| | |] eqn:Harg; try done.
    destruct (parse_fuel_facts n) as (He & _ & _).
    destruct (He _ _ Harg Hfin) as [_ Hlen]. specialize (Hlen _ _ eq_refl).
    pose proof (skipSpace_length rest).
    destruct (startsWith COMMA (skipSpace rest)) eqn:Hc.
    + pose proof (skipSpace_length (drop 1 (skipSpace rest))).
      pose proof (length_drop (skipSpace rest) 1). apply IHl. lia.
    + destruct (negb (startsWith RPAREN (skipSpace rest))); [done|].
      apply IHl. lia.
Qed.

(** The parser is total: the fuel-free functions always finish, and any
    larger amount of fuel gives the same answer. *)
Lemma parseExpr_finished p : finished (parseExpr p).
Proof. apply parse_fuel_enough. unfold parseFuel. lia. Qed.

Lemma parseApp_finished e p : finished (parseApp e p).
Proof. apply parse_fuel_enough. unfold parseFuel. lia. Qed.

Lemma parseArguments_finished p args : finished (parseArguments p args).
Proof. apply parse_fuel_enough. unfold parseFuel. lia. Qed.

Lemma parseExpression_enough n p :
  3 * length p + 2 <= n -> parseExpression n p = parseExpr p.
Proof.
  intros Hn. pose proof (proj1 (parse_fuel_enough n) p Hn) as Hfin.
  destruct (le_ge_dec n (parseFuel p)) as [Hle|Hge].
  - symmetry. eapply (proj1 (parse_fuel_facts n)); eauto.
  - eapply (proj1 (parse_fuel_facts (parseFuel p))); eauto using parseExpr_finished.
Qed.

Lemma parseApply_enough n e p :
  3 * length p + 1 <= n -> parseApply n e p = parseApp e p.
Proof.
  intros Hn. pose proof (proj1 (proj2 (parse_fuel_enough n)) e p Hn) as Hfin.
  destruct (le_ge_dec n (parseFuel p)) as [Hle|Hge].
  - symmetry. eapply (proj1 (proj2 (parse_fuel_facts n))); eauto.
  - eapply (proj1 (proj2 (parse_fuel_facts (parseFuel p))));
      eauto using parseApp_finished.
Qed.

Lemma parseArgs_enough n p args :
  3 * length p + 3 <= n -> parseArgs n p args = parseArguments p args.
Proof.
  intros Hn. pose proof (proj2 (proj2 (parse_fuel_enough n)) p args Hn) as Hfin.
  destruct (le_ge_dec n (parseFuel p)) as [Hle|Hge].
  - symmetry. eapply (proj2 (proj2 (parse_fuel_facts n))); eauto.
  - eapply (proj2 (proj2 (parse_fuel_facts (parseFuel p))));
      eauto using parseArguments_finished.
Qed.

(** ** The source text of the three parser functions, as equations *)

Lemma parseExpr_eq program :
  parseExpr program =
  match matchAtom (skipSpace program) with
  | Some (e, rest) => parseApp e rest
  | None => Throw (unexpectedSyntax (skipSpace program))
  end.
Proof.
  unfold parseExpr, parseFuel.
  replace (3 * length program + 3) with (S (3 * length program + 2)) by lia.
  simpl. destruct (matchAtom (skipSpace program)) as [[e rest]|] eqn:Hm; [|done].
  pose proof (matchAtom_length _ _ _ Hm). pose proof (skipSpace_length program).
  apply parseApply_enough. lia.
Qed.

Lemma parseApp_eq e program :
  parseApp e program =
  if negb (startsWith LPAREN (skipSpace program)) then Ok (e, skipSpace program)
  else
    match parseArguments (skipSpace (drop 1 (skipSpace program))) [] with
    | Ok (args, program') => parseApp (Apply e args) (drop 1 program')
    | Throw err => Throw err
    | Unmodelled => Unmodelled
    | OutOfFuel => OutOfFuel
    end.
Proof.
  unfold parseApp at 1. unfold parseFuel.
  replace (3 * length program + 3) with (S (3 * length program + 2)) by lia.
  simpl. destruct (negb (startsWith LPAREN (skipSpace program))) eqn:Hp; [done|].
  apply negb_false_iff, startsWith_cons in Hp as [t Ht].
  pose proof (skipSpace_length program) as Hlen. rewrite Ht in *. simpl in *.
  rewrite drop_0. pose proof (skipSpace_length t).
  rewrite parseArgs_enough by lia.
  destruct (parseArguments (skipSpace t) []) as [[args p2]| | |] eqn:Hargs;
    try done.
  destruct (parse_fuel_facts (parseFuel (skipSpace t))) as (_ & _ & Hl).
  destruct (Hl _ _ _ Hargs ltac:(done)) as [_ Hlen2].
  destruct (Hlen2 _ _ eq_refl) as [Hle _].
  pose proof (length_drop p2 1). apply parseApply_enough. lia.
Qed.

Lemma parseArguments_eq program args :
  parseArguments program args =
  if startsWith RPAREN program then Ok (args, program)
  else
    match parseExpr program with
    | Ok (arg, rest) =>
        if startsWith COMMA (skipSpace rest) then
          parseArguments (skipSpace (drop 1 (skipSpace rest))) (args ++ [arg])
        else if negb (startsWith RPAREN (skipSpace rest)) then
          Throw expectedCommaOrParen
        else parseArguments (skipSpace rest) (args ++ [arg])
    | Throw err => Throw err
    | Unmodelled => Unmodelled
    | OutOfFuel => OutOfFuel
    end.
Proof.
  unfold parseArguments at 1. unfold parseFuel.
  replace (3 * length program + 3) with (S (3 * length program + 2)) by lia.
  simpl. destruct (startsWith RPAREN program) eqn:Hp; [done|].
  rewrite parseExpression_enough by lia.
  destruct (parseExpr program) as [[arg rest]| | |] eqn:Harg; try done.
  destruct (parse_fuel_facts (parseFuel program)) as (He & _ & _).
  destruct (He _ _ Harg ltac:(done)) as [_ Hlen]. specialize (Hlen _ _ eq_refl).
  pose proof (skipSpace_length rest).
  destruct (startsWith COMMA (skipSpace rest)) eqn:Hc.
  - pose proof (skipSpace_length (drop 1 (skipSpace rest))).
    pose proof (length_drop (skipSpace rest) 1). apply parseArgs_enough. lia.
  - destruct (negb (startsWith RPAREN (skipSpace rest))); [done|].
    apply parseArgs_enough. lia.
Qed.

(** ** Tokens *)

Lemma span_app p a b :
  forallb p a = true ->
  match b with [] => True | c :: _ => p c = false end ->
  span p (a ++ b) = (a, b).
Proof.
  intros Ha Hb. induction a as [|c a IH]; simpl in *.
  - destruct b as [|c b]; [done|]. simpl. by rewrite Hb.
  - apply andb_true_iff in Ha as [Hc Ha]. rewrite Hc, IH; done.
Qed.

Lemma decimalValue_snoc ds d :
  decimalValue (ds ++ [d]) = (10 * decimalValue ds + digitValue d)%Z.
Proof. unfold decimalValue. by rewrite foldl_snoc. Qed.

Lemma decimalValue_fold_nonneg ds acc :
  (0 <= acc)%Z ->
  (0 <= foldl (fun acc d => 10 * acc + digitValue d) acc ds)%Z.
Proof.
  revert acc. induction ds as [|d ds IH]; intros acc Hacc; simpl; [done|].
  apply IH. unfold digitValue. lia.
Qed.

Lemma decimalValue_nonneg ds : (0 <= decimalValue ds)%Z.
Proof. by apply decimalValue_fold_nonneg. Qed.

(** ** Rounding to a double *)

Lemma roundToDouble_exact n : (n <= 2 ^ 53)%Z -> roundToDouble n = LNum n.
Proof.
  intros Hn. unfold roundToDouble.
  by destruct (Z.leb_spec n (2 ^ 53)); [|lia].
Qed.

(** Above 2^53 the result, when finite, is a multiple of the last place
    with a significand of 53 bits, and it is at most half a last place
    away from the integer: no double is nearer. *)
Lemma roundToDouble_nearest n m :
  (2 ^ 53 < n)%Z ->
  roundToDouble n = LNum m ->
  (exists q, m = q * 2 ^ (Z.log2 n - 52) /\ 2 ^ 52 <= q <= 2 ^ 53)%Z /\
  (2 * Z.abs (m - n) <= 2 ^ (Z.log2 n - 52))%Z.
Proof.
  intros Hn. unfold roundToDouble.
  destruct (Z.leb_spec n (2 ^ 53)) as [|_]; [lia|].
  assert (53 <= Z.log2 n)%Z as Hlog.
  { rewrite <- (Z.log2_pow2 53) by lia. apply Z.log2_le_mono. lia. }
  destruct (Z.log2_spec n ltac:(lia)) as [Hlo Hhi].
  set (e := (Z.log2 n - 52)%Z) in *.
  assert (2 ^ Z.log2 n = 2 ^ 52 * 2 ^ e)%Z as Hsplit.
  { rewrite <- Z.pow_add_r by lia. f_equal. lia. }
  assert (2 ^ Z.succ (Z.log2 n) = 2 ^ 53 * 2 ^ e)%Z as Hsplit'.
  { rewrite <- Z.pow_add_r by lia. f_equal. lia. }
  assert (2 ^ e = 2 * 2 ^ (e - 1))%Z as Hhalf.
  { rewrite <- (Z.pow_succ_r 2 (e - 1)) by lia. f_equal. lia. }
  assert (0 < 2 ^ (e - 1))%Z as Hpos by (apply Z.pow_pos_nonneg; lia).
  pose proof (Z.div_mod n (2 ^ e) ltac:(lia)) as Hdm.
  pose proof (Z.mod_pos_bound n (2 ^ e) ltac:(lia)) as Hr.
  rewrite Hsplit in Hlo. rewrite Hsplit' in Hhi.
  revert Hdm Hr Hlo Hhi Hhalf Hpos.
  generalize (2 ^ (e - 1))%Z (2 ^ e)%Z (n mod 2 ^ e)%Z (n / 2 ^ e)%Z.
  intros h P r q Hdm Hr Hlo Hhi Hhalf Hpos.
  assert (2 ^ 52 <= q < 2 ^ 53)%Z as Hq.
  { split.
    - destruct (Z.lt_ge_cases q (2 ^ 52)) as [Hlt|]; [exfalso|done].
      assert (P * (q + 1) <= P * 2 ^ 52)%Z
        by (apply Z.mul_le_mono_nonneg_l; lia).
      lia.
    - destruct (Z.lt_ge_cases q (2 ^ 53)) as [|Hge]; [done|exfalso].
      assert (P * 2 ^ 53 <= P * q)%Z
        by (apply Z.mul_le_mono_nonneg_l; lia).
      lia. }
  assert (forall q',
            (q' = q /\ r <= h \/ q' = q + 1 /\ h <= r)%Z ->
            (if (q' * P <? 2 ^ 1024)%Z then LNum (q' * P) else LInfinity)
            = LNum m ->
            (exists q0, m = q0 * P /\ 2 ^ 52 <= q0 <= 2 ^ 53)%Z /\
            (2 * Z.abs (m - n) <= P)%Z) as Hcase.
  { intros q' Hq' Hm. destruct (q' * P <? 2 ^ 1024)%Z; [|done].
    injection Hm as <-. split; [exists q'; lia|].
    destruct Hq' as [[-> Hrh]|[-> Hrh]]; lia. }
  destruct (Z.ltb_spec r h); [apply Hcase; left; lia|].
  destruct (Z.ltb_spec h r); [apply Hcase; right; lia|].
  destruct (Z.even q); apply Hcase; [left|right]; lia.
Qed.

Lemma roundToDouble_nonneg n m :
  (0 <= n)%Z -> roundToDouble n = LNum m -> (0 <= m)%Z.
Proof.
  intros Hn Hm. destruct (Z.le_gt_cases n (2 ^ 53)) as [Hle|Hgt].
  - rewrite roundToDouble_exact in Hm by done. by injection Hm as <-.
  - destruct (roundToDouble_nearest n m ltac:(lia) Hm) as [(q & -> & Hq) _].
    apply Z.mul_nonneg_nonneg; [lia|]. apply Z.pow_nonneg. lia.
Qed.

Lemma roundToDouble_number n : forall s, roundToDouble n <> LStr s.
Proof.
  intros s. unfold roundToDouble. by repeat case_match.
Qed.

Lemma isDigit_isWord c : isDigit c = true -> isWord c = true.
Proof. unfold isWord. by intros ->. Qed.

Lemma isWord_isIdentChar c : isWord c = true -> isIdentChar c = true.
Proof.
  unfold isWord, isDigit, isIdentChar, isSpace, between,
    LPAREN, RPAREN, COMMA, HASH, QUOTE.
  rewrite negb_true_iff, !orb_true_iff, !orb_false_iff, !andb_true_iff,
    !andb_false_iff, !N.leb_le, !N.leb_gt, !N.eqb_eq, !N.eqb_neq.
  lia.
Qed.

Lemma isDigit_isIdentChar c : isDigit c = true -> isIdentChar c = true.
Proof. intros H. by apply isWord_isIdentChar, isDigit_isWord. Qed.

Lemma isDigit_not_quote c : isDigit c = true -> (c =? QUOTE)%N = false.
Proof.
  unfold isDigit, between, QUOTE. intros [H1 H2]%andb_true_iff.
  apply N.leb_le in H1. apply N.eqb_neq. lia.
Qed.

Lemma matchNumber_digits digits rest :
  digits <> [] ->
  forallb isDigit digits = true ->
  match rest with [] => True | c :: _ => isWord c = false end ->
  matchNumber (digits ++ rest) = Some (digits, rest).
Proof.
  intros Hne Hd Hrest. unfold matchNumber.
  rewrite span_app; [|done|].
  - destruct digits as [|d ds]; [done|].
    destruct rest as [|c rest]; [done|]. by rewrite Hrest.
  - destruct rest as [|c rest]; [done|].
    destruct (isDigit c) eqn:Hc; [|done].
    apply isDigit_isWord in Hc. congruence.
Qed.

Lemma matchString_digit d ds : isDigit d = true -> matchString (d :: ds) = None.
Proof.
  intros Hd. unfold matchString. simpl. by rewrite (isDigit_not_quote d Hd).
Qed.

Lemma span_prefix p a b :
  forallb p a = true -> span p (a ++ b) = (a ++ (span p b).1, (span p b).2).
Proof.
  intros Ha. induction a as [|c a IH]; simpl in *.
  - by destruct (span p b).
  - apply andb_true_iff in Ha as [Hc Ha]. by rewrite Hc, IH.
Qed.

Lemma matchNumber_word digits c rest :
  digits <> [] ->
  forallb isDigit digits = true ->
  isDigit c = false -> isWord c = true ->
  matchNumber (digits ++ c :: rest) = None.
Proof.
  intros Hne Hd Hdc Hc. unfold matchNumber.
  rewrite span_app by done.
  destruct digits as [|d ds]; [done|]. by rewrite Hc.
Qed.

Lemma matchIdentifier_prefix name rest :
  name <> [] ->
  forallb isIdentChar name = true ->
  matchIdentifier (name ++ rest)
  = Some (name ++ (span isIdentChar rest).1, (span isIdentChar rest).2).
Proof.
  intros Hne Hname. unfold matchIdentifier. rewrite span_prefix by done.
  destruct name as [|x name]; [done|]. done.
Qed.

Lemma forallb_isDigit_isIdentChar ds :
  forallb isDigit ds = true -> forallb isIdentChar ds = true.
Proof.
  rewrite !forallb_forall. intros H c Hc. by apply isDigit_isIdentChar, H.
Qed.

(** C7, as amended: after the leading whitespace, a run of decimal digits
    followed by the end of the input or by a code unit that is not a word
    character (not a digit, an ASCII letter or an underscore) is read as a
    number literal, and parsing goes on with the application suffix after
    the digits.  The value of the literal is that of the host's Number on
    the digits: the integer they denote when that is at most 2^53, and
    otherwise, when finite, a double at most half a last place away from
    it.  A run of digits followed directly by a letter or an underscore is
    not read as a number: the number pattern fails, and the digits are the
    start of an identifier that goes on to the next code unit excluded
    from identifiers. *)
Theorem number_literal_token program digits rest :
  skipSpace program = digits ++ rest ->
  digits <> [] ->
  forallb isDigit digits = true ->
  (match rest with [] => True | c :: _ => isWord c = false end ->
   matchAtom (skipSpace program) = Some (Value (Number digits), rest) /\
   parseExpr program = parseApp (Value (Number digits)) rest) /\
  (match rest with
   | [] => False
   | c :: _ => isDigit c = false /\ isWord c = true
   end ->
   matchNumber (skipSpace program) = None /\
   exists name rest',
     span isIdentChar rest = (name, rest') /\ name <> [] /\
     matchAtom (skipSpace program)
     = Some (ValidIdentifier (digits ++ name), rest') /\
     parseExpr program = parseApp (ValidIdentifier (digits ++ name)) rest') /\
  ((decimalValue digits <= 2 ^ 53)%Z ->
   Number digits = LNum (decimalValue digits)) /\
  (forall m,
     (2 ^ 53 < decimalValue digits)%Z ->
     Number digits = LNum m ->
     (exists q, m = q * 2 ^ (Z.log2 (decimalValue digits) - 52)
                /\ 2 ^ 52 <= q <= 2 ^ 53)%Z /\
     (2 * Z.abs (m - decimalValue digits)
      <= 2 ^ (Z.log2 (decimalValue digits) - 52))%Z).
Proof.
  intros Hp Hne Hd.
  assert (matchString (digits ++ rest) = None) as Hstring.
  { destruct digits as [|d ds]; [done|]. simpl in Hd.
    apply andb_true_iff in Hd as [Hd _]. by apply matchString_digit. }
  split; [|split; [|split]].
  - intros Hrest.
    assert (matchAtom (skipSpace program)
            = Some (Value (Number digits), rest)) as Hatom.
    { rewrite Hp. unfold matchAtom.
      by rewrite Hstring, (matchNumber_digits _ _ Hne Hd Hrest). }
    split; [done|]. by rewrite parseExpr_eq, Hatom.
  - destruct rest as [|c rest0]; [done|]. intros [Hdc Hc].
    assert (matchNumber (digits ++ c :: rest0) = None) as Hnumber
      by by apply matchNumber_word.
    rewrite Hp. split; [done|].
    exists (span isIdentChar (c :: rest0)).1, (span isIdentChar (c :: rest0)).2.
    split; [by destruct (span isIdentChar (c :: rest0))|].
    split.
    { simpl. rewrite (isWord_isIdentChar c Hc).
      by destruct (span isIdentChar rest0). }
    assert (matchAtom (digits ++ c :: rest0)
            = Some (ValidIdentifier
                      (digits ++ (span isIdentChar (c :: rest0)).1),
                    (span isIdentChar (c :: rest0)).2)) as Hatom.
    { unfold matchAtom. rewrite Hstring, Hnumber.
      by rewrite matchIdentifier_prefix
        by auto using forallb_isDigit_isIdentChar. }
    split; [done|]. by rewrite parseExpr_eq, Hp, Hatom.
  - apply roundToDouble_exact.
  - intros m. apply roundToDouble_nearest.
Qed.

Lemma number_literal_token_witness :
  parseExpr (js "  42 ") = Ok (Value (LNum 42), []) /\
  parseExpr (js "007,") = Ok (Value (LNum 7), js ",") /\
  parseExpr (js "12_a+1 b") = Ok (ValidIdentifier (js "12_a+1"), js "b") /\
  Number (js "9007199254740992") = LNum 9007199254740992 /\
  (2 * Z.abs (9007199254740992 - decimalValue (js "9007199254740993"))
   <= 2 ^ (Z.log2 (decimalValue (js "9007199254740993")) - 52))%Z.
Proof.
  split; [|split; [|split; [|split]]].
  - rewrite (proj2 (proj1 (number_literal_token (js "  42 ") (js "42") (js " ")
               eq_refl ltac:(done) eq_refl) eq_refl)).
    vm_compute. reflexivity.
  - rewrite (proj2 (proj1 (number_literal_token (js "007,") (js "007") (js ",")
               eq_refl ltac:(done) eq_refl) eq_refl)).
    vm_compute. reflexivity.
  - destruct (proj1 (proj2 (number_literal_token (js "12_a+1 b") (js "12")
                (js "_a+1 b") eq_refl ltac:(done) eq_refl))
                (conj eq_refl eq_refl))
      as (_ & name & rest' & Hspan & _ & _ & Hparse).
    vm_compute in Hspan. injection Hspan as <- <-.
    rewrite Hparse. vm_compute. reflexivity.
  - apply (proj1 (proj2 (proj2 (number_literal_token (js "9007199254740992")
              (js "9007199254740992") [] eq_refl ltac:(done) eq_refl)))).
    vm_compute. discriminate.
  - apply (proj2 (proj2 (proj2 (number_literal_token
              (js "9007199254740993") (js "9007199254740993") []
              eq_refl ltac:(done) eq_refl))) 9007199254740992%Z);
      vm_compute; reflexivity.
Defined.

Example Number_rounds :
  Number (js "9007199254740993") = LNum 9007199254740992 /\
  Number (js "9007199254740995") = LNum 9007199254740996 /\
  Number (js "18014398509481985") = LNum 18014398509481984 /\
  Number (js "123456789012345678901234567890")
  = LNum 123456789012345677877719597056 /\
  roundToDouble (2 ^ 1024 - 2 ^ 970 - 1) = LNum (2 ^ 1024 - 2 ^ 971) /\
  roundToDouble (2 ^ 1024 - 2 ^ 970) = LInfinity /\
  Number (repeat 57%N 309) = LInfinity.
Proof. repeat split; vm_compute; reflexivity. Qed.

(** C7, as written, fails: in 12a the digits 1 2 are followed by the
    non-digit a, yet no number literal is read; the whole of 12a becomes
    an identifier. *)
Lemma number_rule_counterexample :
  ~ numberRuleAsSpecified (js "12a") /\
  parse (js "12a") = Ok (ValidIdentifier (js "12a")).
Proof.
  split; [|vm_compute; reflexivity].
  intros H.
  specialize (H (js "12") (js "a") eq_refl ltac:(done) eq_refl eq_refl).
  vm_compute in H. discriminate H.
Qed.

Lemma isIdentChar_excluded c :
  isIdentChar c = false <->
  isSpace c = true \/ c = LPAREN \/ c = RPAREN \/ c = COMMA \/ c = HASH
  \/ c = QUOTE.
Proof.
  unfold isIdentChar. rewrite negb_false_iff, !orb_true_iff, !N.eqb_eq. tauto.
Qed.

(** C8, as amended: the set excluded from identifiers is whitespace, the
    two parentheses, the comma, the hash sign and the double quote; when
    neither the string nor the number form matches, the longest prefix of
    code units outside that set, if it is not empty, is read as an
    identifier, and parsing goes on with the application suffix; if it is
    empty, the text is rejected as unexpected syntax. *)
Theorem identifier_token :
  (forall c,
     isIdentChar c = false <->
     isSpace c = true \/ c = LPAREN \/ c = RPAREN \/ c = COMMA \/ c = HASH
     \/ c = QUOTE) /\
  (forall program name rest,
     matchString (skipSpace program) = None ->
     matchNumber (skipSpace program) = None ->
     skipSpace program = name ++ rest ->
     name <> [] ->
     forallb isIdentChar name = true ->
     match rest with [] => True | c :: _ => isIdentChar c = false end ->
     matchAtom (skipSpace program) = Some (ValidIdentifier name, rest) /\
     parseExpr program = parseApp (ValidIdentifier name) rest) /\
  (forall program,
     matchString (skipSpace program) = None ->
     matchNumber (skipSpace program) = None ->
     match skipSpace program with
     | [] => True
     | c :: _ => isIdentChar c = false
     end ->
     parseExpr program = Throw (unexpectedSyntax (skipSpace program))).
Proof.
  split; [apply isIdentChar_excluded|]. split; cycle 1.
  { intros program Hs Hn Hhead. rewrite parseExpr_eq.
    unfold matchAtom, matchIdentifier. rewrite Hs, Hn.
    destruct (skipSpace program) as [|c t]; [done|].
    simpl. by rewrite Hhead. }
  intros program name rest Hs Hn Hp Hne Hname Hrest.
  assert (matchAtom (skipSpace program) = Some (ValidIdentifier name, rest))
    as Hatom.
  { unfold matchAtom. rewrite Hs, Hn. unfold matchIdentifier.
    rewrite Hp, span_app by done. by destruct name. }
  split; [done|]. by rewrite parseExpr_eq, Hatom.
Qed.

Lemma identifier_token_witness :
  parseExpr (js " x+y, z") = Ok (ValidIdentifier (js "x+y"), js ", z").
Proof.
  rewrite (proj2 (proj1 (proj2 identifier_token) (js " x+y, z") (js "x+y")
             (js ", z") eq_refl eq_refl eq_refl ltac:(done) eq_refl eq_refl)).
  vm_compute. reflexivity.
Defined.

(** C8, as written, fails: in the text a, double quote, b the longest
    prefix outside the specified set is the whole text, but the identifier
    read is a alone, and the quote that follows makes the program invalid. *)
Lemma identifier_rule_counterexample :
  ~ identifierRuleAsSpecified (js "a" ++ [QUOTE] ++ js "b") /\
  parseExpr (js "a" ++ [QUOTE] ++ js "b")
  = Ok (ValidIdentifier (js "a"), [QUOTE] ++ js "b") /\
  parse (js "a" ++ [QUOTE] ++ js "b")
  = Throw (unexpectedText ([QUOTE] ++ js "b")).
Proof.
  split; [|split; vm_compute; reflexivity].
  intros H.
  specialize (H eq_refl eq_refl (js "a" ++ [QUOTE] ++ js "b") [] eq_refl
                ltac:(done)).
  vm_compute in H. discriminate H.
Qed.

(** ** The parser reads one code unit ahead *)

Lemma isDelimiter_facts c :
  isDelimiter c = true ->
  isSpace c = false /\ isDigit c = false /\ isWord c = false /\
  isIdentChar c = false /\ (c =? LPAREN)%N = false /\ (c =? QUOTE)%N = false.
Proof.
  unfold isDelimiter. intros [H|H]%orb_true_iff; apply N.eqb_eq in H; subst c;
    repeat split; reflexivity.
Qed.

Lemma skipSpace_head s c t : skipSpace s = c :: t -> isSpace c = false.
Proof.
  induction s as [|d u IH]; simpl; [done|].
  destruct (isSpace d) eqn:Hd; [done|]. by intros [= <- <-].
Qed.

Lemma skipSpace_nonspace c t : isSpace c = false -> skipSpace (c :: t) = c :: t.
Proof. intros H. simpl. by rewrite H. Qed.

Lemma skipSpace_split s :
  exists sp, s = sp ++ skipSpace s /\ forallb isSpace sp = true.
Proof.
  induction s as [|c t (sp & Ht & Hsp)]; simpl.
  - by exists [].
  - destruct (isSpace c) eqn:Hc.
    + exists (c :: sp). simpl. rewrite Hc. split; [by f_equal|done].
    + by exists [].
Qed.

Lemma skipSpace_app_spaces sp s :
  forallb isSpace sp = true -> skipSpace (sp ++ s) = skipSpace s.
Proof.
  induction sp as [|c sp IH]; simpl; [done|].
  intros [Hc Hsp]%andb_true_iff. rewrite Hc. auto.
Qed.

(** The head of [a ++ s] when [a ++ t] is known to start with [c]. *)
Lemma same_head_app (a s t u : jsstring) c d :
  a ++ c :: t = d :: u -> exists u', a ++ c :: s = d :: u'.
Proof.
  destruct a as [|x a]; simpl; intros [= <- <-]; eauto.
Qed.

Lemma skipSpace_app_fixed a c t t' :
  skipSpace (a ++ c :: t) = a ++ c :: t ->
  skipSpace (a ++ c :: t') = a ++ c :: t'.
Proof.
  intros H. destruct a as [|x a]; simpl in *.
  - destruct (isSpace c) eqn:Hc; [|done].
    pose proof (skipSpace_length t). apply (f_equal length) in H.
    simpl in H. lia.
  - destruct (isSpace x) eqn:Hx; [|done].
    pose proof (skipSpace_length (a ++ c :: t)). apply (f_equal length) in H.
    simpl in H. lia.
Qed.

Lemma isIdentChar_not_quote c : isIdentChar c = true -> (c =? QUOTE)%N = false.
Proof.
  unfold isIdentChar. rewrite negb_true_iff, !orb_false_iff. tauto.
Qed.

Lemma sameLookahead_head (q : char -> bool) rest rest' :
  sameLookahead rest rest' ->
  match rest with [] => True | c :: _ => q c = false end ->
  (forall c, isDelimiter c = true -> q c = false) ->
  match rest' with [] => True | c :: _ => q c = false end.
Proof.
  intros [(c & t & t' & -> & ->)|(c' & t' & -> & Hd)] Hrest Hdel; auto.
Qed.

Lemma matchString_local p s rest :
  matchString p = Some (s, rest) ->
  exists a, p = a ++ rest /\ a <> [] /\
    forall rest', matchString (a ++ rest') = Some (s, rest').
Proof.
  unfold matchString. destruct (startsWith QUOTE p) eqn:Hq; [|done].
  apply startsWith_cons in Hq as [p0 ->].
  change (drop 1 (QUOTE :: p0)) with p0.
  destruct (span notQuote p0) as [body rest1] eqn:Hs.
  destruct (startsWith QUOTE rest1) eqn:Hq1; [|done].
  apply startsWith_cons in Hq1 as [r ->].
  change (drop 1 (QUOTE :: r)) with r. intros [= <- <-].
  apply span_spec in Hs as (-> & Hbody & _).
  exists (QUOTE :: body ++ [QUOTE]). split; [|split; [done|]].
  - simpl. by rewrite <- app_assoc.
  - intros rest'. simpl. rewrite <- app_assoc. simpl.
    rewrite drop_0, span_app by done. by rewrite startsWith_same.
Qed.

Lemma matchNumber_local p ds rest :
  matchNumber p = Some (ds, rest) ->
  p = ds ++ rest /\ ds <> [] /\ forallb isDigit ds = true /\
  forall rest', sameLookahead rest rest' ->
    matchNumber (ds ++ rest') = Some (ds, rest').
Proof.
  unfold matchNumber. destruct (span isDigit p) as [a b] eqn:Hs.
  apply span_spec in Hs as (-> & Ha & Hb).
  destruct a as [|d a]; [done|].
  assert (Some (d :: a, b) = Some (ds, rest) ->
          match b with [] => True | c :: _ => isWord c = false end ->
          (d :: a) ++ b = ds ++ rest /\ ds <> [] /\
          forallb isDigit ds = true /\
          forall rest', sameLookahead rest rest' ->
            matchNumber (ds ++ rest') = Some (ds, rest')) as Hok.
  { intros [= <- <-] Hw. repeat split; try done.
    intros rest' Hlook. apply matchNumber_digits; [done|done|].
    apply (sameLookahead_head isWord b); [done|done|].
    intros c Hc. by apply isDelimiter_facts in Hc as (_ & _ & ? & _). }
  destruct b as [|c b]; [by auto|].
  destruct (isWord c) eqn:Hc; [done|]. auto.
Qed.

Lemma matchNumber_none_local name rest rest' :
  name <> [] -> forallb isIdentChar name = true ->
  match rest with [] => True | c :: _ => isIdentChar c = false end ->
  matchNumber (name ++ rest) = None ->
  matchNumber (name ++ rest') = None.
Proof.
  intros Hne Hname Hrest. unfold matchNumber.
  destruct (span isDigit name) as [ds n2] eqn:Hs.
  apply span_spec in Hs as (-> & Hds & Hn2).
  destruct n2 as [|y n2].
  - rewrite app_nil_r in *.
    rewrite span_app; [|done|].
    + destruct ds as [|d ds]; [done|].
      destruct rest as [|c rest]; [done|].
      destruct (isWord c) eqn:Hc; [|done].
      apply isWord_isIdentChar in Hc. congruence.
    + destruct rest as [|c rest]; [done|].
      destruct (isDigit c) eqn:Hc; [|done].
      apply isDigit_isIdentChar in Hc. congruence.
  - rewrite <- !app_assoc. simpl.
    rewrite !span_app by done.
    destruct ds; [done|]. by destruct (isWord y).
Qed.

Lemma matchAtom_local p e rest :
  matchAtom p = Some (e, rest) ->
  exists a, p = a ++ rest /\ a <> [] /\
    forall rest', sameLookahead rest rest' ->
      matchAtom (a ++ rest') = Some (e, rest').
Proof.
  unfold matchAtom.
  destruct (matchString p) as [[s r]|] eqn:Hstr.
  { intros [= <- <-].
    destruct (matchString_local _ _ _ Hstr) as (a & -> & Hne & Hloc).
    exists a. split; [done|]. split; [done|].
    intros rest' _. by rewrite Hloc. }
  destruct (matchNumber p) as [[ds r]|] eqn:Hnum.
  { intros [= <- <-].
    destruct (matchNumber_local _ _ _ Hnum) as (-> & Hne & Hds & Hloc).
    exists ds. split; [done|]. split; [done|].
    intros rest' Hlook. rewrite (Hloc _ Hlook).
    destruct ds as [|d ds]; [done|]. simpl in Hds.
    apply andb_true_iff in Hds as [Hd _].
    simpl. by rewrite (matchString_digit d _ Hd). }
  unfold matchIdentifier.
  destruct (span isIdentChar p) as [name r] eqn:Hs.
  apply span_spec in Hs as (-> & Hname & Hr).
  destruct name as [|x name]; [done|]. intros [= <- <-].
  exists (x :: name). split; [done|]. split; [done|].
  intros rest' Hlook.
  assert (matchString ((x :: name) ++ rest') = None) as ->.
  { unfold matchString. simpl in Hname |- *.
    apply andb_true_iff in Hname as [Hx _].
    by rewrite (isIdentChar_not_quote x Hx). }
  rewrite (matchNumber_none_local (x :: name) r rest') by done.
  rewrite span_app; [done|done|].
  apply (sameLookahead_head isIdentChar r); [done|done|].
  intros c Hc. by apply isDelimiter_facts in Hc as (_ & _ & _ & ? & _).
Qed.

Lemma startsWith_app_tail c a d t t' :
  startsWith c (a ++ d :: t) = startsWith c (a ++ d :: t').
Proof. by destruct a. Qed.

Lemma sameLookahead_app pre rest c' t' :
  isDelimiter c' = true -> sameLookahead (pre ++ rest) (pre ++ c' :: t').
Proof.
  intros Hd. destruct pre as [|y pre]; [right|left]; simpl; eauto.
Qed.

(** What an expression, an application suffix or an argument list has
    read is a prefix of the text, and what follows that prefix matters
    only through its first code unit: a comma or a closing parenthesis
    there gives the same tree.  An argument list ends at its closing
    parenthesis whatever comes after it. *)
Lemma parse_local n :
  (forall p e rest, parseExpression n p = Ok (e, rest) ->
     skipSpace rest = rest /\
     exists pre, p = pre ++ rest /\
       forall c' t', isDelimiter c' = true ->
         parseExpression n (pre ++ c' :: t') = Ok (e, c' :: t')) /\
  (forall e0 p e rest, parseApply n e0 p = Ok (e, rest) ->
     skipSpace rest = rest /\
     exists pre, p = pre ++ rest /\
       forall c' t', isDelimiter c' = true ->
         parseApply n e0 (pre ++ c' :: t') = Ok (e, c' :: t')) /\
  (forall p args args' rest, parseArgs n p args = Ok (args', rest) ->
     exists pre r, p = pre ++ RPAREN :: r /\ rest = RPAREN :: r /\
       forall r', parseArgs n (pre ++ RPAREN :: r') args
                  = Ok (args', RPAREN :: r')).
Proof.
  induction n as [|n (IHe & IHa & IHl)]; [by repeat split|].
  split; [|split].
  - intros p e rest H. simpl in H.
    remember (skipSpace p) as p1 eqn:Hp1.
    destruct (matchAtom p1) as [[e0 rest0]|] eqn:Hm; [|done].
    destruct (IHa _ _ _ _ H) as (Hfix & preA & -> & HlocA).
    destruct (matchAtom_local _ _ _ Hm) as (a & Ha & Hne & HlocAtom).
    destruct (skipSpace_split p) as (sp & Hsp & Hspace).
    rewrite <- Hp1 in Hsp. split; [done|].
    exists (sp ++ a ++ preA). split.
    { rewrite Hsp, Ha. by rewrite <- !app_assoc. }
    intros c' t' Hd. simpl. rewrite <- !app_assoc.
    rewrite skipSpace_app_spaces by done.
    destruct a as [|x a]; [done|].
    assert (isSpace x = false) as Hx.
    { symmetry in Hp1. rewrite Ha in Hp1. by apply skipSpace_head in Hp1. }
    rewrite <- app_comm_cons, (skipSpace_nonspace x) by done.
    rewrite app_comm_cons, (HlocAtom (preA ++ c' :: t'))
      by (by apply sameLookahead_app).
    by apply HlocA.
  - intros e0 p e rest H. simpl in H.
    remember (skipSpace p) as p1 eqn:Hp1.
    destruct (skipSpace_split p) as (sp & Hsp & Hspace).
    rewrite <- Hp1 in Hsp.
    destruct (negb (startsWith LPAREN p1)) eqn:Hp.
    + injection H as <- <-. split; [rewrite Hp1; apply skipSpace_idem|].
      exists sp. split; [done|]. intros c' t' Hd.
      destruct (isDelimiter_facts c' Hd) as (Hs & _ & _ & _ & Hl & _).
      simpl. rewrite skipSpace_app_spaces, skipSpace_nonspace by done.
      unfold startsWith. by rewrite Hl.
    + apply negb_false_iff, startsWith_cons in Hp as [q Hq].
      rewrite Hq in H. change (drop 1 (LPAREN :: q)) with q in H.
      destruct (parseArgs n (skipSpace q) []) as [[args pL]| | |] eqn:HL;
        try done.
      destruct (IHl _ _ _ _ HL) as (preL & r & HqL & -> & HlocL).
      change (drop 1 (RPAREN :: r)) with r in H.
      destruct (IHa _ _ _ _ H) as (Hfix & preA & -> & HlocA).
      destruct (skipSpace_split q) as (sq & Hsq & Hsqspace).
      split; [done|].
      exists (sp ++ LPAREN :: sq ++ preL ++ RPAREN :: preA). split.
      { rewrite Hsp, Hq, Hsq, HqL. rewrite <- !app_assoc. simpl.
        by rewrite <- !app_assoc. }
      intros c' t' Hd. simpl. rewrite <- !app_assoc.
      rewrite skipSpace_app_spaces by done.
      rewrite <- app_comm_cons, (skipSpace_nonspace LPAREN) by done.
      rewrite startsWith_same. cbn [negb].
      change (drop 1 (LPAREN :: ?x)) with x.
      rewrite <- !app_assoc, skipSpace_app_spaces by done.
      rewrite <- app_comm_cons.
      assert (skipSpace (preL ++ RPAREN :: preA ++ c' :: t')
              = preL ++ RPAREN :: preA ++ c' :: t') as ->.
      { apply skipSpace_app_fixed with (t := preA ++ rest).
        rewrite <- HqL. apply skipSpace_idem. }
      rewrite HlocL. change (drop 1 (RPAREN :: ?x)) with x.
      by apply HlocA.
  - intros p args args' rest H. simpl in H.
    destruct (startsWith RPAREN p) eqn:Hp.
    + injection H as <- <-. apply startsWith_cons in Hp as [r ->].
      exists [], r. split; [done|]. split; [done|].
      intros r'. reflexivity.
    + destruct (parseExpression n p) as [[arg rest1]| | |] eqn:HE; try done.
      destruct (IHe _ _ _ HE) as (Hfix1 & preE & HpE & HlocE).
      rewrite Hfix1 in H.
      destruct (startsWith COMMA rest1) eqn:Hc.
      * apply startsWith_cons in Hc as [u ->].
        change (drop 1 (COMMA :: u)) with u in H.
        destruct (IHl _ _ _ _ H) as (preL & r & HuL & -> & HlocL).
        destruct (skipSpace_split u) as (su & Hsu & Hsuspace).
        exists (preE ++ COMMA :: su ++ preL), r. split.
        { rewrite HpE, Hsu, HuL. rewrite <- !app_assoc. simpl.
          by rewrite <- !app_assoc. }
        split; [done|]. intros r'. simpl.
        rewrite <- !app_assoc, <- !app_comm_cons, <- !app_assoc.
        rewrite (startsWith_app_tail RPAREN preE COMMA _ u), <- HpE, Hp.
        rewrite (HlocE COMMA) by done.
        rewrite (skipSpace_nonspace COMMA) by done.
        rewrite startsWith_same.
        change (drop 1 (COMMA :: ?x)) with x.
        rewrite skipSpace_app_spaces by done.
        assert (skipSpace (preL ++ RPAREN :: r') = preL ++ RPAREN :: r') as ->.
        { apply skipSpace_app_fixed with (t := r).
          rewrite <- HuL. apply skipSpace_idem. }
        apply HlocL.
      * destruct (negb (startsWith RPAREN rest1)) eqn:Hr; [done|].
        apply negb_false_iff in Hr.
        destruct (IHl _ _ _ _ H) as (preL & r & HrL & -> & HlocL).
        exists (preE ++ preL), r. split.
        { rewrite HpE, HrL. by rewrite <- !app_assoc. }
        split; [done|]. intros r'. simpl.
        rewrite (startsWith_app_tail RPAREN (preE ++ preL) RPAREN _ r).
        rewrite <- !app_assoc, <- HrL, <- HpE, Hp.
        pose proof Hr as Hr'. apply startsWith_cons in Hr' as [t1 Ht1].
        rewrite HrL in Ht1.
        destruct (same_head_app preL r' r t1 RPAREN RPAREN Ht1) as [t2 Ht2].
        rewrite Ht2, (HlocE RPAREN) by done.
        rewrite (skipSpace_nonspace RPAREN) by done.
        change (startsWith COMMA (RPAREN :: t2)) with false.
        rewrite startsWith_same. cbn [negb].
        rewrite <- Ht2. apply HlocL.
Qed.

(** ** Argument lists *)

Lemma parseExpr_not_rparen program arg rest :
  parseExpr program = Ok (arg, rest) -> startsWith RPAREN program = false.
Proof.
  rewrite parseExpr_eq. destruct (startsWith RPAREN program) eqn:Hp; [|done].
  apply startsWith_cons in Hp as [t ->]. by vm_compute.
Qed.

Lemma parseExpression_finished n p r :
  parseExpression n p = r -> finished r -> parseExpr p = r.
Proof.
  intros H Hfin. destruct (le_ge_dec n (parseFuel p)) as [Hle|Hge].
  - by apply (proj1 (proj1 (parse_fuel_facts n) p r H Hfin)).
  - rewrite <- H. symmetry.
    apply (proj1 (proj1 (parse_fuel_facts (parseFuel p)) p _ eq_refl
                    (parseExpr_finished p))).
    exact Hge.
Qed.

Lemma parseExpr_local p e rest :
  parseExpr p = Ok (e, rest) ->
  skipSpace rest = rest /\
  exists pre, p = pre ++ rest /\
    forall c' t', isDelimiter c' = true ->
      parseExpr (pre ++ c' :: t') = Ok (e, c' :: t').
Proof.
  intros H.
  destruct (proj1 (parse_local (parseFuel p)) p e rest H)
    as (Hfix & pre & Hp & Hloc).
  split; [done|]. exists pre. split; [done|].
  intros c' t' Hd. by eapply parseExpression_finished; [apply Hloc|].
Qed.

(** C9: in the loop over an argument list, an argument followed by a comma
    and then the closing parenthesis ends the list exactly as an argument
    followed by the closing parenthesis does, with the arguments read so
    far and this one.  So when the text of a call with one argument is
    changed by writing a comma, and any whitespace, before its closing
    parenthesis, the text still parses, and to the same application. *)
Theorem trailing_comma_accepted :
  (forall program args arg rest t,
     parseExpr program = Ok (arg, rest) ->
     (exists t1, skipSpace rest = COMMA :: t1 /\ skipSpace t1 = RPAREN :: t) \/
     skipSpace rest = RPAREN :: t ->
     parseArguments program args = Ok (args ++ [arg], RPAREN :: t)) /\
  (forall operator program arg t,
     parseExpr program = Ok (arg, RPAREN :: t) ->
     exists x, program = x ++ RPAREN :: t /\
       forall ws, forallb isSpace ws = true ->
         parseApp operator (LPAREN :: x ++ COMMA :: ws ++ RPAREN :: t)
         = parseApp (Apply operator [arg]) t /\
         parseApp operator (LPAREN :: program)
         = parseApp (Apply operator [arg]) t).
Proof.
  assert (forall program args arg rest t,
     parseExpr program = Ok (arg, rest) ->
     (exists t1, skipSpace rest = COMMA :: t1 /\ skipSpace t1 = RPAREN :: t) \/
     skipSpace rest = RPAREN :: t ->
     parseArguments program args = Ok (args ++ [arg], RPAREN :: t)) as Hloop.
  { intros program args arg rest t Harg Hrest.
    rewrite parseArguments_eq, (parseExpr_not_rparen _ _ _ Harg), Harg.
    destruct Hrest as [(t1 & Hc & Hr)|Hr].
    - rewrite Hc, startsWith_same.
      change (drop 1 (COMMA :: t1)) with t1. rewrite Hr.
      by rewrite parseArguments_eq, startsWith_same.
    - rewrite Hr. change (startsWith COMMA (RPAREN :: t)) with false.
      rewrite startsWith_same. cbn [negb].
      by rewrite parseArguments_eq, startsWith_same. }
  split; [exact Hloop|].
  intros operator program arg t Harg.
  assert (forall text rest,
    parseExpr text = Ok (arg, rest) ->
    (exists t1, skipSpace rest = COMMA :: t1 /\ skipSpace t1 = RPAREN :: t)
    \/ skipSpace rest = RPAREN :: t ->
    parseApp operator (LPAREN :: text) = parseApp (Apply operator [arg]) t)
    as Happ.
  { intros text rest Htext Hrest.
    rewrite parseApp_eq.
    change (skipSpace (LPAREN :: text)) with (LPAREN :: text).
    rewrite startsWith_same. cbn [negb].
    change (drop 1 (LPAREN :: text)) with text.
    assert (parseExpr (skipSpace text) = Ok (arg, rest)) as Htext'.
    { rewrite parseExpr_eq, skipSpace_idem, <- parseExpr_eq. done. }
    rewrite (Hloop _ [] _ _ _ Htext' Hrest). done. }
  destruct (parseExpr_local _ _ _ Harg) as (_ & x & Hx & Hloc).
  exists x. split; [exact Hx|]. intros ws Hws. split.
  - apply (Happ _ (COMMA :: ws ++ RPAREN :: t)); [by apply Hloc|].
    left. exists (ws ++ RPAREN :: t). split; [done|].
    by rewrite skipSpace_app_spaces.
  - apply (Happ _ (RPAREN :: t)); [done|]. by right.
Qed.

Lemma trailing_comma_accepted_witness :
  let f := ValidIdentifier (js "f") in
  let x := ValidIdentifier (js "x") in
  parseApp f (js "(x ,  )") = parseApp (Apply f [x]) [] /\
  parseApp f (js "(x )") = parseApp (Apply f [x]) [] /\
  parse (js "f(1, g(2,), )")
  = Ok (Apply f [Value (LNum 1);
                 Apply (ValidIdentifier (js "g")) [Value (LNum 2)]]).
Proof.
  intros f x.
  destruct (proj2 trailing_comma_accepted f (js "x )") x []
              ltac:(vm_compute; reflexivity)) as (text & Htext & H).
  assert (text = js "x ") as ->.
  { apply (app_inv_tail [RPAREN]). symmetry. exact Htext. }
  destruct (H (js "  ") eq_refl) as [H1 H2].
  split; [exact H1|]. split; [exact H2|].
  vm_compute. reflexivity.
Defined.

(** ** More fuel never changes a finished evaluation *)


Lemma mle_refl {A} (m : M A) : mle m m.
Proof. by intros st r st' H _. Qed.

Lemma mle_bind {A B} (m m' : M A) (k k' : A -> M B) :
  mle m m' -> (forall a, mle (k a) (k' a)) -> mle (bind m k) (bind m' k').
Proof.
  intros Hm Hk st r st' H Hr. unfold bind in *.
  destruct (m st) as [[a|e| |] st1] eqn:E.
  - rewrite (Hm _ _ _ E) by done. by apply Hk.
  - rewrite (Hm _ _ _ E) by done. done.
  - rewrite (Hm _ _ _ E) by done. done.
  - by injection H as <- <-.
Qed.

Section Monotone.

Variables ev ev' : expr -> loc -> M value.
Hypothesis Hev : evle ev ev'.

Lemma evaluateArgs_mle args scope :
  mle (evaluateArgs ev args scope) (evaluateArgs ev' args scope).
Proof.
  induction args as [|arg rest IH]; simpl; [apply mle_refl|].
  apply mle_bind; [apply Hev|]. intros v.
  apply mle_bind; [apply IH|]. intros vs. apply mle_refl.
Qed.

Lemma specialFormIf_mle args scope :
  mle (specialFormIf ev args scope) (specialFormIf ev' args scope).
Proof.
  destruct args as [|a0 [|a1 [|a2 [|a3 rest]]]]; simpl; try apply mle_refl.
  apply mle_bind; [apply Hev|]. intros c. destruct (isNotFalse c); apply Hev.
Qed.

Lemma whileLoop_mle k k' cond body scope :
  k <= k' ->
  mle (whileLoop ev k cond body scope) (whileLoop ev' k' cond body scope).
Proof.
  revert k'. induction k as [|k IH]; intros k' Hk.
  { intros st r st' H Hr. simpl in H. unfold outOfFuel in H. congruence. }
  destruct k' as [|k']; [lia|]. simpl.
  apply mle_bind; [apply Hev|]. intros c.
  destruct (isNotFalse c); [|apply mle_refl].
  apply mle_bind; [apply Hev|]. intros _. apply IH. lia.
Qed.

Lemma specialFormWhile_mle k k' args scope :
  k <= k' ->
  mle (specialFormWhile ev k args scope) (specialFormWhile ev' k' args scope).
Proof.
  intros Hk.
  destruct args as [|a0 [|a1 [|a2 rest]]]; simpl; try apply mle_refl.
  by apply whileLoop_mle.
Qed.

Lemma doLoop_mle args scope val :
  mle (doLoop ev args scope val) (doLoop ev' args scope val).
Proof.
  revert val. induction args as [|arg rest IH]; intros val; simpl;
    [apply mle_refl|].
  apply mle_bind; [apply Hev|]. intros v. apply IH.
Qed.

Lemma specialFormDefine_mle args scope :
  mle (specialFormDefine ev args scope) (specialFormDefine ev' args scope).
Proof.
  destruct args as [|[l|name|op oargs] [|a1 [|a2 rest]]]; simpl;
    try apply mle_refl.
  apply mle_bind; [apply Hev|]. intros v. apply mle_refl.
Qed.

Lemma callFunction_mle f args :
  mle (callFunction ev f args) (callFunction ev' f args).
Proof.
  destruct f as [n|s|b| |b|params body scope|vs]; simpl; try apply mle_refl.
  destruct (negb (length args =? length params)); [apply mle_refl|].
  intros st r st' H Hr. simpl in *. by apply Hev.
Qed.

Lemma evaluateStep_mle k k' :
  k <= k' -> evle (evaluateStep ev k) (evaluateStep ev' k').
Proof.
  intros Hk [l|name|operator args] scope; simpl; try apply mle_refl.
  destruct (specialFormOf operator) as [[| | | |]|]; simpl.
  - apply specialFormIf_mle.
  - by apply specialFormWhile_mle.
  - apply doLoop_mle.
  - apply specialFormDefine_mle.
  - apply mle_refl.
  - apply mle_bind; [apply Hev|]. intros op.
    destruct (isFunction op); [|apply mle_refl].
    apply mle_bind; [apply evaluateArgs_mle|]. intros vs.
    apply callFunction_mle.
Qed.

End Monotone.

Lemma evaluate_mono n m : n <= m -> evle (evaluate n) (evaluate m).
Proof.
  revert m. induction n as [|n IH]; intros m Hnm.
  { intros e scope st r st' H Hr. simpl in H. unfold outOfFuel in H. congruence. }
  destruct m as [|m]; [lia|]. simpl.
  apply evaluateStep_mle; [apply IH|]; lia.
Qed.

Lemma evaluates_more_fuel e scope st r st' :
  evaluates e scope st r st' ->
  exists n, forall m, n <= m -> evaluate m e scope st = (r, st').
Proof.
  intros (n & Hn & Hr). exists n. intros m Hm.
  by apply (evaluate_mono n m Hm).
Qed.

Lemma evaluates_deterministic e scope st r1 st1 r2 st2 :
  evaluates e scope st r1 st1 -> evaluates e scope st r2 st2 ->
  r1 = r2 /\ st1 = st2.
Proof.
  intros (n1 & H1)%evaluates_more_fuel (n2 & H2)%evaluates_more_fuel.
  specialize (H1 (n1 + n2) ltac:(lia)). specialize (H2 (n1 + n2) ltac:(lia)).
  rewrite H1 in H2. by injection H2.
Qed.

(** ** Ordinary applications *)

Lemma argumentsEvaluate_more_fuel scope args st vs st' :
  argumentsEvaluate scope args st vs st' ->
  exists n, forall m, n <= m ->
    evaluateArgs (evaluate m) args scope st = (Ok vs, st').
Proof.
  induction 1 as [st|arg rest st v st1 vs st2 Hv _ (n2 & IH)].
  - by exists 0.
  - apply evaluates_more_fuel in Hv as (n1 & Hv).
    exists (n1 + n2). intros m Hm. simpl. unfold bind.
    rewrite Hv, IH by lia. done.
Qed.

Lemma calls_more_fuel f vs st r st' :
  calls f vs st r st' ->
  exists n, forall m, n <= m -> callFunction (evaluate m) f vs st = (r, st').
Proof.
  intros (n & Hn & Hr). exists n. intros m Hm.
  by apply (callFunction_mle _ _ (evaluate_mono n m Hm) f vs).
Qed.

Lemma evaluate_apply fuel operator args scope :
  specialFormOf operator = None ->
  evaluate (S fuel) (Apply operator args) scope =
  (let* op := evaluate fuel operator scope in
   if isFunction op then
     let* vs := evaluateArgs (evaluate fuel) args scope in
     callFunction (evaluate fuel) op vs
   else throw notAFunction).
Proof. intros H. simpl. by rewrite H. Qed.

(** C1: an application whose operator is not the name of a special form
    evaluates its operator first, in the current scope.  A value that is
    not a function makes the application fail with the not-a-function
    error in the very state the operator left, whatever the arguments are:
    none of them is evaluated.  A function is called with the values of the
    arguments, evaluated from left to right in the current scope, and the
    result of the call is the result of the application. *)
Theorem application_evaluation operator args scope st :
  specialFormOf operator = None ->
  (forall r st', evaluates (Apply operator args) scope st r st' ->
     exists ro st1, evaluates operator scope st ro st1) /\
  (forall op st1,
     evaluates operator scope st (Ok op) st1 -> isFunction op = false ->
     evaluates (Apply operator args) scope st (Throw notAFunction) st1) /\
  (forall op st1 vs st2 r st3,
     evaluates operator scope st (Ok op) st1 -> isFunction op = true ->
     argumentsEvaluate scope args st1 vs st2 ->
     calls op vs st2 r st3 ->
     evaluates (Apply operator args) scope st r st3).
Proof.
  intros Hop. split; [|split].
  - intros r st' ([|n] & Hn & Hr).
    { simpl in Hn. unfold outOfFuel in Hn. congruence. }
    rewrite evaluate_apply in Hn by done. unfold bind in Hn.
    destruct (evaluate n operator scope st) as [ro st1] eqn:E.
    exists ro, st1, n. split; [done|].
    intros ->. congruence.
  - intros op st1 (n & Hn & _) Hf. exists (S n). split; [|done].
    rewrite evaluate_apply by done. unfold bind. by rewrite Hn, Hf.
  - intros op st1 vs st2 r st3 (n1 & H1)%evaluates_more_fuel Hf
      (n2 & H2)%argumentsEvaluate_more_fuel Hcall.
    pose proof Hcall as (n0 & _ & Hr).
    apply calls_more_fuel in Hcall as (n3 & H3).
    exists (S (n1 + n2 + n3)). split; [|done].
    rewrite evaluate_apply by done. unfold bind.
    rewrite H1, Hf, H2, H3 by lia. done.
Qed.

Ltac finishes_with n :=
  exists n; split; [vm_compute; reflexivity | discriminate].

Lemma application_evaluation_witness :
  let st0 := (objectCreate TOP initialState).2 in
  let print1 := Apply (ValidIdentifier (js "print")) [Value (LNum 1)] in
  let print2 := Apply (ValidIdentifier (js "print")) [Value (LNum 2)] in
  let st1 := {| heap := heap st0; output := [VNum 1] |} in
  let st2 := {| heap := heap st0; output := [VNum 1; VNum 2] |} in
  evaluates (Apply (Value (LNum 5)) [print1]) 1 st0 (Throw notAFunction) st0 /\
  evaluates (Apply (ValidIdentifier (js "array")) [print1; print2]) 1 st0
    (Ok (VArray [VNum 1; VNum 2])) st2.
Proof.
  intros st0 print1 print2 st1 st2. split.
  - apply (proj1 (proj2 (application_evaluation (Value (LNum 5)) [print1] 1 st0
                           eq_refl)) (VNum 5) st0); [finishes_with 1|done].
  - apply (proj2 (proj2 (application_evaluation (ValidIdentifier (js "array"))
                           [print1; print2] 1 st0 eq_refl))
             (VBuiltin ArrayOf) st0 [VNum 1; VNum 2] st2).
    + finishes_with 1.
    + done.
    + apply arguments_cons with (st1 := st1); [finishes_with 3|].
      apply arguments_cons with (st1 := st2); [finishes_with 3|].
      apply arguments_nil.
    + finishes_with 0.
Defined.

Lemma application_calls operator args scope st op st1 vs st2 r st3 :
  specialFormOf operator = None ->
  evaluates operator scope st (Ok op) st1 -> isFunction op = true ->
  argumentsEvaluate scope args st1 vs st2 ->
  calls op vs st2 r st3 ->
  evaluates (Apply operator args) scope st r st3.
Proof.
  intros Hop (n1 & H1)%evaluates_more_fuel Hf
    (n2 & H2)%argumentsEvaluate_more_fuel Hcall.
  pose proof Hcall as (n0 & _ & Hr).
  apply calls_more_fuel in Hcall as (n3 & H3).
  exists (S (n1 + n2 + n3)). split; [|done].
  rewrite evaluate_apply by done. unfold bind.
  rewrite H1, Hf, H2, H3 by lia. done.
Qed.

(** ** Special forms *)

Lemma evaluate_special_form fuel name f args scope :
  specialFormNamed name = Some f ->
  evaluate (S fuel) (Apply (ValidIdentifier name) args) scope
  = specialForms (evaluate fuel) fuel f args scope.
Proof. intros H. simpl. by rewrite H. Qed.

Lemma evaluates_finished_fuel e scope st r st' :
  evaluates e scope st r st' ->
  exists n, evaluate (S n) e scope st = (r, st') /\ r <> OutOfFuel.
Proof.
  intros ([|n] & Hn & Hr); [|by exists n].
  simpl in Hn. unfold outOfFuel in Hn. congruence.
Qed.

Lemma evaluate_finished_agrees n e scope st ro st1 r st' :
  evaluate n e scope st = (ro, st1) -> ro <> OutOfFuel ->
  evaluates e scope st r st' -> ro = r /\ st1 = st'.
Proof.
  intros Hn Hro He.
  eapply evaluates_deterministic; [|exact He]. by exists n.
Qed.

(** C2: [if] with an argument count other than three is a syntax error.
    With three arguments the first is evaluated; when its value is not the
    boolean false, the application finishes exactly as the second argument
    does from the state the first one left, and otherwise exactly as the
    third does, so the other branch takes no part in the evaluation.  The
    program if(true, 1, undefinedName) gives 1, although evaluating
    undefinedName fails with an undefined-binding error. *)
Theorem if_special_form (scope : loc) (st : state) :
  (forall args, length args <> 3 ->
     evaluates (Apply (ValidIdentifier (js "if")) args) scope st
       (Throw ifArity) st) /\
  (forall arg0 arg1 arg2 c st1 r st',
     evaluates arg0 scope st (Ok c) st1 ->
     (c <> VBool false ->
      evaluates (Apply (ValidIdentifier (js "if")) [arg0; arg1; arg2])
        scope st r st'
      <-> evaluates arg1 scope st1 r st') /\
     (c = VBool false ->
      evaluates (Apply (ValidIdentifier (js "if")) [arg0; arg1; arg2])
        scope st r st'
      <-> evaluates arg2 scope st1 r st')) /\
  (run 3 (js "if(true, 1, undefinedName)") initialState).1 = Ok (VNum 1) /\
  (run 3 (js "undefinedName") initialState).1
  = Throw (undefinedBinding (js "undefinedName")).
Proof.
  split; [|split; [|split; vm_compute; reflexivity]].
  - intros args Hlen. exists 1. split; [|done].
    rewrite (evaluate_special_form 0 _ If) by done.
    by destruct args as [|a0 [|a1 [|a2 [|a3 rest]]]].
  - intros arg0 arg1 arg2 c st1 r st' Hc.
    assert (forall branch, branch = (if isNotFalse c then arg1 else arg2) ->
      evaluates (Apply (ValidIdentifier (js "if")) [arg0; arg1; arg2])
        scope st r st'
      <-> evaluates branch scope st1 r st') as Hiff.
    { intros branch ->. split.
      - intros (n & Hn & Hr)%evaluates_finished_fuel.
        rewrite (evaluate_special_form n _ If) in Hn by done.
        simpl in Hn. unfold bind in Hn.
        destruct (evaluate n arg0 scope st) as [ro st1'] eqn:E.
        assert (ro <> OutOfFuel) as Hro by (intros ->; congruence).
        destruct (evaluate_finished_agrees _ _ _ _ _ _ _ _ E Hro Hc) as [-> ->].
        exists n. split; [|done]. by destruct (isNotFalse c).
      - intros Hb. pose proof Hb as (n0 & _ & Hr).
        apply evaluates_more_fuel in Hb as (n2 & H2).
        apply evaluates_more_fuel in Hc as (n1 & H1).
        exists (S (n1 + n2)). split; [|done].
        rewrite (evaluate_special_form _ _ If) by done.
        simpl. unfold bind. rewrite H1 by lia.
        destruct (isNotFalse c); apply H2; lia. }
    split.
    + intros Hne. apply Hiff.
      destruct c as [| |[|]| | | |]; try done.
    + intros ->. by apply Hiff.
Qed.

Lemma if_special_form_witness :
  let st0 := (objectCreate TOP initialState).2 in
  let taken := Value (LNum 1) in
  let untaken := ValidIdentifier (js "undefinedName") in
  evaluates (Apply (ValidIdentifier (js "if"))
               [ValidIdentifier (js "true"); taken; untaken]) 1 st0
    (Ok (VNum 1)) st0 /\
  evaluates (Apply (ValidIdentifier (js "if"))
               [ValidIdentifier (js "false"); untaken; taken]) 1 st0
    (Ok (VNum 1)) st0 /\
  evaluates (Apply (ValidIdentifier (js "if")) [taken; untaken]) 1 st0
    (Throw ifArity) st0.
Proof.
  intros st0 taken untaken.
  destruct (if_special_form 1 st0) as (Harity & Hif & _).
  split; [|split].
  - apply (proj1 (Hif (ValidIdentifier (js "true")) taken untaken
                    (VBool true) st0 (Ok (VNum 1)) st0 ltac:(finishes_with 1))
             ltac:(discriminate)).
    finishes_with 1.
  - apply (proj2 (Hif (ValidIdentifier (js "false")) untaken taken
                    (VBool false) st0 (Ok (VNum 1)) st0 ltac:(finishes_with 1))
             eq_refl).
    finishes_with 1.
  - apply Harity. simpl. lia.
Defined.

Lemma specialFormDefine_malformed ev args scope :
  length args <> 2 \/ (forall name, args !! 0 <> Some (ValidIdentifier name)) ->
  specialFormDefine ev args scope = throw badDefine.
Proof.
  intros H.
  destruct args as [|[l|name|op oargs] [|a1 [|a2 rest]]]; simpl; try done.
  destruct H as [H|H]; [done|]. by destruct (H name).
Qed.

Lemma setProperty_other l name v st l' :
  l' <> l -> heap (setProperty l name v st) !! l' = heap st !! l'.
Proof.
  intros H. unfold setProperty. cbn [heap]. by apply list_lookup_alter_ne.
Qed.

Lemma setProperty_same l name v st o :
  heap st !! l = Some o ->
  heap (setProperty l name v st) !! l = Some (setOwn name v o).
Proof.
  intros H. unfold setProperty. cbn [heap].
  by rewrite list_lookup_alter_eq, H.
Qed.

Lemma resolve_own h l name o v :
  h !! l = Some o -> bindings o !! name = Some v -> resolve h l name = Some v.
Proof. intros Ho Hv. unfold resolve. simpl. by rewrite Ho, Hv. Qed.

(** C4: [define] with an argument count other than two, or with a first
    argument that is not an identifier, is a syntax error.  Otherwise the
    second argument is evaluated in the given scope, and its value is
    returned and stored under the name as an own binding of the scope
    object given: that object keeps its prototype and its other bindings,
    no other scope object, ancestor or not, changes, nothing is printed,
    and the name resolves to the value from that scope. *)
Theorem define_special_form (scope : loc) (st : state) :
  (forall args,
     length args <> 2 \/ (forall name, args !! 0 <> Some (ValidIdentifier name)) ->
     evaluates (Apply (ValidIdentifier (js "define")) args) scope st
       (Throw badDefine) st) /\
  (forall name arg1 v st1,
     evaluates arg1 scope st (Ok v) st1 ->
     exists st2,
       evaluates (Apply (ValidIdentifier (js "define"))
                    [ValidIdentifier name; arg1]) scope st (Ok v) st2 /\
       output st2 = output st1 /\
       length (heap st2) = length (heap st1) /\
       (forall l, l <> scope -> heap st2 !! l = heap st1 !! l) /\
       (forall o, heap st1 !! scope = Some o ->
          exists o', heap st2 !! scope = Some o' /\
            proto o' = proto o /\
            bindings o' !! name = Some v /\
            (forall other, other <> name ->
               bindings o' !! other = bindings o !! other) /\
            resolve (heap st2) scope name = Some v)).
Proof.
  split.
  - intros args Hbad. exists 1. split; [|done].
    rewrite (evaluate_special_form 0 _ Define) by done. simpl.
    by rewrite specialFormDefine_malformed.
  - intros name arg1 v st1 (n & Hn & _).
    exists (setProperty scope name v st1). split; [|split; [|split; [|split]]].
    + exists (S n). split; [|done].
      rewrite (evaluate_special_form n _ Define) by done. simpl.
      unfold bind. by rewrite Hn.
    + done.
    + simpl. apply length_alter.
    + intros l Hl. by apply setProperty_other.
    + intros o Ho. exists (setOwn name v o).
      pose proof (setProperty_same scope name v st1 o Ho) as Hsame.
      split; [done|]. split; [done|].
      assert (bindings (setOwn name v o) !! name = Some v) as Hown
        by apply lookup_insert_eq.
      split; [done|]. split.
      * intros other Hne. simpl. by apply lookup_insert_ne.
      * eapply resolve_own; eauto.
Qed.

Lemma define_special_form_witness :
  let st0 := (objectCreate TOP initialState).2 in
  exists st2,
    evaluates (Apply (ValidIdentifier (js "define"))
                 [ValidIdentifier (js "true"); Value (LNum 5)]) 1 st0
      (Ok (VNum 5)) st2 /\
    heap st2 !! TOP = Some topScope /\
    resolve (heap st2) 1 (js "true") = Some (VNum 5) /\
    resolve (heap st2) TOP (js "true") = Some (VBool true).
Proof.
  intros st0.
  destruct (proj2 (define_special_form 1 st0) (js "true") (Value (LNum 5))
              (VNum 5) st0 ltac:(finishes_with 1))
    as (st2 & Hev & _ & _ & Hother & Hown).
  exists st2. split; [exact Hev|].
  assert (heap st2 !! TOP = Some topScope) as Htop.
  { rewrite (Hother TOP) by done. reflexivity. }
  split; [exact Htop|]. split.
  - destruct (Hown _ eq_refl) as (o' & _ & _ & _ & _ & Hres). exact Hres.
  - eapply resolve_own; [exact Htop|]. vm_compute. reflexivity.
Defined.

(** C10: an application whose operator is the bare identifier if, while,
    do, define or fun is handed to the handler of that special form with
    its unevaluated arguments, in every state and scope, so also where the
    name has been bound to a value in the current scope or in any other
    scope object: the table of special forms is consulted before, and
    instead of, the scope.  After define(if, 5) the identifier
    if evaluates to 5, and if(true, 1, 2) still gives 1. *)
Theorem special_form_priority :
  specialFormNamed (js "if") = Some If /\
  specialFormNamed (js "while") = Some While /\
  specialFormNamed (js "do") = Some Do /\
  specialFormNamed (js "define") = Some Define /\
  specialFormNamed (js "fun") = Some Fun /\
  (forall name f fuel args scope st,
     specialFormNamed name = Some f ->
     evaluate (S fuel) (Apply (ValidIdentifier name) args) scope st
     = specialForms (evaluate fuel) fuel f args scope st) /\
  (forall name f v l fuel args scope st,
     specialFormNamed name = Some f ->
     let st' := setProperty l name v st in
     evaluate (S fuel) (Apply (ValidIdentifier name) args) scope st'
     = specialForms (evaluate fuel) fuel f args scope st') /\
  (run 4 (js "do(define(if, 5), if)") initialState).1 = Ok (VNum 5) /\
  (run 4 (js "do(define(if, 5), if(true, 1, 2))") initialState).1
  = Ok (VNum 1) /\
  (run 4 (js "do(define(iff, 5), iff(true, 1, 2))") initialState).1
  = Throw notAFunction.
Proof.
  do 5 (split; [reflexivity|]).
  split; [|split; [|split; [|split]; vm_compute; reflexivity]].
  - intros name f fuel args scope st H.
    by rewrite evaluate_special_form with (f := f).
  - intros name f v l fuel args scope st H st'.
    by rewrite evaluate_special_form with (f := f).
Qed.

Lemma special_form_priority_witness :
  let st0 := (objectCreate TOP initialState).2 in
  let st1 := setProperty 1 (js "do") (VNum 5) st0 in
  resolve (heap st1) 1 (js "do") = Some (VNum 5) /\
  evaluate 3 (Apply (ValidIdentifier (js "do")) [Value (LNum 1); Value (LNum 2)])
    1 st1 = (Ok (VNum 2), st1).
Proof.
  intros st0 st1. split; [vm_compute; reflexivity|].
  destruct special_form_priority as (_ & _ & _ & _ & _ & _ & Hbound & _).
  rewrite (Hbound (js "do") Do (VNum 5) 1 2 _ 1 st0 eq_refl).
  vm_compute. reflexivity.
Defined.

(** ** Closures *)

Lemma bind_fold l pairs st :
  heap (foldl (fun s pa => setProperty l pa.1 pa.2 s) st pairs)
  = alter (bindOwn pairs) l (heap st) /\
  output (foldl (fun s pa => setProperty l pa.1 pa.2 s) st pairs) = output st.
Proof.
  revert st. induction pairs as [|pa rest IH]; intros st.
  - split; [|done]. simpl. symmetry. by apply list_alter_id.
  - destruct (IH (setProperty l pa.1 pa.2 st)) as [Hh Ho].
    cbn [foldl]. split; [|by rewrite Ho].
    rewrite Hh. unfold setProperty. cbn [heap].
    by rewrite list_alter_alter_eq.
Qed.

Lemma bindOwn_proto pairs o : proto (bindOwn pairs o) = proto o.
Proof.
  revert o. induction pairs as [|pa rest IH]; intros o; [done|].
  unfold bindOwn in *. simpl. by rewrite IH.
Qed.

Lemma bindOwn_bindings pairs o :
  bindings (bindOwn pairs o)
  = foldl (fun m pa => <[pa.1 := pa.2]> m) (bindings o) pairs.
Proof.
  revert o. induction pairs as [|pa rest IH]; intros o; [done|].
  change (bindOwn (pa :: rest) o) with (bindOwn rest (setOwn pa.1 pa.2 o)).
  by rewrite IH.
Qed.

Lemma bindOwn_absent pairs o name :
  name ∉ pairs.*1 ->
  bindings (bindOwn pairs o) !! name = bindings o !! name.
Proof.
  revert o. induction pairs as [|[p v] rest IH]; intros o Hno; [done|].
  apply not_elem_of_cons in Hno as [Hne Hno].
  unfold bindOwn in *. simpl. rewrite IH by done.
  simpl. by apply lookup_insert_ne.
Qed.

Lemma bindOwn_last pairs o i name v :
  pairs !! i = Some (name, v) ->
  (forall j pa, i < j -> pairs !! j = Some pa -> pa.1 <> name) ->
  bindings (bindOwn pairs o) !! name = Some v.
Proof.
  revert o i. induction pairs as [|pa rest IH]; intros o i Hi Hlast; [done|].
  destruct i as [|i].
  - injection Hi as ->. change (bindOwn ((name, v) :: rest) o)
      with (bindOwn rest (setOwn name v o)).
    rewrite bindOwn_absent; [apply lookup_insert_eq|].
    intros ([n' v'] & Hn & Hin)%list_elem_of_fmap. simpl in Hn. subst n'.
    apply list_elem_of_lookup in Hin as [j Hj].
    by apply (Hlast (S j) (name, v') ltac:(lia) Hj).
  - change (bindOwn (pa :: rest) o) with (bindOwn rest (setOwn pa.1 pa.2 o)).
    apply (IH _ i Hi). intros j pa' Hj Hpa.
    apply (Hlast (S j) pa' ltac:(lia) Hpa).
Qed.

Lemma bindParameters_state l params vs st o :
  heap (bindParameters l params vs
          {| heap := heap st ++ [o]; output := output st |})
  = alter (bindOwn (zip params vs)) l (heap st ++ [o]) /\
  output (bindParameters l params vs
            {| heap := heap st ++ [o]; output := output st |})
  = output st.
Proof.
  exact (bind_fold l (zip params vs)
           {| heap := heap st ++ [o]; output := output st |}).
Qed.

Lemma callFunction_closure ev params body captured vs st :
  length vs = length params ->
  callFunction ev (VClosure params body captured) vs st
  = ev body (length (heap st))
      (bindParameters (length (heap st)) params vs (objectCreate captured st).2).
Proof.
  intros Hlen. simpl. by rewrite Hlen, Nat.eqb_refl.
Qed.

Lemma specialFormFun_closure args body params scope st :
  last args = Some body ->
  parameterNames (take (length args - 1) args) = Some params ->
  specialFormFun args scope st = (Ok (VClosure params body scope), st).
Proof. intros Hb Hp. unfold specialFormFun. by rewrite Hb, Hp. Qed.

Lemma parameterNames_names names :
  parameterNames (ValidIdentifier <$> names) = Some names.
Proof. induction names as [|x names IH]; csimpl; [done|]. by rewrite IH. Qed.

Lemma fun_parts (params : list expr) body :
  last (params ++ [body]) = Some body /\
  take (length (params ++ [body]) - 1) (params ++ [body]) = params.
Proof.
  split; [apply last_snoc|].
  rewrite length_app. simpl.
  replace (length params + 1 - 1) with (length params) by lia.
  by rewrite take_app_length.
Qed.

Lemma evaluate_fun fuel names body scope st :
  evaluate (S fuel)
    (Apply (ValidIdentifier (js "fun")) ((ValidIdentifier <$> names) ++ [body]))
    scope st
  = (Ok (VClosure names body scope), st).
Proof.
  rewrite (evaluate_special_form fuel _ Fun) by done.
  destruct (fun_parts (ValidIdentifier <$> names) body) as [Hl Ht].
  apply specialFormFun_closure; [done|]. by rewrite Ht, parameterNames_names.
Qed.

(** C3: [fun] applied to k names and a body makes the closure of exactly
    those k names, in their order, the body and the scope it is evaluated
    in; applying that expression to arguments calls this closure with
    their values.  Calling a closure with a number of arguments other than
    its number of parameters is a type error.  With the right number, a
    new scope object is appended to the heap, its prototype is the scope
    captured by the closure, its bindings are the parameter names bound
    in order to the arguments at the same positions (so the last one
    stays for a name listed twice) and nothing else, and the call
    finishes exactly as the body does in that new scope.  The curried sum
    of 3 and 4 is 7, and the two parameters of a difference are bound in
    the order written. *)
Theorem closure_invocation :
  (forall fuel names body scope st,
     evaluate (S fuel)
       (Apply (ValidIdentifier (js "fun")) ((ValidIdentifier <$> names) ++ [body]))
       scope st
     = (Ok (VClosure names body scope), st)) /\
  (forall names body args scope st vs st1 r st2,
     argumentsEvaluate scope args st vs st1 ->
     calls (VClosure names body scope) vs st1 r st2 ->
     evaluates
       (Apply (Apply (ValidIdentifier (js "fun"))
                 ((ValidIdentifier <$> names) ++ [body])) args)
       scope st r st2) /\
  (forall params body captured vs st,
     length vs <> length params ->
     calls (VClosure params body captured) vs st (Throw wrongArity) st) /\
  (forall params body captured vs st,
     length vs = length params ->
     exists st1 o,
       heap st1 = heap st ++ [o] /\
       output st1 = output st /\
       proto o = Some captured /\
       bindings o = foldl (fun m pa => <[pa.1 := pa.2]> m) ∅ (zip params vs) /\
       (forall i name v,
          params !! i = Some name -> vs !! i = Some v ->
          (forall j, i < j -> params !! j <> Some name) ->
          bindings o !! name = Some v) /\
       (forall name, name ∉ params -> bindings o !! name = None) /\
       (forall r st',
          calls (VClosure params body captured) vs st r st'
          <-> evaluates body (length (heap st)) st1 r st')) /\
  (run 6 (js "fun(a, fun(b, +(a,b)))(3)(4)") initialState).1 = Ok (VNum 7) /\
  (run 6 (js "fun(a, b, -(a, b))(5, 3)") initialState).1 = Ok (VNum 2) /\
  (run 6 (js "fun(a, b, -(a, b))(5)") initialState).1 = Throw wrongArity.
Proof.
  split; [|split; [|split; [|split;
    [|repeat split; vm_compute; reflexivity]]]].
  - apply evaluate_fun.
  - intros names body args scope st vs st1 r st2 Hargs Hcall.
    apply (application_calls _ _ _ _ (VClosure names body scope) st vs st1);
      try done.
    exists 1. split; [apply evaluate_fun|done].
  - intros params body captured vs st Hlen. exists 0. split; [|done].
    simpl. apply Nat.eqb_neq in Hlen. by rewrite Hlen.
  - intros params body captured vs st Hlen.
    set (o0 := {| bindings := ∅; proto := Some captured |}).
    destruct (bindParameters_state (length (heap st)) params vs st o0)
      as [Hheap Hout].
    exists (bindParameters (length (heap st)) params vs (objectCreate captured st).2),
      (bindOwn (zip params vs) o0).
    split; [|split; [|split; [|split; [|split; [|split]]]]].
    + unfold objectCreate. cbn [snd]. fold o0. rewrite Hheap.
      replace (length (heap st)) with (length (heap st) + 0) at 1 by lia.
      by rewrite alter_app_r.
    + exact Hout.
    + by rewrite bindOwn_proto.
    + by rewrite bindOwn_bindings.
    + intros i name v Hp Hv Hlast.
      apply (bindOwn_last _ _ i).
      * apply lookup_zip_with_Some. eauto.
      * intros j [p' v'] Hj [x [y (Heq & Hx & _)]]%lookup_zip_with_Some.
        injection Heq as -> ->. simpl. intros ->. by apply (Hlast j Hj).
    + intros name Hno. rewrite bindOwn_absent; [done|].
      by rewrite fst_zip by lia.
    + intros r st'. unfold calls, evaluates.
      split; intros (n & Hn & Hr); exists n; (split; [|done]).
      * by rewrite callFunction_closure in Hn.
      * by rewrite callFunction_closure.
Qed.

Lemma closure_invocation_witness :
  let st0 := (objectCreate TOP initialState).2 in
  let body := Apply (ValidIdentifier (js "-"))
                [ValidIdentifier (js "a"); ValidIdentifier (js "b")] in
  let function := Apply (ValidIdentifier (js "fun"))
                    [ValidIdentifier (js "a"); ValidIdentifier (js "b"); body] in
  let closure := VClosure [js "a"; js "b"] body 1 in
  evaluate 1 function 1 st0 = (Ok closure, st0) /\
  evaluates (Apply function [Value (LNum 5)]) 1 st0 (Throw wrongArity) st0 /\
  calls closure [VNum 5; VNum 3; VNum 1] st0 (Throw wrongArity) st0 /\
  exists st1,
    evaluates (Apply function [Value (LNum 5); Value (LNum 3)]) 1 st0
      (Ok (VNum 2)) st1 /\
    st1.(heap) !! 2 = Some {| bindings := {[ js "a" := VNum 5; js "b" := VNum 3 ]};
                            proto := Some 1 |}.
Proof.
  intros st0 body function closure.
  destruct closure_invocation as (Hfun & Happly & Harity & Hcall & _).
  split; [exact (Hfun 0 [js "a"; js "b"] body 1 st0)|].
  split.
  { apply (Happly [js "a"; js "b"] body [Value (LNum 5)] 1 st0 [VNum 5] st0).
    - apply arguments_cons with (st1 := st0); [finishes_with 1|].
      apply arguments_nil.
    - apply Harity. simpl. lia. }
  split; [apply Harity; simpl; lia|].
  exists (evaluate 3 body 2
            (bindParameters 2 [js "a"; js "b"] [VNum 5; VNum 3]
               (objectCreate 1 st0).2)).2.
  split; [|vm_compute; reflexivity].
  apply (Happly [js "a"; js "b"] body [Value (LNum 5); Value (LNum 3)] 1 st0
           [VNum 5; VNum 3] st0).
  - apply arguments_cons with (st1 := st0); [finishes_with 1|].
    apply arguments_cons with (st1 := st0); [finishes_with 1|].
    apply arguments_nil.
  - destruct (Hcall [js "a"; js "b"] body 1 [VNum 5; VNum 3] st0 eq_refl)
      as (st1 & o & _ & _ & _ & _ & _ & _ & Hiff).
    exists 3. split; [|done]. vm_compute. reflexivity.
Defined.

(** ** Built-in functions *)

Lemma resolve_element :
  resolve (heap initialState) TOP (js "element") = Some (VBuiltin Element).
Proof. vm_compute. reflexivity. Qed.

(** C6, as amended: for an array and an index below zero or at least the
    number of elements, the function bound to element in the root scope
    does not fail: it returns the undefined value and leaves the state as
    it is.  In particular element(array(), 0) evaluates to undefined. *)
Theorem element_out_of_range :
  (forall ev values i st,
     (i < 0 \/ Z.of_nat (length values) <= i)%Z ->
     callFunction ev (VBuiltin Element) [VArray values; VNum i] st
     = (Ok VUndefined, st)) /\
  resolve (heap initialState) TOP (js "element") = Some (VBuiltin Element) /\
  (run 3 (js "element(array(), 0)") initialState).1 = Ok VUndefined.
Proof.
  split; [|split; [apply resolve_element | vm_compute; reflexivity]].
  intros ev values i st Hi. simpl. unfold lift, argument. simpl.
  destruct (0 <=? i)%Z eqn:Hpos; [|done].
  destruct Hi as [Hi|Hi]; [lia|].
  rewrite lookup_ge_None_2; [done|]. lia.
Qed.

Lemma element_out_of_range_witness :
  callFunction (evaluate 0) (VBuiltin Element)
    [VArray [VNum 10; VNum 20; VNum 30]; VNum 3] initialState
  = (Ok VUndefined, initialState) /\
  callFunction (evaluate 0) (VBuiltin Element)
    [VArray [VNum 10; VNum 20; VNum 30]; VNum (-1)] initialState
  = (Ok VUndefined, initialState).
Proof.
  split; apply (proj1 element_out_of_range); simpl; lia.
Defined.

Lemma run_mono n m program st r st' :
  n <= m -> run n program st = (r, st') -> r <> OutOfFuel ->
  run m program st = (r, st').
Proof.
  intros Hnm. unfold run. destruct (parse program) as [e|err| |]; try done.
  simpl. apply (evaluate_mono n m Hnm).
Qed.

(** C6, as written, fails: element(array(), 0) returns the undefined
    value, and no amount of fuel makes it fail. *)
Lemma element_empty_array_counterexample :
  run 3 (js "element(array(), 0)") initialState
  = (Ok VUndefined, (objectCreate TOP initialState).2) /\
  forall fuel err st',
    run fuel (js "element(array(), 0)") initialState <> (Throw err, st').
Proof.
  assert (run 3 (js "element(array(), 0)") initialState
          = (Ok VUndefined, (objectCreate TOP initialState).2)) as H3
    by (vm_compute; reflexivity).
  split; [exact H3|].
  intros fuel err st' H.
  destruct (le_lt_dec 3 fuel) as [Hle|Hlt].
  - rewrite (run_mono 3 fuel _ _ _ _ Hle H3) in H; [discriminate H|done].
  - destruct fuel as [|[|[|fuel]]]; [| | |lia]; vm_compute in H; discriminate H.
Qed.

(** ** The scopes a run can reach *)

Lemma value_nested_ind (P : value -> Prop) :
  (forall n, P (VNum n)) ->
  (forall s, P (VStr s)) ->
  (forall b, P (VBool b)) ->
  P VUndefined ->
  (forall f, P (VBuiltin f)) ->
  (forall params body scope, P (VClosure params body scope)) ->
  (forall values, Forall P values -> P (VArray values)) ->
  forall v, P v.
Proof.
  intros Hn Hs Hb Hu Hf Hc Ha. fix IH 1.
  intros [n|s|b| |f|params body scope|values].
  - apply Hn.
  - apply Hs.
  - apply Hb.
  - apply Hu.
  - apply Hf.
  - apply Hc.
  - apply Ha. induction values as [|v values IHvalues]; constructor.
    + apply IH.
    + apply IHvalues.
Qed.

Lemma closuresWithin_mono k n n' v :
  n <= n' -> closuresWithin k n v = true -> closuresWithin k n' v = true.
Proof.
  intros Hn. induction v as [| | | | |params body scope|values IH]
    using value_nested_ind; simpl; try done.
  - rewrite !andb_true_iff, !Nat.leb_le, !Nat.ltb_lt. lia.
  - induction IH as [|v values Hv _ IHvalues]; simpl; [done|].
    rewrite !andb_true_iff. intros [H1 H2]. auto.
Qed.

Lemma okValue_mono k n n' v : n <= n' -> okValue k n v -> okValue k n' v.
Proof. apply closuresWithin_mono. Qed.

Lemma okValues_mono k n n' vs : n <= n' -> okValues k n vs -> okValues k n' vs.
Proof.
  intros Hn. unfold okValues. induction vs as [|v vs IH]; simpl; [done|].
  rewrite !andb_true_iff. intros [H1 H2].
  eauto using closuresWithin_mono.
Qed.

Lemma okValues_lookup k n vs i v :
  okValues k n vs -> vs !! i = Some v -> okValue k n v.
Proof.
  unfold okValues, okValue. intros H Hi.
  rewrite forallb_forall in H. apply H.
  apply list_elem_of_In. eapply list_elem_of_lookup_2. exact Hi.
Qed.

Lemma okValue_argument k n vs i :
  okValues k n vs -> okValue k n (argument i vs).
Proof.
  intros H. unfold argument. destruct (vs !! i) as [v|] eqn:Hi; [|done].
  simpl. eauto using okValues_lookup.
Qed.

Lemma frame_refl k st : frame k st st.
Proof. by split. Qed.

Lemma frame_trans k st1 st2 st3 :
  frame k st1 st2 -> frame k st2 st3 -> frame k st1 st3.
Proof.
  intros [Hl1 Hf1] [Hl2 Hf2]. split; [lia|].
  intros l Hl. by rewrite Hf2, Hf1.
Qed.

Lemma sound_bind {A B} k n0 (okA : nat -> A -> Prop) (okB : nat -> B -> Prop)
  (m : M A) (f : A -> M B) :
  sound k n0 okA m ->
  (forall a n1, n0 <= n1 -> okA n1 a -> sound k n1 okB (f a)) ->
  sound k n0 okB (bind m f).
Proof.
  intros Hm Hf st r st' Hinv Hn H. unfold bind in H.
  destruct (m st) as [ra st1] eqn:E.
  destruct (Hm _ _ _ Hinv Hn E) as (Hinv1 & Hfr1 & Hok).
  destruct ra as [a|err| |].
  - pose proof Hfr1 as [Hlen1 _].
    destruct (Hf a (length (heap st1)) ltac:(lia) (Hok a eq_refl)
                st1 r st' Hinv1 (le_n _) H) as (Hinv2 & Hfr2 & Hok2).
    split; [done|]. split; [|done]. eauto using frame_trans.
  - injection H as <- <-. split; [done|]. split; [done|]. discriminate.
  - injection H as <- <-. split; [done|]. split; [done|]. discriminate.
  - injection H as <- <-. split; [done|]. split; [done|]. discriminate.
Qed.

Lemma sound_lift {A} k n0 (okA : nat -> A -> Prop) (r : outcome A) :
  (forall a n, r = Ok a -> n0 <= n -> okA n a) -> sound k n0 okA (lift r).
Proof.
  intros Hok st r' st' Hinv Hn [= <- <-].
  split; [done|]. split; [apply frame_refl|]. intros a Ha. by apply Hok.
Qed.

Lemma sound_ret {A} k n0 (okA : nat -> A -> Prop) (a : A) :
  (forall n, n0 <= n -> okA n a) -> sound k n0 okA (ret a).
Proof.
  intros Hok. apply (sound_lift k n0 okA (Ok a)).
  intros a' n [= <-]. apply Hok.
Qed.

Lemma sound_throw {A} k n0 (okA : nat -> A -> Prop) err :
  sound k n0 okA (throw err).
Proof. by apply (sound_lift k n0 okA (Throw err)). Qed.

Lemma sound_outOfFuel {A} k n0 (okA : nat -> A -> Prop) :
  sound k n0 okA outOfFuel.
Proof. by apply (sound_lift k n0 okA OutOfFuel). Qed.

Lemma topScope_closed k n name v :
  bindings topScope !! name = Some v -> closuresWithin k n v = true.
Proof.
  unfold topScope. cbn [bindings]. intros H%elem_of_list_to_map_2.
  repeat (apply elem_of_cons in H as [H|H]; [by injection H as _ ->|]).
  by apply elem_of_nil in H.
Qed.

Lemma getProperty_ok k st fuel l name v :
  runInvariant k st -> k <= l \/ l = TOP ->
  getProperty fuel (heap st) l name = Some v ->
  okValue k (length (heap st)) v.
Proof.
  intros (Hk & Htop & Hobjs). revert l.
  induction fuel as [|fuel IH]; intros l Hl; simpl; [done|].
  destruct (heap st !! l) as [o|] eqn:Ho; [|done].
  destruct (bindings o !! name) as [w|] eqn:Hw.
  - intros [= ->]. destruct Hl as [Hl| ->].
    + by apply (proj1 (Hobjs l o Hl Ho) name).
    + rewrite Htop in Ho. injection Ho as <-. by eapply topScope_closed.
  - destruct (proto o) as [p|] eqn:Hp; [|done].
    apply IH. destruct Hl as [Hl| ->].
    + destruct (proj2 (Hobjs l o Hl Ho)) as [[Hp' _]|(p' & Hp' & Hrange)];
        rewrite Hp in Hp'; injection Hp' as ->; [by right|left; lia].
    + rewrite Htop in Ho. by injection Ho as <-.
Qed.

Lemma setProperty_invariant k l name v st :
  runInvariant k st -> k <= l -> okValue k (length (heap st)) v ->
  runInvariant k (setProperty l name v st) /\
  frame k st (setProperty l name v st) /\
  length (heap (setProperty l name v st)) = length (heap st).
Proof.
  intros (Hk & Htop & Hobjs) Hl Hv.
  assert (length (heap (setProperty l name v st)) = length (heap st)) as Hlen
    by apply length_alter.
  split; [|split; [|done]].
  - split; [lia|]. split.
    + rewrite setProperty_other; [done|]. unfold TOP. lia.
    + intros l' o' Hl' Ho'. rewrite Hlen.
      destruct (decide (l' = l)) as [->|Hne].
      * destruct (heap st !! l) as [o|] eqn:Ho.
        -- rewrite (setProperty_same _ _ _ _ _ Ho) in Ho'.
           injection Ho' as <-. destruct (Hobjs l o Hl Ho) as [Hb Hp].
           split; [|done]. intros name' v'. simpl.
           rewrite lookup_insert. case_decide.
           ++ by intros [= <-].
           ++ apply Hb.
        -- unfold setProperty in Ho'. cbn [heap] in Ho'.
           rewrite list_lookup_alter_eq, Ho in Ho'. done.
      * rewrite setProperty_other in Ho' by done. by apply Hobjs.
  - split; [lia|]. intros l' Hl'. apply setProperty_other. lia.
Qed.

Lemma objectWithin_mono k n n' l o :
  n <= n' -> objectWithin k n l o -> objectWithin k n' l o.
Proof.
  intros Hn [Hb Hp]. split; [|done].
  intros name v Hv. eauto using closuresWithin_mono.
Qed.

Lemma objectCreate_invariant k parent st :
  runInvariant k st -> k <= parent < length (heap st) ->
  runInvariant k (objectCreate parent st).2 /\
  frame k st (objectCreate parent st).2 /\
  length (heap (objectCreate parent st).2) = S (length (heap st)).
Proof.
  intros (Hk & Htop & Hobjs) Hparent.
  unfold runInvariant, frame, objectCreate. cbn [snd heap].
  assert (length (heap st ++ [ {| bindings := ∅; proto := Some parent |} ])
          = S (length (heap st))) as Hlen.
  { rewrite length_app. simpl. lia. }
  split; [|split; [|done]].
  - split; [lia|]. split.
    + rewrite lookup_app_l by (unfold TOP; lia). done.
    + intros l o Hl Ho. rewrite Hlen.
      destruct (decide (l < length (heap st))) as [Hlt|Hge].
      * rewrite lookup_app_l in Ho by done.
        eapply objectWithin_mono; [|by apply Hobjs]. lia.
      * rewrite lookup_app_r in Ho by lia.
        destruct (l - length (heap st)) as [|d] eqn:Hd; [|done].
        injection Ho as <-. split.
        -- intros name v. cbn [bindings]. by rewrite lookup_empty.
        -- right. exists parent. split; [done|]. lia.
  - split; [lia|]. intros l Hl. rewrite lookup_app_l by lia. done.
Qed.

Lemma bindParameters_invariant k l params vs st :
  runInvariant k st -> k <= l -> okValues k (length (heap st)) vs ->
  runInvariant k (bindParameters l params vs st) /\
  frame k st (bindParameters l params vs st) /\
  length (heap (bindParameters l params vs st)) = length (heap st).
Proof.
  intros Hinv Hl. revert vs st Hinv.
  induction params as [|p params IH]; intros vs st Hinv Hvs.
  { split; [done|]. split; [apply frame_refl|done]. }
  destruct vs as [|v vs].
  { split; [done|]. split; [apply frame_refl|done]. }
  unfold okValues in Hvs. simpl in Hvs. apply andb_true_iff in Hvs as [Hv Hvs].
  destruct (setProperty_invariant k l p v st Hinv Hl Hv) as (Hinv1 & Hfr1 & Hlen1).
  change (bindParameters l (p :: params) (v :: vs) st)
    with (bindParameters l params vs (setProperty l p v st)).
  destruct (IH vs (setProperty l p v st) Hinv1) as (Hinv2 & Hfr2 & Hlen2).
  { by rewrite Hlen1. }
  split; [done|]. split; [eauto using frame_trans|]. by rewrite Hlen2.
Qed.

Lemma binaryOperator_closed k n f a b v :
  binaryOperator f a b = Ok v -> closuresWithin k n v = true.
Proof.
  unfold binaryOperator, number. intros H.
  destruct f, a, b; try discriminate H;
    repeat case_match; try discriminate H; by injection H as <-.
Qed.

Lemma lengthOf_closed k n a v :
  lengthOf a = Ok v -> closuresWithin k n v = true.
Proof. destruct a; simpl; intros H; try discriminate H; by injection H as <-. Qed.

Lemma elementOf_closed k n a i v :
  okValue k n a -> elementOf a i = Ok v -> okValue k n v.
Proof.
  unfold okValue. intros Ha H.
  destruct a as [x|s|b| |f|params body scope|values];
    destruct i as [j|t|c| |g|params' body' scope'|values'];
    simpl in H; try discriminate H; inversion H; subst; clear H; try done.
  - by repeat case_match.
  - case_match; [|done].
    destruct (values !! Z.to_nat j) as [w|] eqn:Hw; [|done].
    simpl. eapply okValues_lookup; [exact Ha|exact Hw].
Qed.

Lemma callBuiltin_sound k n0 f vs :
  okValues k n0 vs -> sound k n0 (okValue k) (callBuiltin f vs).
Proof.
  intros Hvs. destruct f; unfold callBuiltin;
    try (apply sound_lift; intros a n Ha Hn;
         by apply (binaryOperator_closed k n _ _ _ _ Ha)).
  - intros st r st' Hinv Hn H.
    unfold bind, consoleLog, ret in H. injection H as <- <-.
    split; [exact Hinv|]. split; [by split|].
    intros a Ha. injection Ha as <-. apply okValue_argument.
    eapply okValues_mono; [|exact Hvs]. exact Hn.
  - apply sound_ret. intros n Hn. by apply (okValues_mono k n0 n).
  - apply sound_lift. intros a n Ha Hn. by apply (lengthOf_closed k n _ _ Ha).
  - apply sound_lift. intros a n Ha Hn.
    eapply elementOf_closed; [|exact Ha].
    apply okValue_argument. by apply (okValues_mono k n0 n).
Qed.

Lemma sound_setProperty k n0 scope name v :
  k <= scope -> okValue k n0 v ->
  sound k n0 (okValue k) (fun st => (Ok v, setProperty scope name v st)).
Proof.
  intros Hscope Hv st r st' Hinv Hn [= <- <-].
  assert (okValue k (length (heap st)) v) as Hv'
    by (eapply okValue_mono; [exact Hn|exact Hv]).
  destruct (setProperty_invariant k scope name v st Hinv Hscope Hv')
    as (Hinv1 & Hfr1 & Hlen1).
  split; [done|]. split; [done|]. intros a [= <-]. by rewrite Hlen1.
Qed.

Section Keeps.

Variable k : nat.
Variable ev : expr -> loc -> M value.
Hypothesis Hev : keeps k ev.

Lemma evaluateArgs_sound args scope n0 :
  k <= scope < n0 -> sound k n0 (okValues k) (evaluateArgs ev args scope).
Proof.
  revert n0. induction args as [|arg rest IH]; intros n0 Hscope; simpl.
  { by apply sound_ret. }
  eapply sound_bind; [by apply Hev|]. intros v n1 Hn1 Hv.
  eapply sound_bind; [apply IH; lia|]. intros vs n2 Hn2 Hvs.
  apply sound_ret. intros n Hn. unfold okValues. simpl.
  apply andb_true_iff. split.
  - apply (closuresWithin_mono k n1 n); [lia|exact Hv].
  - apply (okValues_mono k n2 n); [lia|exact Hvs].
Qed.

Lemma specialFormIf_sound args scope n0 :
  k <= scope < n0 -> sound k n0 (okValue k) (specialFormIf ev args scope).
Proof.
  intros Hscope.
  destruct args as [|a0 [|a1 [|a2 [|a3 rest]]]]; simpl;
    try apply sound_throw.
  eapply sound_bind; [by apply Hev|]. intros c n1 Hn1 _.
  destruct (isNotFalse c); apply Hev; lia.
Qed.

Lemma whileLoop_sound fuel cond body scope n0 :
  k <= scope < n0 ->
  sound k n0 (okValue k) (whileLoop ev fuel cond body scope).
Proof.
  revert n0. induction fuel as [|fuel IH]; intros n0 Hscope; simpl.
  { apply sound_outOfFuel. }
  eapply sound_bind; [by apply Hev|]. intros c n1 Hn1 _.
  destruct (isNotFalse c); [|by apply sound_ret].
  eapply sound_bind; [apply Hev; lia|]. intros _ n2 Hn2 _.
  apply IH. lia.
Qed.

Lemma doLoop_sound args scope val n0 :
  k <= scope < n0 -> okValue k n0 val ->
  sound k n0 (okValue k) (doLoop ev args scope val).
Proof.
  revert val n0. induction args as [|arg rest IH]; intros val n0 Hscope Hval;
    simpl.
  { apply sound_ret. intros n Hn. by apply (okValue_mono k n0 n). }
  eapply sound_bind; [by apply Hev|]. intros v n1 Hn1 Hv.
  apply IH; [lia|done].
Qed.

Lemma specialFormDefine_sound args scope n0 :
  k <= scope < n0 -> sound k n0 (okValue k) (specialFormDefine ev args scope).
Proof.
  intros Hscope.
  destruct args as [|[l|name|op oargs] [|a1 [|a2 rest]]]; simpl;
    try apply sound_throw.
  eapply sound_bind; [by apply Hev|]. intros v n1 Hn1 Hv.
  apply sound_setProperty; [lia|done].
Qed.

Lemma specialFormFun_sound args scope n0 :
  k <= scope < n0 -> sound k n0 (okValue k) (specialFormFun args scope).
Proof.
  intros Hscope. unfold specialFormFun.
  destruct (last args) as [body|]; [|apply sound_throw].
  destruct (parameterNames _) as [params|]; [|apply sound_throw].
  apply sound_ret. intros n Hn. unfold okValue. simpl.
  apply andb_true_iff. rewrite Nat.leb_le, Nat.ltb_lt. lia.
Qed.

Lemma callFunction_sound f vs n0 :
  okValue k n0 f -> okValues k n0 vs ->
  sound k n0 (okValue k) (callFunction ev f vs).
Proof.
  intros Hf Hvs.
  destruct f as [n|s|b| |b|params body scope|values]; simpl;
    try apply sound_throw.
  { by apply callBuiltin_sound. }
  destruct (negb (length vs =? length params)); [apply sound_throw|].
  unfold okValue in Hf. simpl in Hf.
  apply andb_true_iff in Hf as [Hk1 Hk2].
  apply Nat.leb_le in Hk1. apply Nat.ltb_lt in Hk2.
  intros st r st' Hinv Hn H.
  destruct (objectCreate_invariant k scope st Hinv ltac:(lia))
    as (Hinv1 & Hfr1 & Hlen1).
  pose proof Hinv as ((_ & Hkn) & _).
  destruct (bindParameters_invariant k (length (heap st)) params vs
              (objectCreate scope st).2 Hinv1 Hkn)
    as (Hinv2 & Hfr2 & Hlen2).
  { eapply okValues_mono; [|exact Hvs]. lia. }
  destruct (Hev body (length (heap st)) (S (length (heap st))) ltac:(lia)
              _ r st' Hinv2 ltac:(lia) H) as (Hinv3 & Hfr3 & Hok3).
  split; [done|]. split; [|done].
  eauto using frame_trans.
Qed.

Lemma evaluateStep_keeps loopFuel : keeps k (evaluateStep ev loopFuel).
Proof.
  intros [l|name|operator args] scope n0 Hscope; simpl.
  - apply sound_lift. intros a n Ha Hn.
    destruct l; simpl in Ha.
    + unfold number in Ha. case_match; [|done]. by injection Ha as <-.
    + by injection Ha as <-.
    + done.
  - intros st r st' Hinv Hn H.
    destruct (resolve (heap st) scope name) as [v|] eqn:Hres.
    + injection H as <- <-. split; [done|]. split; [apply frame_refl|].
      intros a [= <-]. eapply getProperty_ok; [done| |exact Hres]. left. lia.
    + injection H as <- <-. split; [done|]. split; [apply frame_refl|done].
  - destruct (specialFormOf operator) as [[| | | |]|]; simpl.
    + by apply specialFormIf_sound.
    + destruct args as [|a0 [|a1 [|a2 rest]]]; simpl; try apply sound_throw.
      by apply whileLoop_sound.
    + by apply doLoop_sound.
    + by apply specialFormDefine_sound.
    + by apply specialFormFun_sound.
    + eapply sound_bind; [by apply Hev|]. intros op n1 Hn1 Hop.
      destruct (isFunction op); [|apply sound_throw].
      eapply sound_bind; [apply evaluateArgs_sound; lia|].
      intros vs n2 Hn2 Hvs.
      apply callFunction_sound; [|done].
      by apply (okValue_mono k n1 n2).
Qed.

End Keeps.

Lemma evaluate_keeps k fuel : keeps k (evaluate fuel).
Proof.
  induction fuel as [|fuel IH].
  - intros e scope n0 Hscope. apply sound_outOfFuel.
  - by apply evaluateStep_keeps.
Qed.

Lemma getProperty_fuel_enough k st name fuel1 fuel2 l :
  runInvariant k st -> k <= l \/ l = TOP ->
  l < fuel1 -> l < fuel2 ->
  getProperty fuel1 (heap st) l name = getProperty fuel2 (heap st) l name.
Proof.
  intros (Hk & Htop & Hobjs). revert fuel2 l.
  induction fuel1 as [|fuel1 IH]; intros fuel2 l Hl H1 H2; [lia|].
  destruct fuel2 as [|fuel2]; [lia|]. simpl.
  destruct (heap st !! l) as [o|] eqn:Ho; [|done].
  destruct (bindings o !! name) as [w|]; [done|].
  destruct (proto o) as [p|] eqn:Hp; [|done].
  destruct Hl as [Hl| ->].
  - destruct (proj2 (Hobjs l o Hl Ho)) as [[Hp' ->]|(p' & Hp' & Hrange)];
      rewrite Hp in Hp'; injection Hp' as ->.
    + apply IH; [by right|unfold TOP; lia..].
    + apply IH; [left|..]; lia.
  - rewrite Htop in Ho. by injection Ho as <-.
Qed.

(** In the states of a run, the walk of [resolve] along the prototypes
    always reaches the end of the chain: more fuel finds nothing else. *)
Lemma resolve_fuel_enough k st name fuel l :
  runInvariant k st -> k <= l \/ l = TOP -> l < fuel ->
  getProperty fuel (heap st) l name = resolve (heap st) l name.
Proof.
  intros Hinv Hl Hfuel. unfold resolve.
  apply (getProperty_fuel_enough k); auto.
Qed.

Lemma child_invariant st :
  heap st !! TOP = Some topScope ->
  runInvariant (length (heap st)) (objectCreate TOP st).2.
Proof.
  intros Htop. pose proof (lookup_lt_Some _ _ _ Htop) as Hlen.
  unfold runInvariant, objectCreate. cbn [snd heap].
  rewrite length_app. simpl. split; [lia|]. split.
  - by rewrite lookup_app_l.
  - intros l o Hl Ho.
    destruct (decide (l = length (heap st))) as [->|Hne].
    + rewrite list_lookup_middle in Ho by done. injection Ho as <-.
      split; [|by left]. intros name v. cbn [bindings]. by rewrite lookup_empty.
    + apply lookup_lt_Some in Ho. rewrite length_app in Ho. simpl in Ho. lia.
Qed.




(** ** Sample runs *)

Example run_sample :
  run 20 (js "do(define(x, array(1, 2)), print(x))") initialState =
  (Ok (VArray [VNum 1; VNum 2]),
   {| heap := [topScope;
               {| bindings := {[ js "x" := VArray [VNum 1; VNum 2] ]};
                  proto := Some TOP |}];
      output := [VArray [VNum 1; VNum 2]] |}).
Proof. vm_compute. reflexivity. Qed.

Example run_closure_sees_later_define :
  (run 8 (js "do(define(x, 1), define(f, fun(y, +(x, y))), define(x, 10), f(5))")
     initialState).1 = Ok (VNum 15).
Proof. vm_compute. reflexivity. Qed.

Example run_sequencing :
  let r := run 5 (js "do(print(1), print(2), 3)") initialState in
  r.1 = Ok (VNum 3) /\ output r.2 = [VNum 1; VNum 2].
Proof. split; vm_compute; reflexivity. Qed.

Example run_lexical_scope :
  (run 9 (js "do(define(x, 1), define(f, fun(+(x, 0))), define(g, fun(x, f())), g(100))")
     initialState).1 = Ok (VNum 1).
Proof. vm_compute. reflexivity. Qed.

Example run_arity :
  (run 6 (js "fun(a, b, +(a, b))(1)") initialState).1 = Throw wrongArity /\
  (run 6 (js "fun(a, b, +(a, b))(1, 2, 3)") initialState).1 = Throw wrongArity /\
  (run 6 (js "if(true, 1)") initialState).1 = Throw ifArity /\
  (run 6 (js "if(true, 1, 2, 3)") initialState).1 = Throw ifArity.
Proof. repeat split; vm_compute; reflexivity. Qed.

Example run_array_builtins :
  (run 6 (js "length(array(1,2,3))") initialState).1 = Ok (VNum 3) /\
  (run 6 (js "element(array(10,20,30), 1)") initialState).1 = Ok (VNum 20).
Proof. split; vm_compute; reflexivity. Qed.

(** * Further properties of the parser *)

Lemma skipSpace_blank (s : jsstring) :
  forallb isSpace s = true -> skipSpace s = [].
Proof.
  intros Hs. rewrite <- (app_nil_r s). by rewrite skipSpace_app_spaces.
Qed.

(** X1: [skipSpace] removes exactly the leading whitespace: the text is a
    run of whitespace followed by the result, the result is empty or
    starts with a code unit that is not whitespace, and a text of
    whitespace only gives the empty text. *)
Theorem skipSpace_removes_leading_whitespace (s : jsstring) :
  (exists sp, s = sp ++ skipSpace s /\ forallb isSpace sp = true) /\
  match skipSpace s with [] => True | c :: _ => isSpace c = false end /\
  (forallb isSpace s = true <-> skipSpace s = []).
Proof.
  split; [apply skipSpace_split|]. split.
  - destruct (skipSpace s) as [|c t] eqn:Hs; [done|].
    by apply skipSpace_head in Hs.
  - split.
    + apply skipSpace_blank.
    + intros Hs. destruct (skipSpace_split s) as (sp & Hsp & Hspace).
      rewrite Hs, app_nil_r in Hsp. by subst.
Qed.

Lemma parse_outcomes n :
  (forall p r, parseExpression n p = r -> finished r -> okOrSyntaxError r) /\
  (forall e p r, parseApply n e p = r -> finished r -> okOrSyntaxError r) /\
  (forall p args r, parseArgs n p args = r -> finished r -> okOrSyntaxError r).
Proof.
  induction n as [|n (IHe & IHa & IHl)].
  { repeat split; intros; simpl in *; subst; unfold finished in *; congruence. }
  split; [|split].
  - intros p r H Hfin. simpl in H.
    destruct (matchAtom (skipSpace p)) as [[e rest]|]; [by eapply IHa|].
    by subst r.
  - intros e p r H Hfin. simpl in H.
    destruct (negb (startsWith LPAREN (skipSpace p))); [by subst r|].
    destruct (parseArgs n (skipSpace (drop 1 (skipSpace p))) [])
      as [[args p2]|err| |] eqn:HL.
    + by eapply IHa.
    + subst r. by apply (IHl _ _ _ HL).
    + subst r. by apply (IHl _ _ _ HL).
    + subst r. by destruct Hfin.
  - intros p args r H Hfin. simpl in H.
    destruct (startsWith RPAREN p); [by subst r|].
    destruct (parseExpression n p) as [[arg rest]|err| |] eqn:HE.
    + destruct (startsWith COMMA (skipSpace rest)); [by eapply IHl|].
      destruct (negb (startsWith RPAREN (skipSpace rest))); [by subst r|].
      by eapply IHl.
    + subst r. by apply (IHe _ _ HE).
    + subst r. by apply (IHe _ _ HE).
    + subst r. by destruct Hfin.
Qed.

(** X2: the parser terminates on every text.  With fuel of three times
    the length of the text plus two, [parseExpression] finishes; any
    amount of fuel with which it finishes gives the same answer; that
    answer is a tree or a syntax error; and the remainder that comes with
    a tree is a strictly shorter suffix of the text. *)
Theorem parser_terminates (program : jsstring) :
  finished (parseExpr program) /\
  okOrSyntaxError (parseExpr program) /\
  (forall fuel, 3 * length program + 2 <= fuel ->
     parseExpression fuel program = parseExpr program) /\
  (forall fuel r, parseExpression fuel program = r -> finished r ->
     r = parseExpr program) /\
  (forall e rest, parseExpr program = Ok (e, rest) ->
     length rest < length program /\ rest `suffix_of` program).
Proof.
  split; [apply parseExpr_finished|]. split; [|split; [|split]].
  - eapply (proj1 (parse_outcomes _)); [done|apply parseExpr_finished].
  - intros fuel Hfuel. by apply parseExpression_enough.
  - intros fuel r H Hfin. symmetry. by eapply parseExpression_finished.
  - intros e rest H. split.
    + by eapply (proj1 (parse_fuel_facts _)); [exact H| |done].
    + destruct (parseExpr_local _ _ _ H) as (_ & pre & -> & _).
      by exists pre.
Qed.

Lemma parser_terminates_witness :
  length (js ", x") < length (js "f(1), x") /\ js ", x" `suffix_of` js "f(1), x".
Proof.
  apply (proj2 (proj2 (proj2 (proj2 (parser_terminates (js "f(1), x")))))
           (Apply (ValidIdentifier (js "f")) [Value (LNum 1)]) (js ", x")).
  vm_compute. reflexivity.
Defined.

(** X3: a program of whitespace only, the empty program included, is
    rejected with the message kept for an empty input. *)
Theorem blank_program_rejected (program : jsstring) :
  forallb isSpace program = true ->
  parse program
  = Throw (SyntaxError (js "Unexpected syntax: you typed nothing")).
Proof.
  intros Hblank. unfold parse. rewrite parseExpr_eq.
  by rewrite (skipSpace_blank program Hblank).
Qed.

Lemma blank_program_rejected_witness :
  parse [] = Throw (SyntaxError (js "Unexpected syntax: you typed nothing")) /\
  parse [32; 10; 9]%N
  = Throw (SyntaxError (js "Unexpected syntax: you typed nothing")).
Proof.
  split; apply blank_program_rejected; reflexivity.
Defined.

Lemma parse_rest_no_lparen n :
  (forall p e rest, parseExpression n p = Ok (e, rest) ->
     startsWith LPAREN rest = false) /\
  (forall e0 p e rest, parseApply n e0 p = Ok (e, rest) ->
     startsWith LPAREN rest = false).
Proof.
  induction n as [|n (IHe & IHa)]; [by split|]. split.
  - intros p e rest H. simpl in H.
    destruct (matchAtom (skipSpace p)) as [[e0 rest0]|]; [|done].
    by eapply IHa.
  - intros e0 p e rest H. simpl in H.
    destruct (negb (startsWith LPAREN (skipSpace p))) eqn:Hp.
    + injection H as <- <-. by apply negb_true_iff.
    + destruct (parseArgs n (skipSpace (drop 1 (skipSpace p))) [])
        as [[args p2]| | |]; try done.
      by eapply IHa.
Qed.

(** X4: what [parseExpression] leaves over never starts with whitespace
    or with an opening parenthesis, so every application suffix has been
    read; [parse] accepts a program exactly when [parseExpression] leaves
    nothing over, and otherwise reports the text left over. *)
Theorem parse_consumes_whole_program (program : jsstring) :
  (forall e rest, parseExpr program = Ok (e, rest) ->
     skipSpace rest = rest /\ startsWith LPAREN rest = false) /\
  (forall e, parse program = Ok e <-> parseExpr program = Ok (e, [])) /\
  (forall e rest, parseExpr program = Ok (e, rest) -> rest <> [] ->
     parse program = Throw (unexpectedText rest)).
Proof.
  assert (forall e rest, parseExpr program = Ok (e, rest) ->
            skipSpace rest = rest) as Hfix.
  { intros e rest H. by destruct (parseExpr_local _ _ _ H). }
  split; [|split].
  - intros e rest H. split; [by eapply Hfix|].
    by eapply (proj1 (parse_rest_no_lparen _)).
  - intros e. unfold parse.
    destruct (parseExpr program) as [[e' rest]|err| |] eqn:H;
      [|by split..].
    rewrite (Hfix _ _ eq_refl). destruct rest as [|c rest]; simpl.
    + split; by intros [= ->].
    + split; [done|]. by intros [= _ ?].
  - intros e rest H Hne. unfold parse. rewrite H, (Hfix _ _ H).
    by destruct rest.
Qed.

Lemma parse_consumes_whole_program_witness :
  parse (js "a b") = Throw (unexpectedText (js "b")).
Proof.
  apply (proj2 (proj2 (parse_consumes_whole_program (js "a b")))
           (ValidIdentifier (js "a")) (js "b")); [|done].
  vm_compute. reflexivity.
Defined.

(** X5: inside an argument list, an argument followed by anything but a
    comma or a closing parenthesis, the end of the text included, is a
    syntax error, whatever arguments were read before it; so a call whose
    first argument is followed by such a text is rejected. *)
Theorem argument_separator_required program args arg rest :
  parseExpr program = Ok (arg, rest) ->
  startsWith COMMA rest = false ->
  startsWith RPAREN rest = false ->
  parseArguments program args = Throw expectedCommaOrParen /\
  forall operator,
    parseApp operator (LPAREN :: program) = Throw expectedCommaOrParen.
Proof.
  intros Harg Hc Hr.
  assert (skipSpace rest = rest) as Hfix
    by (by destruct (parseExpr_local _ _ _ Harg)).
  assert (forall text args0, parseExpr text = Ok (arg, rest) ->
            parseArguments text args0 = Throw expectedCommaOrParen) as Hloop.
  { intros text args0 Htext.
    rewrite parseArguments_eq, (parseExpr_not_rparen _ _ _ Htext), Htext.
    by rewrite Hfix, Hc, Hr. }
  split; [by apply Hloop|].
  intros operator. rewrite parseApp_eq.
  change (skipSpace (LPAREN :: program)) with (LPAREN :: program).
  rewrite startsWith_same. cbn [negb].
  change (drop 1 (LPAREN :: program)) with program.
  rewrite Hloop; [done|].
  by rewrite parseExpr_eq, skipSpace_idem, <- parseExpr_eq.
Qed.

Lemma argument_separator_required_witness :
  parse (js "f(a b)") = Throw expectedCommaOrParen /\
  parse (js "f(a") = Throw expectedCommaOrParen.
Proof.
  pose proof (proj2 (argument_separator_required (js "a b)") []
                       (ValidIdentifier (js "a")) (js "b)")
                       ltac:(vm_compute; reflexivity) eq_refl eq_refl)
                (ValidIdentifier (js "f"))) as H1.
  pose proof (proj2 (argument_separator_required (js "a") []
                       (ValidIdentifier (js "a")) []
                       ltac:(vm_compute; reflexivity) eq_refl eq_refl)
                (ValidIdentifier (js "f"))) as H2.
  split.
  - unfold parse. rewrite parseExpr_eq.
    change (matchAtom (skipSpace (js "f(a b)")))
      with (Some (ValidIdentifier (js "f"), LPAREN :: js "a b)")).
    cbv iota beta. by rewrite H1.
  - unfold parse. rewrite parseExpr_eq.
    change (matchAtom (skipSpace (js "f(a")))
      with (Some (ValidIdentifier (js "f"), LPAREN :: js "a")).
    cbv iota beta. by rewrite H2.
Defined.

Lemma parseApp_nil e : parseApp e [] = Ok (e, []).
Proof. by rewrite parseApp_eq. Qed.

(** X6: a string literal reads back as written.  For every text without
    a double quote, that text between two double quotes, after any
    leading whitespace, parses to the string literal with that very text,
    whatever else it contains, and running it gives that string and no
    more than the fresh scope of the run. *)
Theorem string_literal_round_trip ws s :
  forallb isSpace ws = true ->
  forallb notQuote s = true ->
  parse (ws ++ QUOTE :: s ++ [QUOTE]) = Ok (Value (LStr s)) /\
  forall fuel st,
    run (S fuel) (ws ++ QUOTE :: s ++ [QUOTE]) st
    = (Ok (VStr s), (objectCreate TOP st).2).
Proof.
  intros Hws Hs.
  assert (parse (ws ++ QUOTE :: s ++ [QUOTE]) = Ok (Value (LStr s))) as Hparse.
  { unfold parse. rewrite parseExpr_eq, skipSpace_app_spaces by done.
    rewrite (skipSpace_nonspace QUOTE) by done.
    assert (matchAtom (QUOTE :: s ++ [QUOTE]) = Some (Value (LStr s), []))
      as ->.
    { unfold matchAtom, matchString. rewrite startsWith_same.
      change (drop 1 (QUOTE :: s ++ [QUOTE])) with (s ++ [QUOTE]).
      by rewrite span_app. }
    by rewrite parseApp_nil. }
  split; [done|]. intros fuel st. unfold run. by rewrite Hparse.
Qed.

Lemma string_literal_round_trip_witness :
  parse (js "  " ++ QUOTE :: js "a(b), #c" ++ [QUOTE])
  = Ok (Value (LStr (js "a(b), #c"))) /\
  run 1 (QUOTE :: js "abc" ++ [QUOTE]) initialState
  = (Ok (VStr (js "abc")), (objectCreate TOP initialState).2).
Proof.
  split.
  - apply (string_literal_round_trip (js "  ") (js "a(b), #c")); reflexivity.
  - apply (proj2 (string_literal_round_trip [] (js "abc") eq_refl eq_refl)).
Defined.

(** X7: a run of decimal digits, after any leading whitespace, parses to
    the number literal that the host's Number makes of it, which is never
    negative.  When the decimal value of the digits is at most 2^53 the
    literal holds exactly that value, and running the program gives that
    number. *)
Theorem number_literal_round_trip ws digits :
  forallb isSpace ws = true ->
  digits <> [] ->
  forallb isDigit digits = true ->
  parse (ws ++ digits) = Ok (Value (Number digits)) /\
  (forall m, Number digits = LNum m -> (0 <= m)%Z) /\
  ((decimalValue digits <= 2 ^ 53)%Z ->
   parse (ws ++ digits) = Ok (Value (LNum (decimalValue digits))) /\
   forall fuel st,
     run (S fuel) (ws ++ digits) st
     = (Ok (VNum (decimalValue digits)), (objectCreate TOP st).2)).
Proof.
  intros Hws Hne Hd.
  assert (skipSpace digits = digits) as Hfix.
  { destruct digits as [|d ds]; [done|]. apply skipSpace_nonspace.
    simpl in Hd. apply andb_true_iff in Hd as [Hd _].
    apply isDigit_isIdentChar in Hd.
    unfold isIdentChar in Hd. rewrite negb_true_iff, !orb_false_iff in Hd.
    tauto. }
  assert (parse (ws ++ digits) = Ok (Value (Number digits))) as Hparse.
  { unfold parse. rewrite parseExpr_eq, skipSpace_app_spaces, Hfix by done.
    assert (matchAtom digits = Some (Value (Number digits), [])) as ->.
    { unfold matchAtom.
      pose proof (matchNumber_digits digits [] Hne Hd I) as Hn.
      rewrite app_nil_r in Hn. rewrite Hn.
      destruct digits as [|d ds]; [done|]. simpl in Hd.
      apply andb_true_iff in Hd as [Hd _].
      by rewrite (matchString_digit d ds Hd). }
    by rewrite parseApp_nil. }
  split; [done|]. split.
  { intros m. apply roundToDouble_nonneg, decimalValue_nonneg. }
  intros Hle.
  assert (Number digits = LNum (decimalValue digits)) as Hexact
    by by apply roundToDouble_exact.
  rewrite Hexact in Hparse. split; [done|].
  intros fuel st. unfold run. rewrite Hparse.
  cbn [objectCreate evaluate evaluateStep literalValue].
  unfold lift, number. pose proof (decimalValue_nonneg digits).
  rewrite Z.abs_eq by done.
  by destruct (Z.leb_spec (decimalValue digits) (2 ^ 53)); [|lia].
Qed.

Lemma number_literal_round_trip_witness :
  parse (js " 0042") = Ok (Value (LNum 42)) /\
  run 1 (js "1972") initialState
  = (Ok (VNum 1972), (objectCreate TOP initialState).2) /\
  parse (js "9007199254740993") = Ok (Value (LNum 9007199254740992)).
Proof.
  split; [|split].
  - apply (proj2 (proj2 (number_literal_round_trip (js " ") (js "0042") eq_refl
                           ltac:(done) eq_refl))).
    vm_compute. discriminate.
  - apply (proj2 (proj2 (number_literal_round_trip [] (js "1972") eq_refl
                           ltac:(done) eq_refl))).
    vm_compute. discriminate.
  - apply (proj1 (number_literal_round_trip [] (js "9007199254740993") eq_refl
                    ltac:(done) eq_refl)).
Defined.

(** X8: whitespace before a program changes nothing: the tree, the text
    left over and the error, if any, are the same. *)
Theorem leading_whitespace_ignored ws program :
  forallb isSpace ws = true ->
  parseExpr (ws ++ program) = parseExpr program /\
  parse (ws ++ program) = parse program.
Proof.
  intros Hws.
  assert (parseExpr (ws ++ program) = parseExpr program) as H.
  { by rewrite !parseExpr_eq, skipSpace_app_spaces. }
  split; [done|]. unfold parse. by rewrite H.
Qed.

Lemma leading_whitespace_ignored_witness :
  parse ([10; 32; 32]%N ++ js "f(x") = parse (js "f(x") /\
  parse ([9]%N ++ js "+(1, 2)") = parse (js "+(1, 2)").
Proof.
  split; apply leading_whitespace_ignored; reflexivity.
Defined.

Lemma matchAtom_wellFormed p e rest :
  matchAtom p = Some (e, rest) -> wellFormed e = true.
Proof.
  unfold matchAtom.
  destruct (matchString p) as [[s r]|] eqn:Hstr.
  { intros [= <- <-]. unfold matchString in Hstr.
    destruct (startsWith QUOTE p); [|done].
    destruct (span notQuote (drop 1 p)) as [body r1] eqn:Hs.
    destruct (startsWith QUOTE r1); [|done]. injection Hstr as <- <-.
    by apply span_spec in Hs as (_ & Hbody & _). }
  destruct (matchNumber p) as [[ds r]|] eqn:Hnum.
  { intros [= <- <-]. cbn [wellFormed].
    destruct (Number ds) as [m|s|] eqn:Hm; [|by destruct (roundToDouble_number _ _ Hm)|done].
    apply Z.leb_le. eapply roundToDouble_nonneg; [apply decimalValue_nonneg|exact Hm]. }
  unfold matchIdentifier.
  destruct (span isIdentChar p) as [name r] eqn:Hs.
  apply span_spec in Hs as (_ & Hname & _).
  destruct name as [|x name]; [done|]. intros [= <- <-].
  simpl in *. exact Hname.
Qed.

Lemma parse_wellFormed n :
  (forall p e rest, parseExpression n p = Ok (e, rest) ->
     wellFormed e = true) /\
  (forall e0 p e rest, wellFormed e0 = true ->
     parseApply n e0 p = Ok (e, rest) -> wellFormed e = true) /\
  (forall p args args' rest, forallb wellFormed args = true ->
     parseArgs n p args = Ok (args', rest) ->
     forallb wellFormed args' = true).
Proof.
  induction n as [|n (IHe & IHa & IHl)]; [by repeat split|].
  split; [|split].
  - intros p e rest H. simpl in H.
    destruct (matchAtom (skipSpace p)) as [[e0 rest0]|] eqn:Hm; [|done].
    eapply IHa; [|exact H]. by eapply matchAtom_wellFormed.
  - intros e0 p e rest He0 H. simpl in H.
    destruct (negb (startsWith LPAREN (skipSpace p))).
    { by injection H as <- <-. }
    destruct (parseArgs n (skipSpace (drop 1 (skipSpace p))) [])
      as [[args p2]| | |] eqn:HL; try done.
    eapply IHa; [|exact H]. simpl. rewrite He0. simpl.
    by apply (IHl _ [] _ _ eq_refl HL).
  - intros p args args' rest Hargs H. simpl in H.
    destruct (startsWith RPAREN p); [by injection H as <- <-|].
    destruct (parseExpression n p) as [[arg rest1]| | |] eqn:HE; try done.
    assert (forallb wellFormed (args ++ [arg]) = true) as Hargs'.
    { rewrite forallb_app, Hargs. simpl. by rewrite (IHe _ _ _ HE). }
    destruct (startsWith COMMA (skipSpace rest1)); [by eapply IHl|].
    destruct (negb (startsWith RPAREN (skipSpace rest1))); [done|].
    by eapply IHl.
Qed.

(** X9: every tree the parser returns is well formed: its number
    literals are not negative, its string literals hold no double quote,
    and each of its names is a nonempty run of code units that are not
    whitespace, parentheses, comma, hash sign or double quote. *)
Theorem parsed_tree_well_formed program e :
  parse program = Ok e -> wellFormed e = true.
Proof.
  unfold parse. destruct (parseExpr program) as [[e' rest]| | |] eqn:H;
    try done.
  destruct (0 <? length (skipSpace rest)); [done|]. intros [= <-].
  by eapply (proj1 (parse_wellFormed _)).
Qed.

Lemma parsed_tree_well_formed_witness :
  wellFormed (Apply (ValidIdentifier (js "do"))
                [Apply (ValidIdentifier (js "define"))
                   [ValidIdentifier (js "x"); Value (LNum 10)];
                 Apply (ValidIdentifier (js "print"))
                   [ValidIdentifier (js "x")]]) = true.
Proof.
  apply (parsed_tree_well_formed (js "do(define(x, 10), print(x))")).
  vm_compute. reflexivity.
Defined.

(** * Further properties of the evaluator *)

Lemma failureOf_same {A} (r : outcome A) : isFailure r -> failureOf r = r.
Proof. intros H. destruct r as [a| | |]; [by destruct (H a)|done..]. Qed.

Lemma bind_failure {A B} (m : M A) (k : A -> M B) st r st' :
  m st = (r, st') -> isFailure r -> bind m k st = (failureOf r, st').
Proof.
  intros H Hr. unfold bind. rewrite H.
  destruct r as [a| | |]; [by destruct (Hr a)|done..].
Qed.

Lemma evaluateArgs_abort scope pre arg post st vs st1 r st2 :
  argumentsEvaluate scope pre st vs st1 ->
  evaluates arg scope st1 r st2 -> isFailure r ->
  exists n, forall m, n <= m ->
    evaluateArgs (evaluate m) (pre ++ arg :: post) scope st
    = (failureOf r, st2).
Proof.
  intros Hpre (n2 & Harg)%evaluates_more_fuel Hr.
  induction Hpre as [st|a rest st v st1 vs st3 Hv _ IH].
  - exists n2. intros m Hm. simpl.
    by apply bind_failure; [apply Harg|].
  - destruct (IH Harg) as (n1 & IH').
    apply evaluates_more_fuel in Hv as (n0 & Hv).
    exists (n0 + n1). intros m Hm. simpl. unfold bind at 1.
    rewrite Hv by lia. unfold bind. rewrite IH' by lia.
    by destruct r as [a'| | |]; [destruct (Hr a')|..].
Qed.

(** X10: an error in an argument ends the call.  When the operator has
    given a function and the arguments before some argument have given
    their values, an outcome of that argument that is not a value is the
    outcome of the whole application, in the state that argument left:
    the arguments after it are not evaluated and the function is not
    called. *)
Theorem argument_failure_ends_call operator pre arg post scope st
    op st1 vs st2 r st3 :
  specialFormOf operator = None ->
  evaluates operator scope st (Ok op) st1 ->
  isFunction op = true ->
  argumentsEvaluate scope pre st1 vs st2 ->
  evaluates arg scope st2 r st3 ->
  isFailure r ->
  evaluates (Apply operator (pre ++ arg :: post)) scope st r st3.
Proof.
  intros Hop (n1 & H1)%evaluates_more_fuel Hf Hpre Harg Hr.
  pose proof Harg as (n0 & _ & Hfin).
  destruct (evaluateArgs_abort scope pre arg post _ _ _ _ _ Hpre Harg Hr)
    as (n2 & H2).
  exists (S (n1 + n2)). split; [|done].
  rewrite evaluate_apply by done. unfold bind at 1.
  rewrite H1, Hf by lia.
  rewrite (bind_failure _ _ _ _ _ (H2 (n1 + n2) ltac:(lia))).
  - by destruct r as [a| | |]; [destruct (Hr a)|..].
  - intros a. by destruct r as [a'| | |]; [destruct (Hr a')|..].
Qed.

Lemma argument_failure_ends_call_witness :
  let st0 := (objectCreate TOP initialState).2 in
  let st1 := {| heap := heap st0; output := [VNum 1] |} in
  evaluates
    (Apply (ValidIdentifier (js "array"))
       [Apply (ValidIdentifier (js "print")) [Value (LNum 1)];
        ValidIdentifier (js "missing");
        Apply (ValidIdentifier (js "print")) [Value (LNum 3)]])
    1 st0 (Throw (undefinedBinding (js "missing"))) st1.
Proof.
  intros st0 st1.
  apply (argument_failure_ends_call (ValidIdentifier (js "array"))
           [Apply (ValidIdentifier (js "print")) [Value (LNum 1)]]
           (ValidIdentifier (js "missing"))
           [Apply (ValidIdentifier (js "print")) [Value (LNum 3)]]
           1 st0 (VBuiltin ArrayOf) st0 [VNum 1] st1).
  - reflexivity.
  - finishes_with 1.
  - reflexivity.
  - apply arguments_cons with (st1 := st1); [finishes_with 3|].
    apply arguments_nil.
  - finishes_with 1.
  - intros a. discriminate.
Defined.

Lemma doLoop_values scope args st vs st' :
  argumentsEvaluate scope args st vs st' ->
  exists n, forall m val, n <= m ->
    doLoop (evaluate m) args scope val st
    = (Ok (default val (last vs)), st').
Proof.
  induction 1 as [st|arg rest st v st1 vs st2 Hv _ (n2 & IH)].
  - by exists 0.
  - apply evaluates_more_fuel in Hv as (n1 & Hv).
    exists (n1 + n2). intros m val Hm. simpl. unfold bind.
    rewrite Hv, IH by lia. rewrite last_cons.
    by destruct (last vs).
Qed.

Lemma doLoop_abort scope pre arg post st vs st1 r st2 :
  argumentsEvaluate scope pre st vs st1 ->
  evaluates arg scope st1 r st2 -> isFailure r ->
  exists n, forall m val, n <= m ->
    doLoop (evaluate m) (pre ++ arg :: post) scope val st = (r, st2).
Proof.
  intros Hpre (n2 & Harg)%evaluates_more_fuel Hr.
  induction Hpre as [st|a rest st v st1 vs st3 Hv _ IH].
  - exists n2. intros m val Hm. simpl.
    rewrite (bind_failure _ _ _ _ _ (Harg m Hm) Hr).
    by rewrite failureOf_same.
  - destruct (IH Harg) as (n1 & IH').
    apply evaluates_more_fuel in Hv as (n0 & Hv).
    exists (n0 + n1). intros m val Hm. simpl. unfold bind at 1.
    rewrite Hv by lia. apply IH'. lia.
Qed.

(** X11: [do] evaluates its arguments from left to right, each in the
    state the one before left, and gives the value of the last one, or
    false when it has no argument; the first argument that does not give
    a value ends it with that outcome, and the arguments after it are not
    evaluated. *)
Theorem do_special_form (scope : loc) (st : state) :
  (forall args vs st',
     argumentsEvaluate scope args st vs st' ->
     evaluates (Apply (ValidIdentifier (js "do")) args) scope st
       (Ok (default (VBool false) (last vs))) st') /\
  (forall pre arg post vs st1 r st2,
     argumentsEvaluate scope pre st vs st1 ->
     evaluates arg scope st1 r st2 -> isFailure r ->
     evaluates (Apply (ValidIdentifier (js "do")) (pre ++ arg :: post))
       scope st r st2).
Proof.
  split.
  - intros args vs st' (n & H)%doLoop_values.
    exists (S n). split; [|done].
    rewrite (evaluate_special_form n _ Do) by done. by apply H.
  - intros pre arg post vs st1 r st2 Hpre Harg Hr.
    pose proof Harg as (n0 & _ & Hfin).
    destruct (doLoop_abort scope pre arg post _ _ _ _ _ Hpre Harg Hr)
      as (n & H).
    exists (S n). split; [|done].
    rewrite (evaluate_special_form n _ Do) by done. by apply H.
Qed.

Lemma do_special_form_witness :
  let st0 := (objectCreate TOP initialState).2 in
  let st1 := {| heap := heap st0; output := [VNum 1] |} in
  evaluates (Apply (ValidIdentifier (js "do")) []) 1 st0 (Ok (VBool false)) st0
  /\
  evaluates
    (Apply (ValidIdentifier (js "do"))
       [Apply (ValidIdentifier (js "print")) [Value (LNum 1)]; Value (LNum 2)])
    1 st0 (Ok (VNum 2)) st1 /\
  evaluates
    (Apply (ValidIdentifier (js "do"))
       [Apply (ValidIdentifier (js "print")) [Value (LNum 1)];
        ValidIdentifier (js "missing"); Value (LNum 2)])
    1 st0 (Throw (undefinedBinding (js "missing"))) st1.
Proof.
  intros st0 st1. destruct (do_special_form 1 st0) as [Hvalues Habort].
  split; [|split].
  - apply (Hvalues [] [] st0). apply arguments_nil.
  - apply (Hvalues _ [VNum 1; VNum 2] st1).
    apply arguments_cons with (st1 := st1); [finishes_with 3|].
    apply arguments_cons with (st1 := st1); [finishes_with 1|].
    apply arguments_nil.
  - apply (Habort [Apply (ValidIdentifier (js "print")) [Value (LNum 1)]]
             (ValidIdentifier (js "missing")) [Value (LNum 2)] [VNum 1] st1).
    + apply arguments_cons with (st1 := st1); [finishes_with 3|].
      apply arguments_nil.
    + finishes_with 1.
    + intros a. discriminate.
Defined.

Lemma isNotFalse_true v : v <> VBool false -> isNotFalse v = true.
Proof. by destruct v as [| |[|]| | | |]. Qed.

Lemma whileLoop_false ev k cond body scope st v st' :
  whileLoop ev k cond body scope st = (Ok v, st') -> v = VBool false.
Proof.
  revert st. induction k as [|k IH]; intros st; simpl; [done|].
  unfold bind. destruct (ev cond scope st) as [[c| | |] st1]; try done.
  destruct (isNotFalse c).
  - destruct (ev body scope st1) as [[w| | |] st2]; try done. apply IH.
  - by intros [= <- _].
Qed.

Lemma evaluate_while fuel cond body scope :
  evaluate (S fuel) (Apply (ValidIdentifier (js "while")) [cond; body]) scope
  = whileLoop (evaluate fuel) fuel cond body scope.
Proof. by rewrite (evaluate_special_form fuel _ While). Qed.

(** X12: [while] with an argument count other than two is a syntax
    error.  When it gives a value, the value is false.  When the condition
    gives false, the loop ends there with false, in the state the
    condition left.  When the condition gives another value and the body
    gives a value, the loop goes on from the state the body left exactly
    as a loop started there. *)
Theorem while_special_form (scope : loc) (st : state) :
  (forall args, length args <> 2 ->
     evaluates (Apply (ValidIdentifier (js "while")) args) scope st
       (Throw whileArity) st) /\
  (forall cond body v st',
     evaluates (Apply (ValidIdentifier (js "while")) [cond; body]) scope st
       (Ok v) st' ->
     v = VBool false) /\
  (forall cond body st1,
     evaluates cond scope st (Ok (VBool false)) st1 ->
     evaluates (Apply (ValidIdentifier (js "while")) [cond; body]) scope st
       (Ok (VBool false)) st1) /\
  (forall cond body c st1 v st2 r st',
     evaluates cond scope st (Ok c) st1 -> c <> VBool false ->
     evaluates body scope st1 (Ok v) st2 ->
     evaluates (Apply (ValidIdentifier (js "while")) [cond; body]) scope st
       r st'
     <-> evaluates (Apply (ValidIdentifier (js "while")) [cond; body]) scope
           st2 r st').
Proof.
  split; [|split; [|split]].
  - intros args Hlen. exists 1. split; [|done].
    rewrite (evaluate_special_form 0 _ While) by done.
    by destruct args as [|a0 [|a1 [|a2 rest]]].
  - intros cond body v st' (n & Hn & _)%evaluates_finished_fuel.
    rewrite evaluate_while in Hn. by eapply whileLoop_false.
  - intros cond body st1 (n & Hn)%evaluates_more_fuel.
    exists (S (S n)). split; [|done].
    rewrite evaluate_while. cbn [whileLoop]. unfold bind.
    by rewrite Hn by lia.
  - intros cond body c st1 v st2 r st' Hc Hne Hb.
    apply isNotFalse_true in Hne. split.
    + intros (n & Hn & Hr)%evaluates_finished_fuel.
      rewrite evaluate_while in Hn.
      destruct n as [|k]; [simpl in Hn; unfold outOfFuel in Hn; congruence|].
      cbn [whileLoop] in Hn. unfold bind in Hn.
      destruct (evaluate (S k) cond scope st) as [rc st1'] eqn:Ec.
      assert (rc <> OutOfFuel) as Hrc by (intros ->; congruence).
      destruct (evaluate_finished_agrees _ _ _ _ _ _ _ _ Ec Hrc Hc) as [-> ->].
      rewrite Hne in Hn.
      destruct (evaluate (S k) body scope st1) as [rb st2'] eqn:Eb.
      assert (rb <> OutOfFuel) as Hrb by (intros ->; congruence).
      destruct (evaluate_finished_agrees _ _ _ _ _ _ _ _ Eb Hrb Hb) as [-> ->].
      exists (S (S k)). split; [|done]. rewrite evaluate_while.
      apply (whileLoop_mle (evaluate (S k)) (evaluate (S k))
               ltac:(by intros ? ?; apply mle_refl) k (S k) cond body scope
               ltac:(lia)); done.
    + intros (n3 & Hn & Hr)%evaluates_finished_fuel.
      rewrite evaluate_while in Hn.
      apply evaluates_more_fuel in Hc as (n1 & H1).
      apply evaluates_more_fuel in Hb as (n2 & H2).
      exists (S (S (n1 + n2 + n3))). split; [|done].
      rewrite evaluate_while. cbn [whileLoop]. unfold bind.
      rewrite H1, Hne, H2 by lia.
      apply (whileLoop_mle (evaluate n3) (evaluate (S (n1 + n2 + n3)))
               (evaluate_mono n3 (S (n1 + n2 + n3)) ltac:(lia))
               n3 (n1 + n2 + n3) cond body scope
               ltac:(lia)); done.
Qed.

Lemma while_special_form_witness :
  let st0 := (objectCreate TOP initialState).2 in
  let cond := ValidIdentifier (js "go") in
  let body := Apply (ValidIdentifier (js "define"))
                [ValidIdentifier (js "go"); ValidIdentifier (js "false")] in
  let st1 := setProperty 1 (js "go") (VBool true) st0 in
  let st2 := setProperty 1 (js "go") (VBool false) st1 in
  evaluates (Apply (ValidIdentifier (js "while")) [cond]) 1 st0
    (Throw whileArity) st0 /\
  evaluates (Apply (ValidIdentifier (js "while")) [cond; body]) 1 st1
    (Ok (VBool false)) st2.
Proof.
  intros st0 cond body st1 st2. split.
  - apply (proj1 (while_special_form 1 st0)). simpl. lia.
  - destruct (while_special_form 1 st1) as (_ & _ & _ & Hstep).
    apply (proj2 (Hstep cond body (VBool true) st1 (VBool false) st2
                     (Ok (VBool false)) st2
                     ltac:(finishes_with 1) ltac:(discriminate)
                     ltac:(finishes_with 3))).
    apply (proj1 (proj2 (proj2 (while_special_form 1 st2)))).
    finishes_with 1.
Defined.

Lemma parameterNames_bad params e :
  e ∈ params -> (forall name, e <> ValidIdentifier name) ->
  parameterNames params = None.
Proof.
  intros Hin Hbad. induction params as [|p params IH]; [by apply elem_of_nil in Hin|].
  apply elem_of_cons in Hin as [<-|Hin].
  - destruct e as [l|name|op args]; simpl; try done. by destruct (Hbad name).
  - destruct p as [l|name|op args]; simpl; try done. by rewrite IH.
Qed.

(** X13: [fun] looks at its arguments and evaluates none of them: it
    changes nothing and needs no fuel beyond its own step.  Without
    arguments it is a syntax error; when every argument before the last is
    an identifier it gives the closure of those names, the last argument
    and the current scope; when one of them is not an identifier it is a
    syntax error. *)
Theorem fun_special_form (fuel : nat) (scope : loc) (st : state) :
  evaluate (S fuel) (Apply (ValidIdentifier (js "fun")) []) scope st
  = (Throw noBody, st) /\
  (forall names body,
     evaluate (S fuel)
       (Apply (ValidIdentifier (js "fun")) ((ValidIdentifier <$> names) ++ [body]))
       scope st
     = (Ok (VClosure names body scope), st)) /\
  (forall params body e,
     e ∈ params -> (forall name, e <> ValidIdentifier name) ->
     evaluate (S fuel) (Apply (ValidIdentifier (js "fun")) (params ++ [body]))
       scope st
     = (Throw badParameter, st)) /\
  (forall args r st',
     evaluate (S fuel) (Apply (ValidIdentifier (js "fun")) args) scope st
     = (r, st') ->
     st' = st /\ r <> OutOfFuel /\ r <> Unmodelled).
Proof.
  split; [done|]. split; [|split].
  - intros names body. rewrite (evaluate_special_form fuel _ Fun) by done.
    destruct (fun_parts (ValidIdentifier <$> names) body) as [Hl Ht].
    simpl. unfold specialFormFun. by rewrite Hl, Ht, parameterNames_names.
  - intros params body e Hin Hbad.
    rewrite (evaluate_special_form fuel _ Fun) by done.
    destruct (fun_parts params body) as [Hl Ht].
    simpl. unfold specialFormFun.
    by rewrite Hl, Ht, (parameterNames_bad params e).
  - intros args r st'. rewrite (evaluate_special_form fuel _ Fun) by done.
    simpl. unfold specialFormFun.
    destruct (last args); [|by intros [= <- <-]].
    destruct (parameterNames _); by intros [= <- <-].
Qed.

Lemma fun_special_form_witness :
  let st0 := (objectCreate TOP initialState).2 in
  evaluate 1
    (Apply (ValidIdentifier (js "fun"))
       [ValidIdentifier (js "a"); Value (LNum 1); ValidIdentifier (js "a")])
    1 st0
  = (Throw badParameter, st0).
Proof.
  intros st0.
  apply (proj1 (proj2 (proj2 (fun_special_form 0 1 st0)))
           [ValidIdentifier (js "a"); Value (LNum 1)]
           (ValidIdentifier (js "a")) (Value (LNum 1))).
  - apply elem_of_cons. right. apply elem_of_cons. by left.
  - intros name. discriminate.
Defined.

(** ** Scopes *)

Lemma unbound_in_child st name :
  heap st !! TOP = Some topScope ->
  bindings topScope !! name = None ->
  resolve (heap (objectCreate TOP st).2) (length (heap st)) name = None.
Proof.
  intros Htop Hname. pose proof (lookup_lt_Some _ _ _ Htop) as Hlen.
  unfold resolve, objectCreate. cbn [snd heap getProperty].
  rewrite list_lookup_middle by done. cbn [bindings proto].
  rewrite lookup_empty.
  destruct (length (heap st)) as [|k] eqn:Hk; [lia|].
  cbn [getProperty]. rewrite lookup_app_l by (unfold TOP; lia).
  rewrite Htop, Hname. done.
Qed.

(** X15: a program that is just a name bound nowhere fails with the
    undefined-binding error that carries the name, and changes nothing but
    the creation of the scope of the run. *)
Theorem unbound_identifier_error fuel st name :
  heap st !! TOP = Some topScope ->
  bindings topScope !! name = None ->
  parse name = Ok (ValidIdentifier name) ->
  run (S fuel) name st
  = (Throw (ReferenceError (js "Undefined binding: " ++ name)),
     (objectCreate TOP st).2).
Proof.
  intros Htop Hname Hparse. unfold run. rewrite Hparse.
  cbn [objectCreate evaluate evaluateStep].
  pose proof (unbound_in_child st name Htop Hname) as Hres.
  unfold objectCreate in Hres. cbn [snd] in Hres. by rewrite Hres.
Qed.

Lemma unbound_identifier_error_witness :
  run 1 (js "undefinedName") initialState
  = (Throw (ReferenceError (js "Undefined binding: undefinedName")),
     (objectCreate TOP initialState).2).
Proof.
  apply (unbound_identifier_error 0 initialState (js "undefinedName"));
    vm_compute; reflexivity.
Defined.

Lemma getProperty_setProperty_ne fuel l0 x v st l y :
  y <> x ->
  getProperty fuel (heap (setProperty l0 x v st)) l y
  = getProperty fuel (heap st) l y.
Proof.
  intros Hne. revert l. induction fuel as [|fuel IH]; intros l; [done|].
  cbn [getProperty]. unfold setProperty at 1. cbn [heap].
  destruct (decide (l = l0)) as [->|Hl].
  - rewrite list_lookup_alter_eq.
    destruct (heap st !! l0) as [o|]; [|done]. cbn [fmap option_fmap option_map].
    cbn [setOwn bindings proto]. rewrite lookup_insert_ne by done.
    destruct (bindings o !! y); [done|]. destruct (proto o); [apply IH|done].
  - rewrite list_lookup_alter_ne by done.
    destruct (heap st !! l) as [o|]; [|done].
    destruct (bindings o !! y); [done|]. destruct (proto o); [apply IH|done].
Qed.

(** X16: what [define] stores, a lookup returns.  After define(x, e) the
    name x evaluated in the same scope gives the value of e, so the two in
    a row under [do] give that value; and from no scope does the
    definition change what a name other than x resolves to. *)
Theorem define_then_lookup scope st x e v st1 :
  evaluates e scope st (Ok v) st1 ->
  scope < length (heap st1) ->
  evaluates
    (Apply (ValidIdentifier (js "do"))
       [Apply (ValidIdentifier (js "define")) [ValidIdentifier x; e];
        ValidIdentifier x])
    scope st (Ok v) (setProperty scope x v st1) /\
  resolve (heap (setProperty scope x v st1)) scope x = Some v /\
  forall l y, y <> x ->
    resolve (heap (setProperty scope x v st1)) l y = resolve (heap st1) l y.
Proof.
  intros (n & Hn)%evaluates_more_fuel Hscope.
  destruct (lookup_lt_is_Some_2 _ _ Hscope) as [o Ho].
  assert (resolve (heap (setProperty scope x v st1)) scope x = Some v) as Hres.
  { eapply resolve_own; [by apply setProperty_same|]. apply lookup_insert_eq. }
  split; [|split; [done|]].
  - exists (S (S n)). split; [|done].
    rewrite (evaluate_special_form _ _ Do) by done.
    cbn [specialForms specialFormDo doLoop]. unfold bind at 1.
    rewrite (evaluate_special_form n _ Define) by done.
    cbn [specialForms specialFormDefine]. unfold bind at 1.
    rewrite Hn by lia. unfold bind. cbn [evaluate evaluateStep].
    by rewrite Hres.
  - intros l y Hne. by apply getProperty_setProperty_ne.
Qed.

Lemma define_then_lookup_witness :
  let st0 := (objectCreate TOP initialState).2 in
  let st1 := setProperty 1 (js "print") (VNum 7) st0 in
  evaluates
    (Apply (ValidIdentifier (js "do"))
       [Apply (ValidIdentifier (js "define"))
          [ValidIdentifier (js "print"); Value (LNum 7)];
        ValidIdentifier (js "print")])
    1 st0 (Ok (VNum 7)) st1 /\
  resolve (heap st1) 1 (js "array") = Some (VBuiltin ArrayOf).
Proof.
  intros st0 st1.
  destruct (define_then_lookup 1 st0 (js "print") (Value (LNum 7)) (VNum 7) st0
              ltac:(finishes_with 1) ltac:(simpl; lia)) as (Hev & _ & Hother).
  split; [exact Hev|]. unfold st1.
  rewrite (Hother 1 (js "array")) by discriminate.
  vm_compute. reflexivity.
Defined.

Lemma getProperty_app k st o fuel l name :
  runInvariant k st -> k <= l \/ l = TOP -> l < length (heap st) ->
  getProperty fuel (heap st ++ [o]) l name = getProperty fuel (heap st) l name.
Proof.
  intros (Hk & Htop & Hobjs). revert l.
  induction fuel as [|fuel IH]; intros l Hl Hlen; [done|].
  cbn [getProperty]. rewrite lookup_app_l by done.
  destruct (heap st !! l) as [o'|] eqn:Ho; [|done].
  destruct (bindings o' !! name); [done|].
  destruct (proto o') as [p|] eqn:Hp; [|done].
  destruct Hl as [Hl| ->].
  - destruct (proj2 (Hobjs l o' Hl Ho)) as [[Hp' _]|(p' & Hp' & Hrange)];
      rewrite Hp in Hp'; injection Hp' as ->.
    + apply IH; [by right|unfold TOP; lia].
    + apply IH; [left|]; lia.
  - rewrite Htop in Ho. by injection Ho as <-.
Qed.

Lemma bindParameters_heap params vs captured st :
  heap (bindParameters (length (heap st)) params vs (objectCreate captured st).2)
  = heap st ++ [bindOwn (zip params vs) {| bindings := ∅; proto := Some captured |}].
Proof.
  destruct (bindParameters_state (length (heap st)) params vs st
              {| bindings := ∅; proto := Some captured |}) as [Hheap _].
  unfold objectCreate. cbn [snd]. rewrite Hheap.
  replace (length (heap st)) with (length (heap st) + 0) at 1 by lia.
  by rewrite alter_app_r.
Qed.

(** X17: what the body of a closure sees, in a state of a run with child
    scope k.  In the scope made for a call, a parameter name resolves to
    its argument, and every other name resolves as it does in the captured
    scope at the time of the call, not of the closure's creation and not
    in the caller's scope; so a closure whose body is such a name returns
    the current value of that name in the captured scope. *)
Theorem closure_body_resolution k st params captured vs name :
  runInvariant k st ->
  k <= captured < length (heap st) ->
  length vs = length params ->
  let l := length (heap st) in
  let st1 := bindParameters l params vs (objectCreate captured st).2 in
  (forall i v,
     params !! i = Some name -> vs !! i = Some v ->
     (forall j, i < j -> params !! j <> Some name) ->
     resolve (heap st1) l name = Some v) /\
  (name ∉ params ->
   resolve (heap st1) l name = resolve (heap st) captured name /\
   calls (VClosure params (ValidIdentifier name) captured) vs st
     match resolve (heap st) captured name with
     | Some v => Ok v
     | None => Throw (undefinedBinding name)
     end st1).
Proof.
  intros Hinv Hcap Hlen l st1.
  pose proof (bindParameters_heap params vs captured st) as Hheap.
  fold l in Hheap. fold st1 in Hheap.
  set (o := bindOwn (zip params vs) {| bindings := ∅; proto := Some captured |})
    in Hheap.
  assert (heap st1 !! l = Some o) as Ho
    by (rewrite Hheap; by apply list_lookup_middle).
  split.
  - intros i v Hp Hv Hlast. eapply resolve_own; [exact Ho|].
    apply (bindOwn_last _ _ i).
    + apply lookup_zip_with_Some. eauto.
    + intros j [p' v'] Hj [y [z (Heq & Hy & _)]]%lookup_zip_with_Some.
      injection Heq as -> ->. simpl. intros ->. by apply (Hlast j Hj).
  - intros Hno.
    assert (resolve (heap st1) l name = resolve (heap st) captured name) as Hres.
    { unfold resolve at 1. cbn [getProperty]. rewrite Ho.
      unfold o at 1. rewrite bindOwn_absent by (by rewrite fst_zip by lia).
      cbn [bindings]. rewrite lookup_empty.
      unfold o. rewrite bindOwn_proto. cbn [proto].
      rewrite Hheap, (getProperty_app k) by (done || lia).
      apply (resolve_fuel_enough k); [done|left|]; lia. }
    split; [done|]. exists 1. split.
    + rewrite callFunction_closure by done. fold l. fold st1.
      cbn [evaluate evaluateStep]. rewrite Hres.
      by destruct (resolve (heap st) captured name).
    + by destruct (resolve (heap st) captured name).
Qed.

Lemma closure_body_resolution_witness :
  let st0 := setProperty 1 (js "x") (VNum 1) (objectCreate TOP initialState).2 in
  let st1 := bindParameters 2 [js "y"] [VNum 5] (objectCreate 1 st0).2 in
  resolve (heap st1) 2 (js "y") = Some (VNum 5) /\
  calls (VClosure [js "y"] (ValidIdentifier (js "x")) 1) [VNum 5] st0
    (Ok (VNum 1)) st1.
Proof.
  intros st0 st1.
  assert (runInvariant 1 st0) as Hinv.
  { apply (setProperty_invariant 1 1 (js "x") (VNum 1)
             (objectCreate TOP initialState).2);
      [exact (child_invariant initialState eq_refl)|lia|reflexivity]. }
  split.
  - apply (proj1 (closure_body_resolution 1 st0 [js "y"] 1 [VNum 5] (js "y")
                    Hinv ltac:(simpl; lia) eq_refl) 0 (VNum 5) eq_refl eq_refl).
    intros j Hj. by destruct j as [|[|j]]; [lia|..].
  - apply (proj2 (closure_body_resolution 1 st0 [js "y"] 1 [VNum 5] (js "x")
                    Hinv ltac:(simpl; lia) eq_refl)).
    intros Hin. apply elem_of_cons in Hin as [Hin|Hin];
      [discriminate Hin|by apply elem_of_nil in Hin].
Defined.

(** ** What evaluation never undoes *)

Lemma extends_refl st : extends st st.
Proof. split; [done|]. split; [done|]. intros l o Ho. eauto. Qed.

Lemma extends_trans st1 st2 st3 :
  extends st1 st2 -> extends st2 st3 -> extends st1 st3.
Proof.
  intros (Ho1 & Hl1 & Hh1) (Ho2 & Hl2 & Hh2).
  split; [by etrans|]. split; [lia|].
  intros l o Hlo. destruct (Hh1 l o Hlo) as (o' & Hlo' & Hp' & Hb').
  destruct (Hh2 l o' Hlo') as (o'' & Hlo'' & Hp'' & Hb'').
  exists o''. split; [done|]. split; [congruence|]. auto.
Qed.

Lemma grows_bind {A B} (m : M A) (k : A -> M B) :
  grows m -> (forall a, grows (k a)) -> grows (bind m k).
Proof.
  intros Hm Hk st r st' H. unfold bind in H.
  destruct (m st) as [[a| | |] st1] eqn:E;
    [|injection H as <- <-; by apply (Hm _ _ _ E)..].
  eapply extends_trans; [by apply (Hm _ _ _ E)|by apply (Hk a _ _ _ H)].
Qed.

Lemma grows_lift {A} (r : outcome A) : grows (lift r).
Proof. intros st r' st' [= <- <-]. apply extends_refl. Qed.

Lemma extends_setProperty l name v st : extends st (setProperty l name v st).
Proof.
  split; [done|].
  split; [unfold setProperty; cbn [heap]; by rewrite length_alter|].
  intros l' o Ho. destruct (decide (l' = l)) as [->|Hne].
  - exists (setOwn name v o). split; [by apply setProperty_same|].
    split; [done|]. intros name' Hsome. cbn [setOwn bindings].
    rewrite lookup_insert. by case_decide.
  - exists o. rewrite setProperty_other by done. eauto.
Qed.

Lemma extends_objectCreate parent st : extends st (objectCreate parent st).2.
Proof.
  unfold objectCreate. cbn [snd]. split; [done|].
  split; [cbn [heap]; rewrite length_app; lia|].
  intros l o Ho. exists o. cbn [heap].
  rewrite lookup_app_l by (by eapply lookup_lt_Some). eauto.
Qed.

Lemma extends_bindParameters l params vs st :
  extends st (bindParameters l params vs st).
Proof.
  revert vs st. induction params as [|p params IH]; intros vs st;
    [apply extends_refl|].
  destruct vs as [|v vs]; [apply extends_refl|].
  change (bindParameters l (p :: params) (v :: vs) st)
    with (bindParameters l params vs (setProperty l p v st)).
  eapply extends_trans; [apply extends_setProperty|apply IH].
Qed.

Lemma grows_callBuiltin f args : grows (callBuiltin f args).
Proof.
  destruct f; unfold callBuiltin; try apply grows_lift.
  intros st r st' H. unfold bind, consoleLog, ret in H.
  injection H as <- <-. split; [by apply prefix_app_r|].
  split; [done|]. intros l o Ho. eauto.
Qed.

Section Grows.

Variable ev : expr -> loc -> M value.
Hypothesis Hev : forall e scope, grows (ev e scope).

Lemma evaluateArgs_grows args scope : grows (evaluateArgs ev args scope).
Proof.
  induction args as [|arg rest IH]; simpl; [apply grows_lift|].
  apply grows_bind; [apply Hev|]. intros v.
  apply grows_bind; [apply IH|]. intros vs. apply grows_lift.
Qed.

Lemma whileLoop_grows k cond body scope : grows (whileLoop ev k cond body scope).
Proof.
  induction k as [|k IH]; simpl; [apply grows_lift|].
  apply grows_bind; [apply Hev|]. intros c.
  destruct (isNotFalse c); [|apply grows_lift].
  apply grows_bind; [apply Hev|]. intros _. apply IH.
Qed.

Lemma doLoop_grows args scope val : grows (doLoop ev args scope val).
Proof.
  revert val. induction args as [|arg rest IH]; intros val; simpl;
    [apply grows_lift|].
  apply grows_bind; [apply Hev|]. apply IH.
Qed.

Lemma callFunction_grows f args : grows (callFunction ev f args).
Proof.
  destruct f as [n|s|b| |b|params body scope|values]; simpl;
    try apply grows_lift.
  { apply grows_callBuiltin. }
  destruct (negb (length args =? length params)); [apply grows_lift|].
  intros st r st' H. cbn [objectCreate] in H.
  eapply extends_trans; [apply (extends_objectCreate scope)|].
  eapply extends_trans; [apply extends_bindParameters|].
  apply (Hev _ _ _ _ _ H).
Qed.

Lemma evaluateStep_grows loopFuel e scope : grows (evaluateStep ev loopFuel e scope).
Proof.
  destruct e as [l|name|operator args]; simpl.
  - apply grows_lift.
  - intros st r st' H.
    destruct (resolve (heap st) scope name); injection H as <- <-;
      apply extends_refl.
  - destruct (specialFormOf operator) as [[| | | |]|]; simpl.
    + destruct args as [|a0 [|a1 [|a2 [|a3 rest]]]]; simpl;
        try apply grows_lift.
      apply grows_bind; [apply Hev|]. intros c.
      destruct (isNotFalse c); apply Hev.
    + destruct args as [|a0 [|a1 [|a2 rest]]]; simpl; try apply grows_lift.
      apply whileLoop_grows.
    + apply doLoop_grows.
    + destruct args as [|[l|name|op oargs] [|a1 [|a2 rest]]]; simpl;
        try apply grows_lift.
      apply grows_bind; [apply Hev|]. intros v st r st' [= <- <-].
      apply extends_setProperty.
    + unfold specialFormFun. destruct (last args); [|apply grows_lift].
      destruct (parameterNames _); apply grows_lift.
    + apply grows_bind; [apply Hev|]. intros op.
      destruct (isFunction op); [|apply grows_lift].
      apply grows_bind; [apply evaluateArgs_grows|]. intros vs.
      apply callFunction_grows.
Qed.

End Grows.

Lemma evaluate_grows fuel e scope : grows (evaluate fuel e scope).
Proof.
  revert e scope. induction fuel as [|fuel IH]; intros e scope.
  - apply grows_lift.
  - by apply evaluateStep_grows.
Qed.

(** X18: evaluation never takes anything back.  Whatever the program,
    the scope and the fuel, as long as the evaluation has not ended at a
    host operation outside the embedding, what had been printed is a
    prefix of what has been printed afterwards, every scope object is
    still at its place with the same prototype, and every name a scope
    bound is still bound in it; the same holds for a whole run. *)
Theorem evaluation_only_adds :
  (forall fuel e scope st r st',
     evaluate fuel e scope st = (r, st') -> r <> Unmodelled ->
     extends st st') /\
  (forall fuel program st r st',
     run fuel program st = (r, st') -> r <> Unmodelled ->
     extends st st').
Proof.
  split; [intros fuel e scope st r st' H _; by eapply evaluate_grows|].
  intros fuel program st r st' H _. unfold run in H.
  destruct (parse program) as [e|err| |];
    [|injection H as <- <-; apply extends_refl..].
  eapply extends_trans; [apply (extends_objectCreate TOP)|].
  exact (evaluate_grows fuel e (length (heap st)) _ r st' H).
Qed.

Lemma evaluation_only_adds_witness :
  let r := run 6 (js "do(print(1), define(x, 2), print(missing))")
             {| heap := [topScope]; output := [VStr (js "before")] |} in
  r.1 = Throw (undefinedBinding (js "missing")) /\
  [VStr (js "before")] `prefix_of` output r.2 /\
  output r.2 = [VStr (js "before"); VNum 1].
Proof.
  intros r. split; [vm_compute; reflexivity|]. split.
  - destruct (proj2 evaluation_only_adds 6 _ _ r.1 r.2 (surjective_pairing r))
      as [Hout _]; [vm_compute; discriminate|].
    exact Hout.
  - vm_compute. reflexivity.
Defined.

(** ** Built-in functions in programs *)

Lemma binaryOperator_finished f a b : binaryOperator f a b <> OutOfFuel.
Proof.
  unfold binaryOperator, number.
  destruct f, a, b; try done; by repeat case_match.
Qed.

Lemma lengthOf_finished a : lengthOf a <> OutOfFuel.
Proof. by destruct a. Qed.

Lemma elementOf_finished a i : elementOf a i <> OutOfFuel.
Proof. by destruct a, i. Qed.

Lemma callBuiltin_finished f args st r st' :
  callBuiltin f args st = (r, st') -> heap st' = heap st /\ r <> OutOfFuel.
Proof.
  intros H.
  assert (forall r0 : outcome value, r0 <> OutOfFuel ->
            (r0, st) = (r, st') -> heap st' = heap st /\ r <> OutOfFuel)
    as Hpure by (by intros r0 Hr0 [= <- <-]).
  destruct f; unfold callBuiltin, lift, ret in H;
    try (exact (Hpure _ (binaryOperator_finished _ _ _) H)).
  - unfold bind, consoleLog in H. by injection H as <- <-.
  - by injection H as <- <-.
  - exact (Hpure _ (lengthOf_finished _) H).
  - exact (Hpure _ (elementOf_finished _ _) H).
Qed.

(** X19: the built-in functions touch no scope, and only [print] prints:
    a call of a built-in leaves the heap as it is; a call of one other
    than [print] leaves the whole state as it is; [print] returns its
    first argument, undefined when there is none, and adds exactly that
    value at the end of the output. *)
Theorem builtins_effects f args st r st' :
  callBuiltin f args st = (r, st') ->
  heap st' = heap st /\
  r <> OutOfFuel /\
  (f <> Print -> st' = st) /\
  (f = Print ->
   r = Ok (argument 0 args) /\ output st' = output st ++ [argument 0 args]).
Proof.
  intros H.
  assert (forall r0 : outcome value, r0 <> OutOfFuel ->
            (r0, st) = (r, st') ->
            heap st' = heap st /\ r <> OutOfFuel /\ (f <> Print -> st' = st)
            /\ (f = Print -> f <> Print ->
                r = Ok (argument 0 args)
                /\ output st' = output st ++ [argument 0 args])) as Hpure.
  { intros r0 Hr0 [= <- <-]. repeat split; done. }
  destruct f; unfold callBuiltin, lift, ret in H;
    try (destruct (Hpure _ (binaryOperator_finished _ _ _) H)
           as (? & ? & ? & _); repeat split; done).
  - unfold bind, consoleLog in H. injection H as <- <-.
    repeat split; done.
  - by injection H as <- <-.
  - destruct (Hpure _ (lengthOf_finished _) H) as (? & ? & ? & _).
    repeat split; done.
  - destruct (Hpure _ (elementOf_finished _ _) H) as (? & ? & ? & _).
    repeat split; done.
Qed.

Lemma builtins_effects_witness :
  let st1 := {| heap := heap initialState; output := [VUndefined] |} in
  callBuiltin Print [] initialState = (Ok VUndefined, st1) /\
  output st1 = output initialState ++ [argument 0 []].
Proof.
  intros st1. split; [reflexivity|].
  exact (proj2 (proj2 (proj2 (proj2 (builtins_effects Print [] initialState
                 (Ok VUndefined) st1 eq_refl))) eq_refl)).
Defined.

Lemma apply_builtin name f args scope st vs st1 r st2 :
  specialFormNamed name = None ->
  resolve (heap st) scope name = Some (VBuiltin f) ->
  argumentsEvaluate scope args st vs st1 ->
  callBuiltin f vs st1 = (r, st2) ->
  evaluates (Apply (ValidIdentifier name) args) scope st r st2.
Proof.
  intros Hname Hres (n & Hargs)%argumentsEvaluate_more_fuel Hcall.
  exists (S (S n)). split.
  - rewrite evaluate_apply by done. unfold bind at 1.
    cbn [evaluate evaluateStep]. rewrite Hres. cbn [isFunction].
    unfold bind. change (evaluateStep (evaluate n) n) with (evaluate (S n)).
    by rewrite Hargs by lia.
  - by destruct (callBuiltin_finished _ _ _ _ _ Hcall).
Qed.

Lemma elementOf_in_range vs n :
  elementOf (VArray vs) (VNum (Z.of_nat n))
  = Ok (default VUndefined (vs !! n)).
Proof.
  unfold elementOf. destruct (Z.leb_spec 0 (Z.of_nat n)); [|lia].
  by rewrite Nat2Z.id.
Qed.

(** X20: arrays read back what they were made of.  In a scope where the
    names array, length and element have their built-in meaning,
    array(...) gives the values of its arguments in order; length of an
    expression that gives an array gives the number of its elements; and
    element of such an expression and of an index within range gives the
    element at that index, counted from zero. *)
Theorem array_round_trip (scope : loc) (st : state) :
  (forall args vs st',
     resolve (heap st) scope (js "array") = Some (VBuiltin ArrayOf) ->
     argumentsEvaluate scope args st vs st' ->
     evaluates (Apply (ValidIdentifier (js "array")) args) scope st
       (Ok (VArray vs)) st') /\
  (forall e vs st',
     resolve (heap st) scope (js "length") = Some (VBuiltin Length) ->
     evaluates e scope st (Ok (VArray vs)) st' ->
     evaluates (Apply (ValidIdentifier (js "length")) [e]) scope st
       (Ok (VNum (Z.of_nat (length vs)))) st') /\
  (forall e i vs n v st1 st2,
     resolve (heap st) scope (js "element") = Some (VBuiltin Element) ->
     evaluates e scope st (Ok (VArray vs)) st1 ->
     evaluates i scope st1 (Ok (VNum (Z.of_nat n))) st2 ->
     vs !! n = Some v ->
     evaluates (Apply (ValidIdentifier (js "element")) [e; i]) scope st
       (Ok v) st2).
Proof.
  split; [|split].
  - intros args vs st' Hres Hargs.
    by apply (apply_builtin _ ArrayOf args scope st vs st').
  - intros e vs st' Hres He.
    apply (apply_builtin _ Length [e] scope st [VArray vs] st'); [done|done| |done].
    eapply arguments_cons; [exact He|apply arguments_nil].
  - intros e i vs n v st1 st2 Hres He Hi Hv.
    apply (apply_builtin _ Element [e; i] scope st
             [VArray vs; VNum (Z.of_nat n)] st2); [done|done| |].
    + eapply arguments_cons; [exact He|].
      eapply arguments_cons; [exact Hi|apply arguments_nil].
    + change (callBuiltin Element [VArray vs; VNum (Z.of_nat n)] st2)
        with (elementOf (VArray vs) (VNum (Z.of_nat n)), st2).
      by rewrite elementOf_in_range, Hv.
Qed.

Lemma array_round_trip_witness :
  let st0 := (objectCreate TOP initialState).2 in
  let items := Apply (ValidIdentifier (js "array"))
                 [Value (LNum 10); Value (LNum 20); Value (LNum 30)] in
  evaluates items 1 st0 (Ok (VArray [VNum 10; VNum 20; VNum 30])) st0 /\
  evaluates (Apply (ValidIdentifier (js "length")) [items]) 1 st0
    (Ok (VNum 3)) st0 /\
  evaluates (Apply (ValidIdentifier (js "element")) [items; Value (LNum 1)])
    1 st0 (Ok (VNum 20)) st0.
Proof.
  intros st0 items.
  destruct (array_round_trip 1 st0) as (Harray & Hlength & Helement).
  assert (evaluates items 1 st0 (Ok (VArray [VNum 10; VNum 20; VNum 30])) st0)
    as Hitems.
  { apply Harray; [vm_compute; reflexivity|].
    repeat (eapply arguments_cons; [finishes_with 1|]).
    apply arguments_nil. }
  split; [exact Hitems|]. split.
  - apply (Hlength items [VNum 10; VNum 20; VNum 30] st0);
      [vm_compute; reflexivity|exact Hitems].
  - apply (Helement items (Value (LNum 1)) [VNum 10; VNum 20; VNum 30] 1
             (VNum 20) st0 st0);
      [vm_compute; reflexivity|exact Hitems|finishes_with 1|reflexivity].
Defined.

(** ** Termination without loops and functions *)

Lemma settles_bind {A B} (okA : A -> Prop) (okB : B -> Prop)
  (m : M A) (k : A -> M B) :
  settles okA m -> (forall a, okA a -> settles okB (k a)) ->
  settles okB (bind m k).
Proof.
  intros Hm Hk st r st' Hfree H. unfold bind in H.
  destruct (m st) as [ra st1] eqn:E.
  destruct (Hm _ _ _ Hfree E) as (Hfin & Hfree1 & Hok).
  destruct ra as [a| | |]; [by eapply Hk; eauto|..];
    injection H as <- <-; done.
Qed.

Lemma settles_lift {A} (okA : A -> Prop) (r : outcome A) :
  r <> OutOfFuel -> (forall a, r = Ok a -> okA a) -> settles okA (lift r).
Proof. intros Hfin Hok st r' st' Hfree [= <- <-]. done. Qed.

Lemma settles_ret {A} (okA : A -> Prop) (a : A) :
  okA a -> settles okA (ret a).
Proof. intros Ha. apply (settles_lift okA (Ok a)); [done|]. by intros ? [= <-]. Qed.

Lemma settles_throw {A} (okA : A -> Prop) (e : error) :
  settles okA (throw e).
Proof. by apply (settles_lift okA (Throw e)). Qed.

Lemma closureFreeState_setProperty l name v st :
  closureFreeState st -> closureFree v ->
  closureFreeState (setProperty l name v st).
Proof.
  intros Hfree Hv l' o' name' v' Ho' Hv'.
  destruct (decide (l' = l)) as [->|Hne].
  - unfold setProperty in Ho'. cbn [heap] in Ho'.
    rewrite list_lookup_alter_eq in Ho'.
    destruct (heap st !! l) as [o|] eqn:Ho; [|done].
    injection Ho' as <-. cbn [setOwn bindings] in Hv'.
    rewrite lookup_insert in Hv'. case_decide.
    + by injection Hv' as <-.
    + by eapply Hfree.
  - rewrite setProperty_other in Ho' by done. by eapply Hfree.
Qed.

Lemma closureFreeState_resolve st fuel l name v :
  closureFreeState st -> getProperty fuel (heap st) l name = Some v ->
  closureFree v.
Proof.
  intros Hfree. revert l. induction fuel as [|fuel IH]; intros l; [done|].
  cbn [getProperty]. destruct (heap st !! l) as [o|] eqn:Ho; [|done].
  destruct (bindings o !! name) as [w|] eqn:Hw.
  - intros [= <-]. by eapply Hfree.
  - destruct (proto o); [apply IH|done].
Qed.

Lemma settles_callBuiltin f vs :
  okValues 1 0 vs -> settles closureFree (callBuiltin f vs).
Proof.
  intros Hvs st r st' Hfree H.
  destruct (callBuiltin_finished _ _ _ _ _ H) as (Hheap & Hfin).
  split; [done|]. split.
  { intros l o name v Ho. rewrite Hheap in Ho. by eapply Hfree. }
  intros a ->. unfold closureFree.
  destruct f; unfold callBuiltin, lift, ret in H;
    try (apply (f_equal fst) in H; cbn [fst] in H;
         exact (binaryOperator_closed 1 0 _ _ _ _ H)).
  - unfold bind, consoleLog in H. injection H as <- _.
    by apply okValue_argument.
  - apply (f_equal fst) in H. cbn [fst] in H. by injection H as <-.
  - apply (f_equal fst) in H. cbn [fst] in H.
    exact (lengthOf_closed 1 0 _ _ H).
  - apply (f_equal fst) in H. cbn [fst] in H.
    eapply (elementOf_closed 1 0); [|exact H]. by apply okValue_argument.
Qed.

Lemma foldr_max_le (f : expr -> nat) b args n :
  foldr (fun arg d => Nat.max (f arg) d) b args <= n ->
  b <= n /\ Forall (fun arg => f arg <= n) args.
Proof.
  induction args as [|a args IH]; simpl; [by auto|].
  intros H. destruct IH as [Hb Hargs]; [lia|].
  split; [done|]. constructor; [lia|done].
Qed.

Section Settles.

Variable n : nat.
Variable ev : expr -> loc -> M value.
Hypothesis Hev : forall e scope,
  depth e <= n -> loopFree e = true -> settles closureFree (ev e scope).

Lemma evaluateArgs_settles args scope :
  Forall (fun arg => depth arg <= n) args ->
  forallb loopFree args = true ->
  settles (okValues 1 0) (evaluateArgs ev args scope).
Proof.
  induction 1 as [|arg rest Harg _ IH]; simpl; intros Hfree.
  { by apply settles_ret. }
  apply andb_true_iff in Hfree as [Ha Hrest].
  eapply settles_bind; [by apply Hev|]. intros v Hv.
  eapply settles_bind; [by apply IH|]. intros vs Hvs.
  apply settles_ret. unfold okValues. simpl.
  unfold closureFree in Hv. unfold okValues in Hvs. by rewrite Hv, Hvs.
Qed.

Lemma doLoop_settles args scope val :
  Forall (fun arg => depth arg <= n) args ->
  forallb loopFree args = true ->
  closureFree val ->
  settles closureFree (doLoop ev args scope val).
Proof.
  intros Hd. revert val.
  induction Hd as [|arg rest Harg _ IH]; simpl; intros val Hfree Hval.
  { by apply settles_ret. }
  apply andb_true_iff in Hfree as [Ha Hrest].
  eapply settles_bind; [by apply Hev|]. intros v Hv. by apply IH.
Qed.

Lemma callFunction_settles f vs :
  closureFree f -> okValues 1 0 vs ->
  settles closureFree (callFunction ev f vs).
Proof.
  intros Hf Hvs.
  destruct f as [z|s|b| |b|params body scope|values]; simpl;
    try (by apply settles_throw).
  - by apply settles_callBuiltin.
  - unfold closureFree in Hf. cbn [closuresWithin] in Hf.
    apply andb_true_iff in Hf as [_ Hf%Nat.ltb_lt]. lia.
Qed.

Lemma evaluateStep_settles loopFuel e scope :
  depth e <= S n -> loopFree e = true ->
  settles closureFree (evaluateStep ev loopFuel e scope).
Proof.
  intros Hd Hfree. destruct e as [l|name|operator args]; simpl.
  - apply settles_lift.
    + destruct l; simpl; [|done..]. unfold number. by case_match.
    + intros a Ha. destruct l; simpl in Ha.
      * unfold number in Ha. case_match; [|done]. by injection Ha as <-.
      * by injection Ha as <-.
      * done.
  - intros st r st' Hst H.
    destruct (resolve (heap st) scope name) as [v|] eqn:Hres;
      injection H as <- <-; (split; [done|]); (split; [done|]); [|done].
    intros a [= <-]. by eapply closureFreeState_resolve.
  - simpl in Hd, Hfree.
    apply le_S_n, foldr_max_le in Hd as [Hop Hargs].
    destruct (specialFormOf operator) as [[| | | |]|] eqn:Hform; try done;
      apply andb_true_iff in Hfree as [Hfop Hfargs]; simpl.
    + destruct args as [|a0 [|a1 [|a2 [|a3 rest]]]]; simpl;
        try (by apply settles_throw).
      inversion Hargs as [|? ? H0 Hargs1]; subst.
      inversion Hargs1 as [|? ? H1 Hargs2]; subst.
      inversion Hargs2 as [|? ? H2 _]; subst.
      simpl in Hfargs. rewrite !andb_true_iff in Hfargs.
      destruct Hfargs as (F0 & F1 & F2 & _).
      eapply settles_bind; [by apply Hev|]. intros c _.
      destruct (isNotFalse c); by apply Hev.
    + by apply doLoop_settles.
    + destruct args as [|[l|name|op oargs] [|a1 [|a2 rest]]]; simpl;
        try (by apply settles_throw).
      inversion Hargs as [|? ? H0 Hargs1]; subst.
      inversion Hargs1 as [|? ? H1 _]; subst.
      simpl in Hfargs. rewrite !andb_true_iff in Hfargs.
      destruct Hfargs as (F1 & _).
      eapply settles_bind; [by apply Hev|]. intros v Hv st r st' Hst H.
      cbv beta in H. injection H as <- <-.
      split; [done|]. split; [by apply closureFreeState_setProperty|].
      by intros a [= <-].
    + eapply settles_bind; [by apply Hev|]. intros op Hopfree.
      destruct (isFunction op); [|by apply settles_throw].
      eapply settles_bind; [by apply evaluateArgs_settles|]. intros vs Hvs.
      by apply callFunction_settles.
Qed.

End Settles.

Lemma evaluate_settles n e scope :
  depth e <= n -> loopFree e = true ->
  settles closureFree (evaluate n e scope).
Proof.
  revert e scope. induction n as [|n IH]; intros e scope Hd Hfree.
  - destruct e; simpl in Hd; lia.
  - by apply (evaluateStep_settles n (evaluate n) IH).
Qed.

Lemma closureFreeState_child st :
  closureFreeState st -> closureFreeState (objectCreate TOP st).2.
Proof.
  intros Hfree l o name v Ho Hv. unfold objectCreate in Ho. cbn [snd heap] in Ho.
  apply lookup_app_Some in Ho as [Ho|[_ Ho]]; [by eapply Hfree|].
  destruct (l - length (heap st)) as [|d]; [|done].
  injection Ho as <-. cbn [bindings] in Hv. by rewrite lookup_empty in Hv.
Qed.

Lemma closureFreeState_initial : closureFreeState initialState.
Proof.
  intros l o name v Ho Hv. destruct l as [|l]; [|done].
  injection Ho as <-. by eapply topScope_closed.
Qed.

(** X21: without loops and functions, evaluation goes no deeper than
    the syntax tree.  When no application in the tree has while or fun as
    its operator, and no scope holds a closure, as at the start of the
    first run, evaluation with fuel equal to the nesting depth of the
    tree ends in one of three ways: with a value, with an error, or at a
    host operation outside the embedding, of which nothing is said here
    (the interpreter goes on in host code there).  More fuel gives the
    same, and in the state left still no scope holds a closure.  The same
    holds for a run of such a program on the initial state. *)
Theorem loop_free_evaluation_depth e :
  loopFree e = true ->
  (forall scope st,
     closureFreeState st ->
     exists r st',
       evaluate (depth e) e scope st = (r, st') /\
       ((exists v, r = Ok v) \/ (exists err, r = Throw err) \/ r = Unmodelled) /\
       closureFreeState st' /\
       forall fuel, depth e <= fuel -> evaluate fuel e scope st = (r, st')) /\
  (forall program,
     parse program = Ok e ->
     exists r st',
       run (depth e) program initialState = (r, st') /\
       ((exists v, r = Ok v) \/ (exists err, r = Throw err) \/ r = Unmodelled)).
Proof.
  intros Hfree.
  assert (forall scope st, closureFreeState st ->
     exists r st',
       evaluate (depth e) e scope st = (r, st') /\
       ((exists v, r = Ok v) \/ (exists err, r = Throw err) \/ r = Unmodelled) /\
       closureFreeState st' /\
       forall fuel, depth e <= fuel -> evaluate fuel e scope st = (r, st'))
    as Hterm.
  { intros scope st Hst.
    destruct (evaluate (depth e) e scope st) as [r st'] eqn:E.
    destruct (evaluate_settles (depth e) e scope (le_n _) Hfree _ _ _ Hst E)
      as (Hfin & Hst' & _).
    exists r, st'. split; [done|]. split; [|split; [done|]].
    - destruct r as [v|err| |]; [left|right; left|right; right|done]; eauto.
    - intros fuel Hfuel. by apply (evaluate_mono (depth e) fuel Hfuel). }
  split; [exact Hterm|].
  intros program Hparse. unfold run. rewrite Hparse.
  destruct (Hterm 1 (objectCreate TOP initialState).2
              (closureFreeState_child _ closureFreeState_initial))
    as (r & st' & E & Hr & _).
  exists r, st'. split; [|done].
  cbn [objectCreate]. cbn [objectCreate snd] in E.
  change (length (heap initialState)) with 1. by rewrite E.
Qed.

Lemma loop_free_evaluation_depth_witness :
  exists st',
    run 4 (js "if(<(1, 2), print(+(1, missing)), array())") initialState
    = (Throw (undefinedBinding (js "missing")), st').
Proof.
  destruct (proj2 (loop_free_evaluation_depth
                  (Apply (ValidIdentifier (js "if"))
                     [Apply (ValidIdentifier (js "<"))
                        [Value (LNum 1); Value (LNum 2)];
                      Apply (ValidIdentifier (js "print"))
                        [Apply (ValidIdentifier (js "+"))
                           [Value (LNum 1); ValidIdentifier (js "missing")]];
                      Apply (ValidIdentifier (js "array")) []])
                  eq_refl)
              (js "if(<(1, 2), print(+(1, missing)), array())")
              ltac:(vm_compute; reflexivity))
    as (r & st' & Hrun & _).
  pose proof (f_equal fst Hrun) as Hr. vm_compute in Hr. subst r.
  exists st'. exact Hrun.
Defined.
